(** * msssk/core: object copy engine (src/lang.ts) and timing wrappers
      (src/util.ts)

    A shallow embedding of the JavaScript object model the two modules run
    on, of [copy] and its helpers, and of the closures returned by
    [debounce], [throttle] and [throttleAfter], followed by the properties
    the specification states about them.

    Conventions of the embedding.
    - Objects live in a store indexed by addresses; arrays live in a store
      of their own, so that [Array.isArray] is a test on the shape of a
      value.  An array is the dense list of its elements.
    - An object is numbered after its prototype (objects are created by
      literals and [Object.create], which link to an object that exists),
      so a walk up the chain from address [l] needs at most [S l] steps.
    - Function objects are opaque: the only thing recorded about one is the
      value it returns when it is invoked as a getter.  Invoking a setter
      has no effect on the store.
    - Module code is strict: an assignment that the object model rejects
      throws a TypeError.
    - Property keys are strings, listed in the order the engine reports
      them. *)

From stdpp Require Import base strings list gmap.
From Stdlib Require Import ZArith Lia.

Set Warnings "-clear-no-such-hyp".

Open Scope Z_scope.
Open Scope string_scope.
Open Scope list_scope.
Open Scope nat_scope.

(** ** Values, descriptors, objects *)

Definition loc := nat.
Definition aloc := nat.

Inductive val :=
| VUndefined
| VNull
| VBool (b : bool)
| VNum (z : Z)
| VNaN
| VStr (s : string)
| VObj (l : loc)
| VArr (a : aloc).

Global Instance value_eq_dec : EqDecision val.
Proof. solve_decision. Defined.

(** The standard property descriptor: a stored value or a pair of accessor
    functions, with its attributes. *)
Inductive descriptor :=
| Data (v : val) (writable enumerable configurable : bool)
| Accessor (getter setter : val) (enumerable configurable : bool).

Global Instance descriptor_eq_dec : EqDecision descriptor.
Proof. solve_decision. Defined.

Definition d_enumerable (d : descriptor) : bool :=
  match d with Data _ _ e _ => e | Accessor _ _ e _ => e end.

Definition d_configurable (d : descriptor) : bool :=
  match d with Data _ _ _ c => c | Accessor _ _ _ c => c end.

(** [descriptor.value]: the stored value, [undefined] on an accessor. *)
Definition d_value (d : descriptor) : val :=
  match d with Data v _ _ _ => v | Accessor _ _ _ _ => VUndefined end.

(** [descriptor.value = v]: only ever applied to a data descriptor. *)
Definition d_set_value (d : descriptor) (v : val) : descriptor :=
  match d with Data _ w e c => Data v w e c | Accessor g s e c => Accessor g s e c end.

(** What [typeof] and [instanceof RegExp] can tell about an object. *)
Inductive class :=
| CObject
| CFunction (ret : val)
| CRegExp
| CDate.

Global Instance class_eq_dec : EqDecision class.
Proof. solve_decision. Defined.

Record object := Object {
  proto : option loc;
  cls : class;
  extensible : bool;
  props : list (string * descriptor)
}.

Global Instance object_eq_dec : EqDecision object.
Proof. solve_decision. Defined.

Record heap := Heap {
  objs : list object;
  arrs : list (list val)
}.

(** [Object.prototype] is the first object of every store. *)
Definition ObjectPrototype : loc := 0.

Definition empty_object : object := Object None CObject true [].

Definition get_obj (h : heap) (l : loc) : object :=
  default empty_object (objs h !! l).

Definition get_arr (h : heap) (a : aloc) : list val :=
  default [] (arrs h !! a).

Definition set_obj (h : heap) (l : loc) (o : object) : heap :=
  Heap (<[l := o]> (objs h)) (arrs h).

Definition alloc_obj (h : heap) (o : object) : heap * loc :=
  (Heap (objs h ++ [o]) (arrs h), length (objs h)).

Definition alloc_arr (h : heap) (items : list val) : heap * aloc :=
  (Heap (objs h) (arrs h ++ [items]), length (arrs h)).

(** ** Results: a returned value, a thrown error, or a call stack that ran
    out *)

Inductive error := RangeError | TypeError.

Inductive result (A : Type) :=
| Ok (a : A)
| Throw (e : error)
| OutOfFuel.
Arguments Ok {A} a.
Arguments Throw {A} e.
Arguments OutOfFuel {A}.

Definition bind {A B} (r : result A) (k : A -> result B) : result B :=
  match r with
  | Ok a => k a
  | Throw e => Throw e
  | OutOfFuel => OutOfFuel
  end.

Global Instance result_bind : MBind result := fun A B k r => bind r k.
Global Instance result_ret : MRet result := fun A a => Ok a.

(** ** The object model operations the modules call *)

Fixpoint assoc (name : string) (ps : list (string * descriptor)) : option descriptor :=
  match ps with
  | [] => None
  | (k, d) :: ps' => if decide (k = name) then Some d else assoc name ps'
  end.

(** Replace the descriptor of an existing key in place, or append a new key. *)
Fixpoint assoc_set (name : string) (d : descriptor) (ps : list (string * descriptor))
  : list (string * descriptor) :=
  match ps with
  | [] => [(name, d)]
  | (k, d0) :: ps' =>
      if decide (k = name) then (k, d) :: ps' else (k, d0) :: assoc_set name d ps'
  end.

Definition getOwnPropertyDescriptor (h : heap) (l : loc) (name : string) : option descriptor :=
  assoc name (props (get_obj h l)).

Definition getOwnPropertyNames (h : heap) (l : loc) : list string :=
  (props (get_obj h l)).*1.

Definition hasOwnProperty (h : heap) (l : loc) (name : string) : bool :=
  bool_decide (is_Some (getOwnPropertyDescriptor h l name)).

Definition getPrototypeOf (h : heap) (l : loc) : option loc :=
  proto (get_obj h l).

Definition set_prop (h : heap) (l : loc) (name : string) (d : descriptor) : heap :=
  let o := get_obj h l in
  set_obj h l (Object (proto o) (cls o) (extensible o) (assoc_set name d (props o))).

(** Invoking a getter: the function's recorded return value. *)
Definition call_getter (h : heap) (g : val) : val :=
  match g with
  | VObj f => match cls (get_obj h f) with CFunction ret => ret | _ => VUndefined end
  | _ => VUndefined
  end.

(** [lookup_chain n h l name]: the nearest descriptor of [name] on the chain
    of [l], in at most [n] steps. *)
Fixpoint lookup_chain (n : nat) (h : heap) (l : loc) (name : string) : option descriptor :=
  match n with
  | 0 => None
  | S n' =>
      match getOwnPropertyDescriptor h l name with
      | Some d => Some d
      | None =>
          match getPrototypeOf h l with
          | Some p => lookup_chain n' h p name
          | None => None
          end
      end
  end.

(** [object[name]] *)
Definition get (h : heap) (l : loc) (name : string) : val :=
  match lookup_chain (S l) h l name with
  | Some (Data v _ _ _) => v
  | Some (Accessor g _ _ _) => call_getter h g
  | None => VUndefined
  end.

(** [object[name] = v] in strict code. *)
Definition put (h : heap) (l : loc) (name : string) (v : val) : result heap :=
  match lookup_chain (S l) h l name with
  | Some (Data _ w _ _) =>
      if w then
        match getOwnPropertyDescriptor h l name with
        | Some (Data _ w' e c) => Ok (set_prop h l name (Data v w' e c))
        | Some (Accessor _ _ _ _) => Throw TypeError
        | None =>
            if extensible (get_obj h l)
            then Ok (set_prop h l name (Data v true true true))
            else Throw TypeError
        end
      else Throw TypeError
  | Some (Accessor _ s _ _) =>
      match s with
      | VUndefined => Throw TypeError
      | _ => Ok h
      end
  | None =>
      if extensible (get_obj h l)
      then Ok (set_prop h l name (Data v true true true))
      else Throw TypeError
  end.

(** Whether a complete descriptor may replace the current one of a
    property that is not configurable. *)
Definition compatible (cur new : descriptor) : bool :=
  match cur, new with
  | Data v w e c, Data v' w' e' c' =>
      negb c' && bool_decide (e = e') &&
      (w || (negb w' && bool_decide (v = v')))
  | Accessor g s e c, Accessor g' s' e' c' =>
      negb c' && bool_decide (e = e') && bool_decide (g = g') && bool_decide (s = s')
  | _, _ => false
  end.

(** [Object.defineProperty(object, name, descriptor)] with a complete
    descriptor. *)
Definition defineProperty (h : heap) (l : loc) (name : string) (d : descriptor) : result heap :=
  match getOwnPropertyDescriptor h l name with
  | None =>
      if extensible (get_obj h l) then Ok (set_prop h l name d) else Throw TypeError
  | Some cur =>
      if d_configurable cur || compatible cur d
      then Ok (set_prop h l name d)
      else Throw TypeError
  end.

(** The keys a [for (name in object)] loop visits: the enumerable keys of
    the object, then those of its prototypes that no nearer object
    defines. *)
Fixpoint forInKeys (n : nat) (h : heap) (l : loc) (visited : list string) : list string :=
  match n with
  | 0 => []
  | S n' =>
      let own := props (get_obj h l) in
      let here :=
        (filter (fun kd => d_enumerable kd.2 = true /\ kd.1 ∉ visited) own).*1 in
      here ++
      match getPrototypeOf h l with
      | Some p => forInKeys n' h p (visited ++ own.*1)
      | None => []
      end
  end.

(** ** src/lang.ts *)

(** [item && typeof item === 'object' && !Array.isArray(item) &&
    !(item instanceof RegExp)] *)
Definition isObject (h : heap) (item : val) : bool :=
  match item with
  | VObj l =>
      match cls (get_obj h l) with
      | CFunction _ => false
      | CRegExp => false
      | CObject | CDate => true
      end
  | _ => false
  end.

Record CopyArgs := mkCopyArgs {
  deep : bool;
  descriptors : bool;
  inherited : bool;
  assignPrototype : bool;
  target : option loc;
  sources : list loc
}.

(** One pass of the inner loop of [getPropertyNames] over the own names of
    a level; [setOfNames] is the object the source uses as a set. *)
Definition addNames (ownNames : list string) (acc : gset string * list string)
  : gset string * list string :=
  foldl (fun (sn : gset string * list string) name =>
           if decide (name ∈ sn.1) then sn
           else ({[name]} ∪ sn.1, sn.2 ++ [name]))
        acc ownNames.

Fixpoint getPropertyNames_loop (n : nat) (h : heap) (object : loc)
    (acc : gset string * list string) : list string :=
  match n with
  | 0 => acc.2
  | S n' =>
      let acc' := addNames (getOwnPropertyNames h object) acc in
      match getPrototypeOf h object with
      | Some p =>
          if decide (p = ObjectPrototype) then acc'.2
          else getPropertyNames_loop n' h p acc'
      | None => acc'.2
      end
  end.

Definition getPropertyNames (h : heap) (object : loc) : list string :=
  getPropertyNames_loop (S object) h object (∅, []).

Definition getPropertyDescriptor (h : heap) (object : loc) (property : string)
  : option descriptor :=
  lookup_chain (S object) h object property.

(** [a === b] *)
Definition strict_equal (a b : val) : bool :=
  match a, b with
  | VNaN, _ | _, VNaN => false
  | _, _ => bool_decide (a = b)
  end.

Definition isIdentical (a b : val) : bool :=
  strict_equal a b || (negb (strict_equal a a) && negb (strict_equal b b)).

(** Threading the store through [Array.prototype.map]. *)
Fixpoint mapItems (f : heap -> val -> result (heap * val)) (h : heap)
    (items : list val) : result (heap * list val) :=
  match items with
  | [] => Ok (h, [])
  | item :: rest =>
      '(h1, item') ← f h item;
      '(h2, rest') ← mapItems f h1 rest;
      Ok (h2, item' :: rest')
  end.

Section Bodies.
(** The bodies of [copy] and [copyArray], over the calls they make to
    each other one frame down the call stack. *)
Variable copy_rec : heap -> CopyArgs -> result (heap * loc).
Variable copyArray_rec : heap -> aloc -> CopyArgs -> result (heap * aloc).

Definition copyItem (kwArgs : CopyArgs) (h : heap) (item : val)
  : result (heap * val) :=
  match item with
  | VArr a =>
      '(h', a') ← copyArray_rec h a kwArgs;
      Ok (h', VArr a')
  | VObj l =>
      if isObject h item then
        '(h', l') ← copy_rec h
           {| sources := [l];
              deep := deep kwArgs;
              descriptors := descriptors kwArgs;
              inherited := inherited kwArgs;
              assignPrototype := assignPrototype kwArgs;
              target := None |};
        Ok (h', VObj l')
      else Ok (h, item)
  | _ => Ok (h, item)
  end.

Definition copyArray_body (h : heap) (array : aloc) (kwArgs : CopyArgs)
  : result (heap * aloc) :=
  '(h', items) ← mapItems (copyItem kwArgs) h (get_arr h array);
  Ok (alloc_arr h' items).

(** The [if (kwArgs.deep) { ... }] block, shared by the two branches of
    [copy]; [withDescriptors] is the [descriptors] flag of the nested
    call. *)
Definition deepValue (withDescriptors : bool) (kwArgs : CopyArgs) (h : heap)
    (value : val) : result (heap * val) :=
  match value with
  | VArr a =>
      '(h', a') ← copyArray_rec h a kwArgs;
      Ok (h', VArr a')
  | VObj l =>
      if isObject h value then
        '(h', l') ← copy_rec h
           {| sources := [l];
              deep := true;
              descriptors := withDescriptors;
              inherited := inherited kwArgs;
              assignPrototype := assignPrototype kwArgs;
              target := None |};
        Ok (h', VObj l')
      else Ok (h, value)
  | _ => Ok (h, value)
  end.

(** The loop over [names] of the [descriptors] branch. *)
Fixpoint defineAll (kwArgs : CopyArgs) (target source : loc) (h : heap)
    (names : list string) : result heap :=
  match names with
  | [] => Ok h
  | name :: rest =>
      match (if inherited kwArgs then getPropertyDescriptor
             else getOwnPropertyDescriptor) h source name with
      | None => Throw TypeError
      | Some descriptor =>
          '(h1, descriptor') ←
            (if deep kwArgs then
               '(h1, value) ← deepValue true kwArgs h (d_value descriptor);
               Ok (h1, d_set_value descriptor value)
             else Ok (h, descriptor));
          h2 ← defineProperty h1 target name descriptor';
          defineAll kwArgs target source h2 rest
      end
  end.

(** The [for (name in source)] loop of the other branch. *)
Fixpoint assignAll (kwArgs : CopyArgs) (target source : loc) (h : heap)
    (names : list string) : result heap :=
  match names with
  | [] => Ok h
  | name :: rest =>
      if inherited kwArgs || hasOwnProperty h source name then
        '(h1, value) ←
          (if deep kwArgs then deepValue false kwArgs h (get h source name)
           else Ok (h, get h source name));
        h2 ← put h1 target name value;
        assignAll kwArgs target source h2 rest
      else assignAll kwArgs target source h rest
  end.

Definition copySource (kwArgs : CopyArgs) (target : loc) (h : heap) (source : loc)
  : result heap :=
  if descriptors kwArgs then
    defineAll kwArgs target source h
      ((if inherited kwArgs then getPropertyNames else getOwnPropertyNames) h source)
  else
    assignAll kwArgs target source h (forInKeys (S source) h source []).

Fixpoint copySources (kwArgs : CopyArgs) (target : loc) (h : heap)
    (srcs : list loc) : result heap :=
  match srcs with
  | [] => Ok h
  | source :: rest =>
      h1 ← copySource kwArgs target h source;
      copySources kwArgs target h1 rest
  end.

(** [Object.create(Object.getPrototypeOf(sources[0]))], or
    [kwArgs.target || {}]. *)
Definition makeTarget (h : heap) (kwArgs : CopyArgs) (source0 : loc) : heap * loc :=
  if assignPrototype kwArgs then
    alloc_obj h (Object (getPrototypeOf h source0) CObject true [])
  else
    match target kwArgs with
    | Some t => (h, t)
    | None => alloc_obj h (Object (Some ObjectPrototype) CObject true [])
    end.

Definition copy_body (h : heap) (kwArgs : CopyArgs) : result (heap * loc) :=
  match sources kwArgs with
  | [] => Throw RangeError
  | source0 :: _ =>
      let '(h0, target) := makeTarget h kwArgs source0 in
      h' ← copySources kwArgs target h0 (sources kwArgs);
      Ok (h', target)
  end.
End Bodies.

(** [copy n] and [copyArray n] run with [n] frames of call stack left. *)
Fixpoint copy (n : nat) (h : heap) (kwArgs : CopyArgs) {struct n}
  : result (heap * loc) :=
  match n with
  | 0 => OutOfFuel
  | S n' => copy_body (copy n') (copyArray n') h kwArgs
  end
with copyArray (n : nat) (h : heap) (array : aloc) (kwArgs : CopyArgs) {struct n}
  : result (heap * aloc) :=
  match n with
  | 0 => OutOfFuel
  | S n' => copyArray_body (copy n') (copyArray n') h array kwArgs
  end.

Definition create (n : nat) (h : heap) (prototype : loc) (mixins : list loc)
  : result (heap * loc) :=
  match mixins with
  | [] => Throw RangeError
  | _ =>
      let '(h0, t) := alloc_obj h (Object (Some prototype) CObject true []) in
      copy n h0
        {| assignPrototype := false;
           deep := false;
           descriptors := false;
           inherited := false;
           target := Some t;
           sources := mixins |}
  end.

Definition duplicate (n : nat) (h : heap) (source : loc) : result (heap * loc) :=
  copy n h
    {| assignPrototype := true;
       deep := true;
       descriptors := true;
       inherited := false;
       target := None;
       sources := [source] |}.

(** [lateBind] and [partial] return closures; the argument list the
    closure passes on is all that the embedding keeps of a call. *)
Record lateBound := LateBound {
  lb_instance : loc;
  lb_method : string;
  lb_suppliedArgs : list val
}.

Definition lateBind (instance : loc) (method : string) (suppliedArgs : list val)
  : lateBound :=
  LateBound instance method suppliedArgs.

Definition lateBind_args (f : lateBound) (arguments : list val) : list val :=
  match lb_suppliedArgs f with
  | [] => arguments
  | suppliedArgs =>
      match arguments with
      | [] => suppliedArgs
      | _ => suppliedArgs ++ arguments
      end
  end.

Record partiallyApplied := Partial {
  pa_targetFunction : val;
  pa_suppliedArgs : list val
}.

Definition partial (targetFunction : val) (suppliedArgs : list val) : partiallyApplied :=
  Partial targetFunction suppliedArgs.

Definition partial_args (f : partiallyApplied) (arguments : list val) : list val :=
  match arguments with
  | [] => pa_suppliedArgs f
  | _ => pa_suppliedArgs f ++ arguments
  end.

(** ** src/util.ts

    The wrappers run on the host's timer queue and clock.  Time is in
    milliseconds.  A scheduled callback may be run at any time that is not
    before its due time; nothing bounds how late. *)
Module Util.
Section Wrappers.
(** The receiver and the argument list of a call. *)
Context {C A : Type}.
Variable delay : Z.

Record scheduled := Scheduled {
  s_id : nat;
  s_due : Z;
  s_this : C;
  s_args : A
}.

(** The timer queue of the host.  Timer identifiers start at 1. *)
Record host := Host {
  clock : Z;
  pending : list scheduled;
  next_id : nat
}.

Definition host_init : host := Host 0 [] 1.

Definition setTimeout (hst : host) (this : C) (args : A) : host * nat :=
  (Host (clock hst)
        (pending hst ++ [Scheduled (next_id hst) (clock hst + delay) this args])
        (S (next_id hst)),
   next_id hst).

Definition clearTimeout (hst : host) (id : nat) : host :=
  Host (clock hst)
       (filter (fun s => s_id s ≠ id) (pending hst))
       (next_id hst).

Definition find_timer (hst : host) (id : nat) : option scheduled :=
  head (filter (fun s => s_id s = id) (pending hst)).

Definition advance (hst : host) (t : Z) : host :=
  Host t (pending hst) (next_id hst).

(** What happens to a wrapper: it is called, or the host runs a
    scheduled callback. *)
Inductive event :=
| Invoke (t : Z) (this : C) (args : A)
| Fire (t : Z) (id : nat).

(** One execution of the wrapped callback: when, on what, with what. *)
Definition execution : Type := Z * C * A.

(** *** debounce: the closure variable [timer] *)
Record debounced := Debounced {
  d_timer : option nat;
  d_host : host;
  d_executed : list execution
}.

Definition debounce : debounced := Debounced None host_init [].

(** [timer && clearTimeout(timer)] *)
Definition clearIfSet (timer : option nat) (hst : host) : host :=
  match timer with
  | Some (S id) => clearTimeout hst (S id)
  | _ => hst
  end.

Definition debounce_step (s : debounced) (e : event) : option debounced :=
  match e with
  | Invoke t this args =>
      if decide (clock (d_host s) ≤ t)%Z then
        let hst := clearIfSet (d_timer s) (advance (d_host s) t) in
        let '(hst', id) := setTimeout hst this args in
        Some (Debounced (Some id) hst' (d_executed s))
      else None
  | Fire t id =>
      match find_timer (d_host s) id with
      | Some sch =>
          if decide (clock (d_host s) ≤ t ∧ s_due sch ≤ t)%Z then
            Some (Debounced None
                    (clearTimeout (advance (d_host s) t) id)
                    (d_executed s ++ [(t, s_this sch, s_args sch)]))
          else None
      | None => None
      end
  end.

(** *** throttleAfter: the closure variable [ran] *)
Record throttledAfter := ThrottledAfter {
  ta_ran : bool;
  ta_host : host;
  ta_executed : list execution
}.

Definition throttleAfter : throttledAfter := ThrottledAfter false host_init [].

Definition throttleAfter_step (s : throttledAfter) (e : event) : option throttledAfter :=
  match e with
  | Invoke t this args =>
      if decide (clock (ta_host s) ≤ t)%Z then
        if ta_ran s then
          Some (ThrottledAfter true (advance (ta_host s) t) (ta_executed s))
        else
          let '(hst', _) := setTimeout (advance (ta_host s) t) this args in
          Some (ThrottledAfter true hst' (ta_executed s))
      else None
  | Fire t id =>
      match find_timer (ta_host s) id with
      | Some sch =>
          if decide (clock (ta_host s) ≤ t ∧ s_due sch ≤ t)%Z then
            Some (ThrottledAfter false
                    (clearTimeout (advance (ta_host s) t) id)
                    (ta_executed s ++ [(t, s_this sch, s_args sch)]))
          else None
      | None => None
      end
  end.

(** Running a wrapper through a sequence of events; [None] when an event
    cannot happen (time running backwards, a timer that is not due or not
    pending). *)
Fixpoint run {S : Type} (step : S -> event -> option S) (s : S) (evs : list event)
  : option S :=
  match evs with
  | [] => Some s
  | e :: evs' =>
      match step s e with
      | Some s' => run step s' evs'
      | None => None
      end
  end.

(** *** throttle: the closure variable [lastRunTick]

    A call reads [Date.now()] in the test and once more after the
    callback has returned. *)
Record throttled := Throttled {
  lastRunTick : Z;
  th_executed : list (C * A)
}.

Definition throttle : throttled := Throttled 0 [].

Record call := Call {
  c_now : Z;
  c_after : Z;
  c_this : C;
  c_args : A
}.

Definition throttle_call (s : throttled) (c : call) : throttled :=
  if bool_decide (lastRunTick s = 0%Z) || bool_decide (delay ≤ c_now c - lastRunTick s)%Z
  then Throttled (c_after c) (th_executed s ++ [(c_this c, c_args c)])
  else s.
(** *** Vocabulary of the specification *)

(** A call is accepted when it is the first one, or when [delay] has
    elapsed since the last accepted one. *)
Definition accepts (last : option Z) (now : Z) : bool :=
  match last with
  | None => true
  | Some t => bool_decide (delay ≤ now - t)%Z
  end.

(** The calls a throttle lets through: an accepted call restarts the
    window, a call inside the window is dropped. *)
Fixpoint throttle_accepted (last : option Z) (cs : list call) : list (C * A) :=
  match cs with
  | [] => []
  | c :: cs' =>
      if accepts last (c_now c)
      then (c_this c, c_args c) :: throttle_accepted (Some (c_after c)) cs'
      else throttle_accepted last cs'
  end.

(** The calls of a trace, in order. *)
Definition invocations (evs : list event) : list (Z * C * A) :=
  omap (fun e => match e with
                 | Invoke t this args => Some (t, this, args)
                 | Fire _ _ => None
                 end) evs.

(** Each call comes less than [delay] after the one before; [t] is the
    time of the call before the first of [calls]. *)
Fixpoint spaced (t : Z) (calls : list (Z * C * A)) : Prop :=
  match calls with
  | [] => True
  | (t', _, _) :: rest => (t' - t < delay)%Z ∧ spaced t' rest
  end.

(** The closure variable [lastRunTick] stands for the time of the last
    accepted call; 0 stands for "no call yet". *)
Definition tick_of (last : option Z) (s : throttled) : Prop :=
  match last with
  | None => lastRunTick s = 0%Z
  | Some t => lastRunTick s = t ∧ t ≠ 0%Z
  end.

Definition is_invoke (e : event) : Prop :=
  match e with Invoke _ _ _ => True | Fire _ _ => False end.
(** The last call of a chain that starts with the call [first]. *)
Definition last_call (first : Z * C * A) (later : list (Z * C * A)) : Z * C * A :=
  default first (last later).

(** A debounced function is idle, or remembers the one timer that is
    pending. *)
Definition debounce_idle (s : debounced) : Prop :=
  d_timer s = None ∧ pending (d_host s) = [].

Definition debounce_waiting (s : debounced) (sch : scheduled) : Prop :=
  d_timer s = Some (s_id sch) ∧ pending (d_host s) = [sch] ∧ s_id sch ≠ 0.

Definition debounce_inv (s : debounced) : Prop :=
  next_id (d_host s) ≠ 0 ∧ (debounce_idle s ∨ ∃ sch, debounce_waiting s sch).

(** A throttled-after function is between windows, or in a window whose
    one execution is pending. *)
Definition throttleAfter_inv (s : throttledAfter) : Prop :=
  if ta_ran s then ∃ sch, pending (ta_host s) = [sch]
  else pending (ta_host s) = [].
(** *** Vocabulary of the further properties *)

(** What a trace of calls and timer runs makes of a debounced function,
    told from the trace alone; [last] is the call that waits for its
    timer, if any.  A call replaces the one that waits; a timer run
    executes the one that waits. *)
Fixpoint debounce_executions (last : option (Z * C * A)) (evs : list event)
  : list execution :=
  match evs with
  | [] => []
  | Invoke t this args :: evs' => debounce_executions (Some (t, this, args)) evs'
  | Fire t _ :: evs' =>
      match last with
      | Some (_, this, args) => (t, this, args) :: debounce_executions None evs'
      | None => debounce_executions None evs'
      end
  end.

Fixpoint debounce_last (last : option (Z * C * A)) (evs : list event)
  : option (Z * C * A) :=
  match evs with
  | [] => last
  | Invoke t this args :: evs' => debounce_last (Some (t, this, args)) evs'
  | Fire _ _ :: evs' => debounce_last None evs'
  end.

(** Every timer run of the trace comes [delay] or more after the call
    before it, with no other timer run in between. *)
Fixpoint debounce_timely (last : option (Z * C * A)) (evs : list event) : Prop :=
  match evs with
  | [] => True
  | Invoke t this args :: evs' => debounce_timely (Some (t, this, args)) evs'
  | Fire t _ :: evs' =>
      match last with
      | Some (t0, _, _) => (t0 + delay ≤ t)%Z
      | None => False
      end ∧ debounce_timely None evs'
  end.

(** The same for a throttled-after function; [first] is the call that
    opened the window, if one is open.  A call in an open window is
    dropped. *)
Fixpoint throttleAfter_executions (first : option (Z * C * A)) (evs : list event)
  : list execution :=
  match evs with
  | [] => []
  | Invoke t this args :: evs' =>
      throttleAfter_executions
        (match first with Some c => Some c | None => Some (t, this, args) end) evs'
  | Fire t _ :: evs' =>
      match first with
      | Some (_, this, args) => (t, this, args) :: throttleAfter_executions None evs'
      | None => throttleAfter_executions None evs'
      end
  end.

Fixpoint throttleAfter_first (first : option (Z * C * A)) (evs : list event)
  : option (Z * C * A) :=
  match evs with
  | [] => first
  | Invoke t this args :: evs' =>
      throttleAfter_first
        (match first with Some c => Some c | None => Some (t, this, args) end) evs'
  | Fire _ _ :: evs' => throttleAfter_first None evs'
  end.

Fixpoint throttleAfter_timely (first : option (Z * C * A)) (evs : list event) : Prop :=
  match evs with
  | [] => True
  | Invoke t this args :: evs' =>
      throttleAfter_timely
        (match first with Some c => Some c | None => Some (t, this, args) end) evs'
  | Fire t _ :: evs' =>
      match first with
      | Some (t0, _, _) => (t0 + delay ≤ t)%Z
      | None => False
      end ∧ throttleAfter_timely None evs'
  end.

(** The timers that are pending for the call [c] that waits. *)
Definition pending_for (c : option (Z * C * A)) (ps : list scheduled) : Prop :=
  match c with
  | Some (t0, this, args) =>
      ∃ id, ps = [Scheduled id (t0 + delay) this args]
  | None => ps = []
  end.

(** The clock never reads less than it read before: each call of the
    throttled function tests a reading that is not before the one the
    call before it stored. *)
Fixpoint clock_ordered (cs : list call) : Prop :=
  match cs with
  | c :: (c' :: _) as cs' => (c_after c ≤ c_now c')%Z ∧ clock_ordered cs'
  | _ => True
  end.

End Wrappers.
End Util.

(** ** Vocabulary of the specification *)

(** The prototypes a chain walk visits from [start] on, the root object
    prototype excluded. *)
Fixpoint proto_chain (n : nat) (h : heap) (start : option loc) : list loc :=
  match n, start with
  | S n', Some p =>
      if decide (p = ObjectPrototype) then []
      else p :: proto_chain n' h (getPrototypeOf h p)
  | _, _ => []
  end.

(** The names of [l] that are not in [seen], each at its first occurrence. *)
Fixpoint first_seen (seen : gset string) (l : list string) : list string :=
  match l with
  | [] => []
  | x :: l' =>
      if decide (x ∈ seen) then first_seen seen l'
      else x :: first_seen ({[x]} ∪ seen) l'
  end.

(** The own names of the levels [ls], nearest level first. *)
Definition names_of_levels (h : heap) (ls : list loc) : list string :=
  concat (map (getOwnPropertyNames h) ls).



(** [preserves h h']: [h'] is [h] with new objects and arrays added; nothing
    that was in [h] has changed. *)
Definition preserves (h h' : heap) : Prop :=
  length (objs h) ≤ length (objs h') ∧
  (∀ l, l < length (objs h) → objs h' !! l = objs h !! l) ∧
  arrs h `prefix_of` arrs h'.

(** [frame t h h']: as [preserves], but for the properties of the object
    [t]. *)
Definition frame (t : loc) (h h' : heap) : Prop :=
  length (objs h) ≤ length (objs h') ∧
  (∀ l, l < length (objs h) → l ≠ t → objs h' !! l = objs h !! l) ∧
  (t < length (objs h) →
   proto (get_obj h' t) = proto (get_obj h t) ∧
   cls (get_obj h' t) = cls (get_obj h t) ∧
   extensible (get_obj h' t) = extensible (get_obj h t)) ∧
  arrs h `prefix_of` arrs h'.

(** The object [copy] writes to, when it is not a new one. *)
Definition given_target (kwArgs : CopyArgs) : option loc :=
  if assignPrototype kwArgs then None else target kwArgs.

(** What a call of [copy] leaves of the store: it writes to the target it
    was given and to nothing else, or it returns a new object. *)
Definition copy_frames (copy_rec : heap -> CopyArgs -> result (heap * loc)) : Prop :=
  ∀ h kwArgs h' t, copy_rec h kwArgs = Ok (h', t) →
    match given_target kwArgs with
    | Some t0 => t = t0 ∧ frame t0 h h'
    | None => length (objs h) ≤ t ∧ t < length (objs h') ∧ preserves h h'
    end.

Definition copyArray_frames
    (copyArray_rec : heap -> aloc -> CopyArgs -> result (heap * aloc)) : Prop :=
  ∀ h array kwArgs h' a', copyArray_rec h array kwArgs = Ok (h', a') →
    preserves h h' ∧ length (arrs h) ≤ a' ∧ a' < length (arrs h').

(** [reach h v w]: the value [w] is [v], or is found from [v] through
    property values and array elements. *)
Inductive reach (h : heap) : val -> val -> Prop :=
| reach_here v : reach h v v
| reach_prop l name d w :
    (name, d) ∈ props (get_obj h l) ->
    reach h (d_value d) w ->
    reach h (VObj l) w
| reach_item a item w :
    item ∈ get_arr h a ->
    reach h item w ->
    reach h (VArr a) w.

(** The calls [copy] makes one frame down never report an empty list of
    sources: they pass exactly one. *)
Definition no_range_error {A B} (rec : heap -> A -> CopyArgs -> result B) : Prop :=
  ∀ h a kwArgs, rec h a kwArgs ≠ Throw RangeError.

Definition range_error_empty (copy_rec : heap -> CopyArgs -> result (heap * loc)) : Prop :=
  ∀ h kwArgs, copy_rec h kwArgs = Throw RangeError → sources kwArgs = [].

(** The objects a chain walk of at most [n] steps from [l] visits. *)
Fixpoint ancestors (n : nat) (h : heap) (l : loc) : list loc :=
  match n with
  | 0 => []
  | S n' =>
      l :: match getPrototypeOf h l with
           | Some p => ancestors n' h p
           | None => []
           end
  end.

(** References that point into a store of [N] objects and [M] arrays. *)
Definition val_ok (N M : nat) (v : val) : Prop :=
  match v with
  | VObj l => l < N
  | VArr a => a < M
  | _ => True
  end.

Definition desc_ok (N M : nat) (d : descriptor) : Prop :=
  match d with
  | Data v _ _ _ => val_ok N M v
  | Accessor g s _ _ => val_ok N M g ∧ val_ok N M s
  end.

(** An object is numbered after its prototype, its property names are
    distinct, and what it refers to exists. *)
Definition wf_object (N M : nat) (l : loc) (o : object) : Prop :=
  match proto o with Some p => p < l | None => True end ∧
  match cls o with CFunction ret => val_ok N M ret | _ => True end ∧
  NoDup (props o).*1 ∧
  Forall (fun kd => desc_ok N M kd.2) (props o).

(** A well-formed store: [Object.prototype] exists, every object is well
    formed and the elements of every array exist. *)
Definition wf_heap (h : heap) : Prop :=
  0 < length (objs h) ∧
  (∀ l, l < length (objs h) →
        wf_object (length (objs h)) (length (arrs h)) l (get_obj h l)) ∧
  (∀ a, a < length (arrs h) →
        Forall (val_ok (length (objs h)) (length (arrs h))) (get_arr h a)).

(** The names [copy] takes from a source, and the descriptor it carries
    over for a name: the one it reads with [descriptors], the plain value
    [source[name]] without. *)
Definition copied_names (kwArgs : CopyArgs) (h : heap) (source : loc) : list string :=
  if descriptors kwArgs then
    (if inherited kwArgs then getPropertyNames else getOwnPropertyNames) h source
  else
    filter (fun name => inherited kwArgs || hasOwnProperty h source name = true)
           (forInKeys (S source) h source []).

Definition source_descriptor (kwArgs : CopyArgs) (h : heap) (source : loc)
    (name : string) : option descriptor :=
  if descriptors kwArgs then
    (if inherited kwArgs then getPropertyDescriptor else getOwnPropertyDescriptor)
      h source name
  else Some (Data (get h source name) true true true).

(** What the target receives for the source value [v]: with [deep], a new
    array for an array and a new object for what [isObject] accepts; in
    every other case [v] itself.  New means outside the [N] objects and
    [M] arrays of the store the call started from. *)
Definition transferred (deep : bool) (N M : nat) (h : heap) (v v' : val) : Prop :=
  match v with
  | VArr a => if deep then ∃ a', v' = VArr a' ∧ M ≤ a' else v' = v
  | VObj l => if deep && isObject h v then ∃ l', v' = VObj l' ∧ N ≤ l' else v' = v
  | _ => v' = v
  end.

Definition is_accessor (d : option descriptor) : bool :=
  match d with
  | Some (Accessor _ _ _ _) => true
  | _ => false
  end.

(** What a call of [copy] keeps of a well-formed store, given sources and
    a target that exist. *)
Definition copy_keeps_wf (copy_rec : heap -> CopyArgs -> result (heap * loc)) : Prop :=
  ∀ h kwArgs h' t, copy_rec h kwArgs = Ok (h', t) →
    wf_heap h →
    Forall (fun s => s < length (objs h)) (sources kwArgs) →
    (∀ t0, given_target kwArgs = Some t0 → t0 < length (objs h)) →
    wf_heap h'.

Definition copyArray_keeps_wf
    (copyArray_rec : heap -> aloc -> CopyArgs -> result (heap * aloc)) : Prop :=
  ∀ h array kwArgs h' a', copyArray_rec h array kwArgs = Ok (h', a') →
    wf_heap h → array < length (arrs h) → wf_heap h'.

(** An assignment [target[name] = value] is handed to a setter, and stores
    nothing, when [name] resolves on the target to an accessor property. *)
Definition intercepted (h : heap) (t : loc) (name : string) : bool :=
  is_accessor (lookup_chain (S t) h t name).

(** The attributes of the property an assignment writes: those of the data
    property that was there, or the ones of a property made by
    assignment. *)
Definition kept_attrs (d0 : option descriptor) : bool * bool * bool :=
  match d0 with
  | Some (Data _ w e c) => (w, e, c)
  | _ => (true, true, true)
  end.

(** [received kwArgs N M h t name d d']: the target's property [d'] is what
    [copy] makes of the descriptor [d] carried over from a source. *)
Definition received (kwArgs : CopyArgs) (N M : nat) (h : heap) (t : loc)
    (name : string) (d d' : descriptor) : Prop :=
  ∃ v', transferred (deep kwArgs) N M h (d_value d) v' ∧
        if descriptors kwArgs then d' = d_set_value d v'
        else let '(w, e, c) := kept_attrs (getOwnPropertyDescriptor h t name) in
             d' = Data v' w e c.

(** While [copy] assigns to the target [t], a property of [t] is as it was
    in [h0], or it is a data property written by an assignment that no
    setter took. *)
Definition own_inv (h0 : heap) (t : loc) (h : heap) : Prop :=
  ∀ name,
    getOwnPropertyDescriptor h t name = getOwnPropertyDescriptor h0 t name ∨
    (intercepted h0 t name = false ∧
     ∃ v, let '(w, e, c) := kept_attrs (getOwnPropertyDescriptor h0 t name) in
          getOwnPropertyDescriptor h t name = Some (Data v w e c)).

(** A target that takes every assignment: it is extensible and every
    property found on its chain is a writable data property. *)
Definition accepts_assignments (h : heap) (t : loc) : Prop :=
  extensible (get_obj h t) = true ∧
  ∀ name d, lookup_chain (S t) h t name = Some d → ∃ v e c, d = Data v true e c.

(** Well-formedness as a check that runs. *)
Definition val_okb (N M : nat) (v : val) : bool :=
  match v with
  | VObj l => bool_decide (l < N)
  | VArr a => bool_decide (a < M)
  | _ => true
  end.

Definition desc_okb (N M : nat) (d : descriptor) : bool :=
  match d with
  | Data v _ _ _ => val_okb N M v
  | Accessor g s _ _ => val_okb N M g && val_okb N M s
  end.

Definition wf_objectb (N M : nat) (l : loc) (o : object) : bool :=
  match proto o with Some p => bool_decide (p < l) | None => true end &&
  match cls o with CFunction ret => val_okb N M ret | _ => true end &&
  bool_decide (NoDup (props o).*1) &&
  forallb (fun kd => desc_okb N M kd.2) (props o).

Definition wf_heapb (h : heap) : bool :=
  let N := length (objs h) in
  let M := length (arrs h) in
  bool_decide (0 < N) &&
  forallb (fun l => wf_objectb N M l (get_obj h l)) (seq 0 N) &&
  forallb (fun a => forallb (val_okb N M) (get_arr h a)) (seq 0 M).

(** The prototype of the object a call of [copy] on the source [l] makes. *)
Definition new_proto (kwArgs : CopyArgs) (h : heap) (l : loc) : option loc :=
  if assignPrototype kwArgs then getPrototypeOf h l else Some ObjectPrototype.

(** A new object whose prototype is [p] takes the assignment of [name]:
    nothing on the chain of [p] is a read-only property or an accessor of
    that name. *)
Definition takes (h : heap) (p : option loc) (name : string) : Prop :=
  match p with
  | Some q =>
      match lookup_chain (S q) h q name with
      | Some (Data _ w _ _) => w = true
      | Some (Accessor _ _ _ _) => False
      | None => True
      end
  | None => True
  end.

(** The property a new target gets for the descriptor [d] carried over
    with the value [v']. *)
Definition written (kwArgs : CopyArgs) (d : descriptor) (v' : val) : descriptor :=
  if descriptors kwArgs then d_set_value d v' else Data v' true true true.

(** [copyable n kwArgs h v]: the value [v] nests objects and arrays at
    most [n] deep -- it has no circular reference -- and the objects [copy]
    makes for it take the assignments ([descriptors] off). *)
Definition props_copyable (P : val -> Prop) (kwArgs : CopyArgs) (h : heap) (l : loc)
  : Prop :=
  Forall (fun name =>
            match source_descriptor kwArgs h l name with
            | Some d =>
                (descriptors kwArgs = false → takes h (new_proto kwArgs h l) name) ∧
                (deep kwArgs = true → P (d_value d))
            | None => False
            end)
         (copied_names kwArgs h l).

Fixpoint copyable (n : nat) (kwArgs : CopyArgs) (h : heap) (v : val) : Prop :=
  match v with
  | VObj l =>
      isObject h v = true →
      match n with
      | 0 => False
      | S n' => props_copyable (copyable n' kwArgs h) kwArgs h l
      end
  | VArr a =>
      match n with
      | 0 => False
      | S n' => Forall (copyable n' kwArgs h) (get_arr h a)
      end
  | _ => True
  end.

(** [clone n kwArgs L LM h h' v v']: in the store [h'], [v'] is the copy of
    the value [v] of the store [h]: [v] itself when [v] is neither an array
    nor what [isObject] accepts; else a new array (at or after [LM]) of the
    copies of the elements, or a new object (at or after [L]) that has, for
    each name [copy] takes from [v], the property carried over, with the
    copy of its value, and no other property. *)
Definition clone_props (V : val -> val -> Prop) (kwArgs : CopyArgs) (h h' : heap)
    (l l' : loc) : Prop :=
  proto (get_obj h' l') = new_proto kwArgs h l ∧
  cls (get_obj h' l') = CObject ∧
  ∀ name,
    match (if decide (name ∈ copied_names kwArgs h l)
           then source_descriptor kwArgs h l name else None) with
    | Some d =>
        ∃ v', getOwnPropertyDescriptor h' l' name = Some (written kwArgs d v') ∧
              if deep kwArgs then V (d_value d) v' else v' = d_value d
    | None => getOwnPropertyDescriptor h' l' name = None
    end.

Fixpoint clone (n : nat) (kwArgs : CopyArgs) (L LM : nat) (h h' : heap) (v v' : val)
  : Prop :=
  match v with
  | VObj l =>
      if isObject h v then
        ∃ l', v' = VObj l' ∧ L ≤ l' ∧ l' < length (objs h') ∧
              match n with
              | 0 => False
              | S n' => clone_props (clone n' kwArgs L LM h h') kwArgs h h' l l'
              end
      else v' = v
  | VArr a =>
      ∃ a', v' = VArr a' ∧ LM ≤ a' ∧ a' < length (arrs h') ∧
            match n with
            | 0 => False
            | S n' => Forall2 (clone n' kwArgs L LM h h') (get_arr h a) (get_arr h' a')
            end
  | _ => v' = v
  end.

(** The arguments of the call [copy] makes for a nested object [l]. *)
Definition nested (kwArgs : CopyArgs) (l : loc) : CopyArgs :=
  {| sources := [l];
     deep := deep kwArgs;
     descriptors := descriptors kwArgs;
     inherited := inherited kwArgs;
     assignPrototype := assignPrototype kwArgs;
     target := None |}.

(** The four switches of a CopySpec. *)
Definition flags (kwArgs : CopyArgs) : CopyArgs :=
  {| sources := [];
     deep := deep kwArgs;
     descriptors := descriptors kwArgs;
     inherited := inherited kwArgs;
     assignPrototype := assignPrototype kwArgs;
     target := None |}.

(** What the calls one frame down give, for values that nest at most [n]
    deep: they return, and what they return is the copy. *)
Definition copy_clones (n : nat)
    (copy_rec : heap -> CopyArgs -> result (heap * loc)) : Prop :=
  ∀ hi kwArgs c,
    wf_heap hi → c < length (objs hi) → isObject hi (VObj c) = true →
    sources kwArgs = [c] → given_target kwArgs = None →
    copyable n (flags kwArgs) hi (VObj c) →
    ∃ h' l', copy_rec hi kwArgs = Ok (h', l') ∧
             clone n (flags kwArgs) (length (objs hi)) (length (arrs hi))
                   hi h' (VObj c) (VObj l').

Definition copyArray_clones (n : nat)
    (copyArray_rec : heap -> aloc -> CopyArgs -> result (heap * aloc)) : Prop :=
  ∀ hi kwArgs a,
    wf_heap hi → a < length (arrs hi) →
    copyable n (flags kwArgs) hi (VArr a) →
    ∃ h' a', copyArray_rec hi a kwArgs = Ok (h', a') ∧
             clone n (flags kwArgs) (length (objs hi)) (length (arrs hi))
                   hi h' (VArr a) (VArr a').

(** The new target [t] of a call of [copy] on the source [l] of the store
    [h], while the call runs: the store is well formed and has only grown,
    and [t] is as it was made, an extensible object with the prototype the
    call chose. *)
Definition target_inv (kwArgs : CopyArgs) (h : heap) (l t : loc) (hi : heap) : Prop :=
  wf_heap hi ∧ preserves h hi ∧ t < length (objs hi) ∧
  extensible (get_obj hi t) = true ∧
  cls (get_obj hi t) = CObject ∧
  getPrototypeOf hi t = new_proto kwArgs h l.

(** The property [name] of the target [t], in the store [h'] that [copy]
    returns, is the source's descriptor [d] transferred: an accessor as it
    is; a data property with its attributes, holding the source's value
    (or, with [deep], the new copy of it), readable, and left out of key
    enumeration when it is not enumerable. *)
Definition descriptor_transferred (kwArgs : CopyArgs) (h h' : heap) (t : loc)
    (name : string) (d : descriptor) : Prop :=
  match d with
  | Accessor g s e c =>
      getOwnPropertyDescriptor h' t name = Some (Accessor g s e c)
  | Data v w e c =>
      ∃ v', getOwnPropertyDescriptor h' t name = Some (Data v' w e c) ∧
            transferred (deep kwArgs) (length (objs h)) (length (arrs h)) h v v' ∧
            get h' t name = v' ∧
            (e = false → name ∉ forInKeys (S t) h' t [])
  end.


(** The object of the unit test of [duplicate]: made from the prototype
    [{ a: 1 }] (address 1) with the properties [b], [c] and [d] defined
    non-enumerable, non-writable and non-configurable, [d] holding the
    object [{ e: 4 }] (address 2); the object itself is at address 3. *)
Definition duplicate_fixture : heap :=
  let hidden v := Data v false false false in
  Heap [Object None CObject true [];
        Object (Some 0) CObject true [("a", Data (VNum 1) true true true)];
        Object (Some 0) CObject true [("e", Data (VNum 4) true true true)];
        Object (Some 1) CObject true
          [("b", hidden (VNum 2)); ("c", hidden (VNum 3)); ("d", hidden (VObj 2))]]
       [].

(** A source in the manner of the unit tests of [descriptors]: at address
    3, with a property [foo] backed by the getter function at address 1, a
    property [hidden] that is not enumerable, not writable and not
    configurable, and a property [d] holding the object [{ e: 4 }] of
    address 2. *)
Definition descriptors_fixture : heap :=
  Heap [Object None CObject true [];
        Object (Some 0) (CFunction (VStr "bar")) true [];
        Object (Some 0) CObject true [("e", Data (VNum 4) true true true)];
        Object (Some 0) CObject true
          [("foo", Accessor (VObj 1) VUndefined true true);
           ("hidden", Data (VNum 2) false false false);
           ("d", Data (VObj 2) true true true)]]
       [].

(** A source for deep copies, at address 4: [a] holds the object
    [{ b: 1 }] of address 1, [f] a function (address 2), [r] a regular
    expression (address 3), [xs] the array [[1, a]] and [n] a number. *)
Definition deep_fixture : heap :=
  Heap [Object None CObject true [];
        Object (Some 0) CObject true [("b", Data (VNum 1) true true true)];
        Object (Some 0) (CFunction VUndefined) true [];
        Object (Some 0) CRegExp true [];
        Object (Some 0) CObject true
          [("a", Data (VObj 1) true true true);
           ("f", Data (VObj 2) true true true);
           ("r", Data (VObj 3) true true true);
           ("xs", Data (VArr 0) true true true);
           ("n", Data (VNum 5) true true true)]]
       [[VNum 1; VObj 1]].

(** ** Vocabulary of the further properties *)

(** The descriptor of [name] on the first of the objects [ls] that has the
    property as its own. *)
Definition nearest_owner (h : heap) (ls : list loc) (name : string)
  : option descriptor :=
  head (omap (fun c => getOwnPropertyDescriptor h c name) ls).

(** The call [fn.apply(this, args)] a closure ends in: the callee, the
    receiver and the argument list. *)
Record applied := Applied {
  ap_callee : val;
  ap_this : val;
  ap_args : list val
}.

(** The closure [lateBind] returns, called with [arguments] in the store
    [h]: [instance[method].apply(instance, args)].  The closure has no use
    for its own receiver. *)
Definition lateBind_call (h : heap) (f : lateBound) (arguments : list val) : applied :=
  Applied (get h (lb_instance f) (lb_method f))
          (VObj (lb_instance f))
          (lateBind_args f arguments).

(** The closure [partial] returns, called on [this] with [arguments]:
    [targetFunction.apply(this, args)]. *)
Definition partial_call (f : partiallyApplied) (this : val) (arguments : list val)
  : applied :=
  Applied (pa_targetFunction f) this (partial_args f arguments).

(** The objects of the unit test of [getPropertyDescriptor]: [object1]
    (address 3) with the getter [foo]; [object2] (address 4) made from
    [object1] with no property of its own; [object3] (address 5) made from
    [object1] with a getter [foo] of its own. *)
Definition getPropertyDescriptor_fixture : heap :=
  Heap [Object None CObject true [];
        Object (Some 0) (CFunction (VStr "bar")) true [];
        Object (Some 0) (CFunction (VStr "baz")) true [];
        Object (Some 0) CObject true [("foo", Accessor (VObj 1) VUndefined true true)];
        Object (Some 3) CObject true [];
        Object (Some 3) CObject true [("foo", Accessor (VObj 2) VUndefined false false)]]
       [].

(** Every property found from [p] on, along its chain, is a writable data
    property: no read-only property and no accessor stands in the way of
    an assignment to an object made from [p]. *)
Definition assignable_chain (h : heap) (p : loc) : Prop :=
  ∀ name d, lookup_chain (S p) h p name = Some d → ∃ v e c, d = Data v true e c.

(** [name] is an enumerable own property of [s]. *)
Definition own_enumerable (h : heap) (s : loc) (name : string) : Prop :=
  ∃ d, getOwnPropertyDescriptor h s name = Some d ∧ d_enumerable d = true.

(** The [kwArgs] that [create] passes to [copy], but for the target. *)
Definition create_flags : CopyArgs :=
  {| assignPrototype := false; deep := false; descriptors := false;
     inherited := false; target := None; sources := [] |}.

(** The objects of the unit test of [create]: the prototype [{ a: 1 }]
    (address 1); the prototype of the mixin, [{ lorem: 'ipsum' }] (address
    2); the object [{ c: 2 }] (address 3); the mixin (address 4) with [b]
    holding that object, a read-only [d] and a property [e] that is not
    enumerable. *)
Definition create_fixture : heap :=
  Heap [Object None CObject true [];
        Object (Some 0) CObject true [("a", Data (VNum 1) true true true)];
        Object (Some 0) CObject true [("lorem", Data (VStr "ipsum") true true true)];
        Object (Some 0) CObject true [("c", Data (VNum 2) true true true)];
        Object (Some 2) CObject true
          [("b", Data (VObj 3) true true true);
           ("d", Data (VNum 3) false true true);
           ("e", Data (VNum 4) false false false)]]
       [].

(** A source (address 3) whose property [when] holds a [Date] (address 2,
    made from the [Date] prototype of address 1). *)
Definition date_fixture : heap :=
  Heap [Object None CObject true [];
        Object (Some 0) CObject true [];
        Object (Some 1) CDate true [];
        Object (Some 0) CObject true [("when", Data (VObj 2) true true true)]]
       [].

(** [kwArgs] with another list of sources. *)
Definition with_sources (kwArgs : CopyArgs) (srcs : list loc) : CopyArgs :=
  {| deep := deep kwArgs;
     descriptors := descriptors kwArgs;
     inherited := inherited kwArgs;
     assignPrototype := assignPrototype kwArgs;
     target := target kwArgs;
     sources := srcs |}.

(** A frozen target (address 1) holding [a: 1], and a source (address 2)
    with [a: 2] and [b: 3]. *)
Definition frozen_fixture : heap :=
  Heap [Object None CObject true [];
        Object (Some 0) CObject false [("a", Data (VNum 1) false true false)];
        Object (Some 0) CObject true
          [("b", Data (VNum 3) true true true); ("a", Data (VNum 2) true true true)]]
       [].

(** * Properties *)

(** ** getPropertyNames *)

Lemma first_seen_app seen l1 l2 :
  first_seen seen (l1 ++ l2) =
  first_seen seen l1 ++ first_seen (list_to_set l1 ∪ seen) l2.
Proof.
  revert seen; induction l1 as [|x l1 IH]; intros seen; simpl.
  - f_equal. set_solver.
  - destruct (decide (x ∈ seen)) as [Hin|Hin].
    + rewrite IH. do 2 f_equal. set_solver.
    + simpl. rewrite IH. do 3 f_equal. set_solver.
Qed.

Lemma elem_of_first_seen seen l x :
  x ∈ first_seen seen l ↔ x ∈ l ∧ x ∉ seen.
Proof.
  revert seen; induction l as [|y l IH]; intros seen; simpl.
  - set_solver.
  - destruct (decide (y ∈ seen)) as [Hin|Hin].
    + rewrite IH. set_solver.
    + rewrite elem_of_cons, IH. destruct (decide (x = y)); set_solver.
Qed.

Lemma NoDup_first_seen seen l : NoDup (first_seen seen l).
Proof.
  revert seen; induction l as [|y l IH]; intros seen; simpl.
  - constructor.
  - destruct (decide (y ∈ seen)); [apply IH|].
    constructor; [|apply IH].
    rewrite elem_of_first_seen. set_solver.
Qed.

Lemma addNames_first_seen ownNames setOfNames names :
  addNames ownNames (setOfNames, names) =
  (list_to_set ownNames ∪ setOfNames, names ++ first_seen setOfNames ownNames).
Proof.
  unfold addNames.
  revert setOfNames names; induction ownNames as [|x l IH]; intros s ns; simpl.
  - f_equal; [set_solver | by rewrite app_nil_r].
  - destruct (decide (x ∈ s)) as [Hin|Hin]; simpl.
    + rewrite IH. f_equal. set_solver.
    + rewrite IH. f_equal; [set_solver | by rewrite <- app_assoc].
Qed.

Lemma getPropertyNames_loop_S n h object acc :
  getPropertyNames_loop (S n) h object acc =
  match getPrototypeOf h object with
  | Some p =>
      if decide (p = ObjectPrototype)
      then (addNames (getOwnPropertyNames h object) acc).2
      else getPropertyNames_loop n h p (addNames (getOwnPropertyNames h object) acc)
  | None => (addNames (getOwnPropertyNames h object) acc).2
  end.
Proof. reflexivity. Qed.

Lemma getPropertyNames_loop_spec n h object setOfNames names :
  getPropertyNames_loop (S n) h object (setOfNames, names) =
  names ++ first_seen setOfNames
             (names_of_levels h (object :: proto_chain n h (getPrototypeOf h object))).
Proof.
  revert object setOfNames names; induction n as [|n IH]; intros o s ns;
    rewrite getPropertyNames_loop_S, addNames_first_seen; unfold names_of_levels.
  - destruct (getPrototypeOf h o) as [p|]; simpl; [destruct (decide _)|];
      simpl; by rewrite ?app_nil_r.
  - destruct (getPrototypeOf h o) as [p|] eqn:Hp.
    + cbn [proto_chain]. destruct (decide (p = ObjectPrototype)) as [->|Hne].
      * simpl. by rewrite app_nil_r.
      * rewrite IH. unfold names_of_levels. cbn [map concat].
        rewrite !first_seen_app, <- !app_assoc. done.
    + simpl. by rewrite app_nil_r.
Qed.



(** ** The timing wrappers *)
Module UtilProps.
Import Util.
Section Wrappers.
Context {C A : Type}.
Variable delay : Z.

Lemma throttle_call_accepts last (s : @throttled C A) (c : @call C A) :
  tick_of last s ->
  throttle_call delay s c =
  if accepts delay last (c_now c)
  then Throttled (c_after c) (th_executed s ++ [(c_this c, c_args c)])
  else s.
Proof.
  unfold throttle_call, tick_of, accepts.
  destruct last as [t|].
  - intros [-> Hne]. rewrite (bool_decide_eq_false_2 _ Hne). done.
  - intros ->. by rewrite bool_decide_eq_true_2.
Qed.

Lemma throttle_run_accepts last (s : @throttled C A) (cs : list (@call C A)) :
  tick_of last s ->
  Forall (fun c => c_after c ≠ 0%Z) cs ->
  th_executed (foldl (throttle_call delay) s cs) =
  th_executed s ++ throttle_accepted delay last cs.
Proof.
  intros Hs Hcs. revert last s Hs.
  induction Hcs as [|c cs Hc _ IH]; intros last s Hs; simpl.
  - by rewrite app_nil_r.
  - rewrite (throttle_call_accepts last) by done.
    destruct (accepts delay last (c_now c)).
    + rewrite (IH (Some (c_after c))) by done. simpl.
      by rewrite <- app_assoc.
    + by apply IH.
Qed.

(** C7: the function returned by [throttle] runs the callback on its
    first call, drops every call made before [delay] has elapsed since
    the last accepted call, and runs the first call made at or after that
    and restarts the window from it.  The clock is the host's
    [Date.now()], milliseconds since the epoch, which is never 0. *)
Theorem throttle_accepts (cs : list (@call C A)) :
  Forall (fun c => c_after c ≠ 0%Z) cs ->
  th_executed (foldl (throttle_call delay) throttle cs) =
  throttle_accepted delay None cs.
Proof.
  intros Hcs. by rewrite (throttle_run_accepts None).
Qed.

(** *** debounce *)

Lemma last_call_cons (first x : Z * C * A) later :
  last_call first (x :: later) = last_call x later.
Proof.
  unfold last_call. rewrite last_cons. by destruct (last later).
Qed.

Lemma find_timer_single (hst : @host C A) sch id :
  pending hst = [sch] ->
  find_timer hst id = if decide (s_id sch = id) then Some sch else None.
Proof.
  unfold find_timer. intros ->. cbn. by destruct (decide (s_id sch = id)).
Qed.

Lemma clearTimeout_single (hst : @host C A) sch :
  pending hst = [sch] ->
  clearTimeout hst (s_id sch) = Host (clock hst) [] (next_id hst).
Proof.
  unfold clearTimeout. intros ->. cbn.
  by destruct (decide (s_id sch ≠ s_id sch)).
Qed.

Lemma clearIfSet_inv (s : @debounced C A) t :
  debounce_inv s ->
  clearIfSet (d_timer s) (advance (d_host s) t) =
  Host t [] (next_id (d_host s)).
Proof.
  intros [_ [[Ht Hp]|[sch (Ht & Hp & Hid)]]]; rewrite Ht; cbn.
  - unfold advance. by rewrite Hp.
  - destruct (s_id sch) as [|n] eqn:Hn; [done|].
    rewrite <- Hn. by rewrite (clearTimeout_single _ sch).
Qed.

Lemma debounce_step_invoke (s s' : @debounced C A) t this args :
  debounce_inv s ->
  debounce_step delay s (Invoke t this args) = Some s' ->
  (clock (d_host s) ≤ t)%Z ∧
  s' = Debounced (Some (next_id (d_host s)))
         (Host t [Scheduled (next_id (d_host s)) (t + delay) this args]
               (S (next_id (d_host s))))
         (d_executed s).
Proof.
  intros Hinv. cbn. destruct (decide _) as [Hle|]; [|done].
  rewrite clearIfSet_inv by done. cbn. intros [= <-]. done.
Qed.

Lemma debounce_step_fire_waiting (s : @debounced C A) sch t id :
  debounce_waiting s sch ->
  debounce_step delay s (Fire t id) =
  if decide (s_id sch = id ∧ (clock (d_host s) ≤ t)%Z ∧ (s_due sch ≤ t)%Z)
  then Some (Debounced None (Host t [] (next_id (d_host s)))
               (d_executed s ++ [(t, s_this sch, s_args sch)]))
  else None.
Proof.
  intros (Ht & Hp & Hid). cbn. rewrite (find_timer_single _ sch) by done.
  destruct (decide (s_id sch = id)) as [<-|Hne].
  - destruct (decide (_ ∧ _)) as [[H1 H2]|Hn].
    + rewrite decide_True by done.
      by rewrite (clearTimeout_single _ sch).
    + rewrite decide_False; [done|]. intros (_ & H1 & H2). by apply Hn.
  - rewrite decide_False; [done|]. by intros [? _].
Qed.

Lemma debounce_step_fire_idle (s : @debounced C A) t id :
  debounce_idle s -> debounce_step delay s (Fire t id) = None.
Proof.
  intros [_ Hp]. cbn. unfold find_timer. by rewrite Hp.
Qed.

Lemma debounce_step_inv (s s' : @debounced C A) e :
  debounce_inv s -> debounce_step delay s e = Some s' -> debounce_inv s'.
Proof.
  intros Hinv Hstep. destruct e as [t this args|t id].
  - apply debounce_step_invoke in Hstep as [_ ->]; [|done].
    destruct Hinv as [Hn _]. split; [done|]. right.
    by exists (Scheduled (next_id (d_host s)) (t + delay) this args).
  - destruct Hinv as [Hn [Hidle|[sch Hw]]].
    + by rewrite debounce_step_fire_idle in Hstep.
    + rewrite (debounce_step_fire_waiting _ sch) in Hstep by done.
      destruct (decide _); [|done]. injection Hstep as <-.
      split; [done|]. by left.
Qed.

Lemma debounce_run_inv (s s' : @debounced C A) evs :
  debounce_inv s -> run (debounce_step delay) s evs = Some s' -> debounce_inv s'.
Proof.
  revert s; induction evs as [|e evs IH]; intros s Hinv; cbn.
  - by intros [= <-].
  - destruct (debounce_step delay s e) as [s1|] eqn:Hstep; [|done].
    apply IH. by eapply debounce_step_inv.
Qed.

Lemma debounce_reachable_inv evs0 (s : @debounced C A) :
  run (debounce_step delay) debounce evs0 = Some s -> debounce_inv s.
Proof.
  apply debounce_run_inv. split; [done|]. by left.
Qed.

Lemma invocations_invoke t (this : C) (args : A) evs :
  invocations (Invoke t this args :: evs) = (t, this, args) :: invocations evs.
Proof. reflexivity. Qed.

Lemma invocations_fire t id (evs : list (@event C A)) :
  invocations (Fire t id :: evs) = invocations evs.
Proof. reflexivity. Qed.

Lemma debounce_chain_from evs : ∀ id t this args nxt ex (s' : @debounced C A) tN cN aN,
  id ≠ 0 -> nxt ≠ 0 ->
  run (debounce_step delay)
      (Debounced (Some id) (Host t [Scheduled id (t + delay) this args] nxt) ex)
      evs = Some s' ->
  spaced delay t (invocations evs) ->
  last_call (t, this, args) (invocations evs) = (tN, cN, aN) ->
  (∃ id' nxt', id' ≠ 0 ∧
     s' = Debounced (Some id')
            (Host tN [Scheduled id' (tN + delay) cN aN] nxt') ex) ∨
  (∃ tf nxt', (tN + delay ≤ tf)%Z ∧
     s' = Debounced None (Host tf [] nxt') (ex ++ [(tf, cN, aN)])).
Proof.
  induction evs as [|e evs IH]; intros id t this args nxt ex s' tN cN aN Hid Hnxt.
  - cbn. intros [= <-] _ [= <- <- <-]. left. eauto.
  - set (s := Debounced _ _ _).
    assert (Hw : debounce_waiting s (Scheduled id (t + delay) this args)) by done.
    assert (Hinv : debounce_inv s) by (split; [done|right; eauto]).
    cbn [run]. destruct (debounce_step delay s e) as [s1|] eqn:Hstep; [|done].
    destruct e as [t' this' args'|tf id0].
    + apply debounce_step_invoke in Hstep as [Hle ->]; [|done].
      rewrite invocations_invoke, last_call_cons. intros Hrun [Hlt Hsp] Hlast.
      subst s. cbn [d_host d_executed next_id] in Hrun.
      eapply (IH _ _ _ _ _ _ _ _ _ _ Hnxt (Nat.neq_succ_0 _) Hrun); eauto.
    + rewrite (debounce_step_fire_waiting _ _ _ _ Hw) in Hstep.
      destruct (decide _) as [(_ & Hclk & Hdue)|]; [|done].
      injection Hstep as <-. cbn in Hclk, Hdue.
      rewrite invocations_fire.
      destruct evs as [|[t2 this2 args2|t2 id2] evs].
      * cbn. intros [= <-] _ [= <- <- <-]. right. eauto.
      * cbn. destruct (decide (tf ≤ t2)%Z); [|done]. intros _ [Hlt _]. lia.
      * cbn [run]. subst s. cbn [d_host d_executed next_id].
        rewrite debounce_step_fire_idle; done.
Qed.

(** C8: a chain of calls of the function returned by [debounce], each less
    than [delay] after the one before, leaves exactly one execution of the
    callback pending, the one scheduled by the last call: it is due [delay]
    after that call and carries its receiver and arguments, and the
    executions scheduled by the earlier calls are gone from the timer queue.
    Nothing is executed during the chain; when the host runs the pending
    timer, which it can at any time from the due time on and not before,
    the callback is executed once, and no timer is left. *)
Theorem debounce_chain evs0 (s0 s : @debounced C A) t1 this1 args1 evs tN thisN argsN :
  run (debounce_step delay) debounce evs0 = Some s0 ->
  run (debounce_step delay) s0 (Invoke t1 this1 args1 :: evs) = Some s ->
  spaced delay t1 (invocations evs) ->
  last_call (t1, this1, args1) (invocations evs) = (tN, thisN, argsN) ->
  (d_executed s = d_executed s0 ∧
   ∃ id, d_timer s = Some id ∧
         pending (d_host s) = [Scheduled id (tN + delay) thisN argsN] ∧
         ∀ t, debounce_step delay s (Fire t id) =
              if decide ((clock (d_host s) ≤ t)%Z ∧ (tN + delay ≤ t)%Z)
              then Some (Debounced None (Host t [] (next_id (d_host s)))
                           (d_executed s0 ++ [(t, thisN, argsN)]))
              else None) ∨
  (∃ tf, (tN + delay ≤ tf)%Z ∧
         d_executed s = d_executed s0 ++ [(tf, thisN, argsN)] ∧
         d_timer s = None ∧ pending (d_host s) = []).
Proof.
  intros Hreach Hrun Hsp Hlast.
  apply debounce_reachable_inv in Hreach as Hinv.
  cbn [run] in Hrun.
  destruct (debounce_step delay s0 _) as [s1|] eqn:Hstep; [|done].
  apply debounce_step_invoke in Hstep as [Hle ->]; [|done].
  destruct Hinv as [Hnxt _].
  eapply debounce_chain_from in Hrun; eauto.
  destruct Hrun as [(id' & nxt' & Hid' & ->)|(tf & nxt' & Hdue & ->)].
  - left. split; [done|]. exists id'. split; [done|]. split; [done|].
    intros t.
    rewrite (debounce_step_fire_waiting _ (Scheduled id' (tN + delay) thisN argsN))
      by done.
    cbn. destruct (decide (_ ∧ _ ∧ _)) as [(_ & H1 & H2)|Hn].
    + by rewrite decide_True.
    + rewrite decide_False; [done|]. intros [H1 H2]. by apply Hn.
  - right. exists tf. done.
Qed.

(** *** throttleAfter *)

Lemma throttleAfter_step_inv (s s' : @throttledAfter C A) e :
  throttleAfter_inv s -> throttleAfter_step delay s e = Some s' ->
  throttleAfter_inv s'.
Proof.
  unfold throttleAfter_inv. intros Hinv. destruct e as [t this args|t id]; cbn.
  - destruct (decide _); [|done]. destruct (ta_ran s).
    + intros [= <-]. done.
    + intros [= <-]. cbn. rewrite Hinv. eauto.
  - destruct (ta_ran s).
    + destruct Hinv as [sch Hp]. rewrite (find_timer_single _ sch) by done.
      destruct (decide (s_id sch = id)) as [<-|]; [|done].
      destruct (decide _); [|done]. intros [= <-]. cbn.
      rewrite Hp. cbn. by rewrite decide_False by (intros H; by apply H).
    + unfold find_timer. by rewrite Hinv.
Qed.

Lemma throttleAfter_reachable_inv evs0 (s : @throttledAfter C A) :
  run (throttleAfter_step delay) throttleAfter evs0 = Some s ->
  throttleAfter_inv s.
Proof.
  assert (Hgen : ∀ evs (s1 : @throttledAfter C A),
             throttleAfter_inv s1 ->
             run (throttleAfter_step delay) s1 evs = Some s ->
             throttleAfter_inv s).
  { induction evs as [|e evs IH]; intros s1 Hinv; cbn.
    - by intros [= <-].
    - destruct (throttleAfter_step delay s1 e) as [s2|] eqn:Hstep; [|done].
      apply IH. by eapply throttleAfter_step_inv. }
  apply Hgen. done.
Qed.

Lemma throttleAfter_dropped later : ∀ t sch nxt ex (s : @throttledAfter C A),
  Forall is_invoke later ->
  run (throttleAfter_step delay) (ThrottledAfter true (Host t [sch] nxt) ex) later
    = Some s ->
  ∃ t', s = ThrottledAfter true (Host t' [sch] nxt) ex.
Proof.
  induction later as [|e later IH]; intros t sch nxt ex s Hall; cbn [run].
  - intros [= <-]. eauto.
  - apply Forall_cons in Hall as [He Hall].
    destruct e as [t' this args|]; [|done]. cbn.
    destruct (decide _); [|done]. by apply IH.
Qed.

(** C9: the first call of a window of the function returned by
    [throttleAfter] schedules one execution of the callback, due [delay]
    later, with the receiver and arguments of that call; the calls that
    arrive before it runs change nothing; when the host runs it, not before
    it is due, the callback is executed once with what the first call
    passed, no timer is left and the window is open again. *)
Theorem throttleAfter_window evs0 (s0 s : @throttledAfter C A) t1 this1 args1 later :
  run (throttleAfter_step delay) throttleAfter evs0 = Some s0 ->
  ta_ran s0 = false ->
  Forall is_invoke later ->
  run (throttleAfter_step delay) s0 (Invoke t1 this1 args1 :: later) = Some s ->
  ta_ran s = true ∧
  ta_executed s = ta_executed s0 ∧
  ∃ id, pending (ta_host s) = [Scheduled id (t1 + delay) this1 args1] ∧
        ∀ t id', throttleAfter_step delay s (Fire t id') =
                 if decide (id' = id ∧ (clock (ta_host s) ≤ t)%Z ∧ (t1 + delay ≤ t)%Z)
                 then Some (ThrottledAfter false (Host t [] (next_id (ta_host s)))
                              (ta_executed s0 ++ [(t, this1, args1)]))
                 else None.
Proof.
  intros Hreach Hran Hlater Hrun.
  apply throttleAfter_reachable_inv in Hreach as Hinv.
  unfold throttleAfter_inv in Hinv. rewrite Hran in Hinv.
  cbn in Hrun. rewrite Hran, Hinv in Hrun.
  destruct (decide _) as [Hle|]; [|done]. cbn in Hrun.
  apply throttleAfter_dropped in Hrun as [t' ->]; [|done].
  split; [done|]. split; [done|].
  exists (next_id (ta_host s0)). split; [done|].
  intros t id'. cbn.
  rewrite (find_timer_single _ (Scheduled (next_id (ta_host s0)) (t1 + delay) this1 args1))
    by done.
  cbn. destruct (decide (next_id (ta_host s0) = id')) as [<-|Hne].
  - destruct (decide (_ ∧ _)) as [[H1 H2]|Hn].
    + rewrite decide_True by done.
      by rewrite (clearTimeout_single _
                    (Scheduled (next_id (ta_host s0)) (t1 + delay) this1 args1)).
    + rewrite decide_False; [done|]. intros (_ & H1 & H2). by apply Hn.
  - rewrite decide_False; [done|]. intros [-> _]. done.
Qed.

End Wrappers.

(** Three calls at 1000, 1080 and 1100 ms with a delay of 100: the first and
    the third run. *)
Lemma throttle_accepts_witness :
  let cs := [Call 1000 1000 "foo" [5%Z]; Call 1080 1080 "bar" [6%Z];
             Call 1100 1101 "baz" [7%Z]] in
  Forall (fun c => c_after c ≠ 0%Z) cs ∧
  th_executed (foldl (throttle_call 100) throttle cs) =
    [("foo", [5%Z]); ("baz", [7%Z])].
Proof.
  intros cs.
  assert (Hcs : Forall (fun c => c_after c ≠ 0%Z) cs) by (repeat constructor; done).
  split; [exact Hcs|].
  exact (throttle_accepts 100 cs Hcs).
Defined.
(** Three calls 20 ms apart with a delay of 100, as in the unit test: the
    timer of the third call, due at 140, is the one pending. *)
Lemma debounce_chain_witness :
  let evs := [Invoke 20 "foo" [2%Z]; Invoke 40 "foo" [3%Z]] in
  let s := Debounced (Some 3) (Host 40 [Scheduled 3 140 "foo" [3%Z]] 4) [] in
  run (debounce_step 100) debounce (Invoke 0 "foo" [1%Z] :: evs) = Some s ∧
  spaced 100 0 (invocations evs) ∧
  pending (d_host s) = [Scheduled 3 140 "foo" [3%Z]] ∧
  ((d_executed s = [] ∧
    ∃ id, d_timer s = Some id ∧
          pending (d_host s) = [Scheduled id (40 + 100) "foo" [3%Z]] ∧
          ∀ t, debounce_step 100 s (Fire t id) =
               if decide ((clock (d_host s) ≤ t)%Z ∧ (40 + 100 ≤ t)%Z)
               then Some (Debounced None (Host t [] (next_id (d_host s)))
                            ([] ++ [(t, "foo", [3%Z])]))
               else None) ∨
   (∃ tf, (40 + 100 ≤ tf)%Z ∧
          d_executed s = [] ++ [(tf, "foo", [3%Z])] ∧
          d_timer s = None ∧ pending (d_host s) = [])).
Proof.
  intros evs s.
  assert (Hrun : run (debounce_step 100) debounce (Invoke 0 "foo" [1%Z] :: evs)
                 = Some s) by reflexivity.
  assert (Hsp : spaced 100 0 (invocations evs)) by (cbn; lia).
  split; [exact Hrun|]. split; [exact Hsp|]. split; [reflexivity|].
  exact (debounce_chain 100 [] debounce s 0 "foo" [1%Z] evs 40 "foo" [3%Z]
           eq_refl Hrun Hsp eq_refl).
Defined.

(** A call at 0 and three more at 90 with a delay of 100, as in the unit
    test: the execution scheduled by the first call, due at 100, is the one
    pending. *)
Lemma throttleAfter_window_witness :
  let later := [Invoke 90 "bar" [2%Z]; Invoke 90 "bar" [3%Z]; Invoke 90 "bar" [4%Z]] in
  let s := ThrottledAfter true (Host 90 [Scheduled 1 100 "foo" [1%Z]] 2) [] in
  run (throttleAfter_step 100) throttleAfter (Invoke 0 "foo" [1%Z] :: later) = Some s ∧
  ta_ran s = true ∧
  ta_executed s = [] ∧
  ∃ id, pending (ta_host s) = [Scheduled id (0 + 100) "foo" [1%Z]] ∧
        ∀ t id', throttleAfter_step 100 s (Fire t id') =
                 if decide (id' = id ∧ (clock (ta_host s) ≤ t)%Z ∧ (0 + 100 ≤ t)%Z)
                 then Some (ThrottledAfter false (Host t [] (next_id (ta_host s)))
                              ([] ++ [(t, "foo", [1%Z])]))
                 else None.
Proof.
  intros later s.
  assert (Hrun : run (throttleAfter_step 100) throttleAfter
                   (Invoke 0 "foo" [1%Z] :: later) = Some s) by reflexivity.
  assert (Hlater : Forall is_invoke later) by (repeat constructor).
  split; [exact Hrun|].
  exact (throttleAfter_window 100 [] throttleAfter s 0 "foo" [1%Z] later
           eq_refl eq_refl Hlater Hrun).
Defined.

End UtilProps.

(** ** The store under [copy]: what is written and what is left alone *)

Lemma get_obj_eq h h' l :
  objs h' !! l = objs h !! l -> get_obj h' l = get_obj h l.
Proof. unfold get_obj. by intros ->. Qed.

Lemma preserves_refl h : preserves h h.
Proof. repeat split; auto. Qed.

Lemma preserves_trans h1 h2 h3 :
  preserves h1 h2 -> preserves h2 h3 -> preserves h1 h3.
Proof.
  intros (Hl1 & Ho1 & Ha1) (Hl2 & Ho2 & Ha2). split; [lia|]. split.
  - intros l Hl. rewrite Ho2 by lia. by apply Ho1.
  - by etrans.
Qed.

Lemma preserves_get_obj h h' l :
  preserves h h' -> l < length (objs h) -> get_obj h' l = get_obj h l.
Proof. intros (_ & Ho & _) Hl. apply get_obj_eq. by apply Ho. Qed.

Lemma preserves_get_arr h h' a :
  preserves h h' -> a < length (arrs h) -> get_arr h' a = get_arr h a.
Proof.
  intros (_ & _ & [k Hk]) Ha. unfold get_arr. rewrite Hk.
  by rewrite lookup_app_l.
Qed.

Lemma preserves_arrs_length h h' :
  preserves h h' -> length (arrs h) ≤ length (arrs h').
Proof. intros (_ & _ & [k ->]). rewrite length_app. lia. Qed.

Lemma frame_refl t h : frame t h h.
Proof. repeat split; auto. Qed.

Lemma frame_trans t h1 h2 h3 :
  frame t h1 h2 -> frame t h2 h3 -> frame t h1 h3.
Proof.
  intros (Hl1 & Ho1 & Ht1 & Ha1) (Hl2 & Ho2 & Ht2 & Ha2).
  split; [lia|]. split; [|split].
  - intros l Hl Hne. rewrite Ho2 by (done || lia). by apply Ho1.
  - intros Ht. destruct (Ht2 ltac:(lia)) as (-> & -> & ->). by apply Ht1.
  - by etrans.
Qed.

Lemma preserves_frame t h h' : preserves h h' -> frame t h h'.
Proof.
  intros Hp. pose proof Hp as (Hl & Ho & Ha). split; [done|]. split; [|split].
  - intros l Hl' _. by apply Ho.
  - intros Ht. by rewrite (preserves_get_obj h h').
  - done.
Qed.

(** A frame around a new object preserves what was there before it. *)
Lemma frame_fresh_preserves t h h' :
  frame t h h' -> length (objs h) ≤ t -> preserves h h'.
Proof.
  intros (Hl & Ho & _ & Ha) Ht. split; [done|]. split; [|done].
  intros l Hl'. apply Ho; lia.
Qed.

Lemma preserves_then_frame t h h0 h' :
  preserves h h0 -> frame t h0 h' -> length (objs h) ≤ t -> preserves h h'.
Proof.
  intros (Hl1 & Ho1 & Ha1) (Hl2 & Ho2 & _ & Ha2) Ht.
  split; [lia|]. split; [|by etrans].
  intros l Hl. rewrite Ho2 by lia. by apply Ho1.
Qed.

Lemma alloc_obj_preserves h o : preserves h (alloc_obj h o).1.
Proof.
  split; [|split]; cbn.
  - rewrite length_app. lia.
  - intros l Hl. by rewrite lookup_app_l.
  - done.
Qed.

Lemma alloc_arr_preserves h items : preserves h (alloc_arr h items).1.
Proof.
  split; [|split]; cbn; [done..|]. by apply prefix_app_r.
Qed.

Lemma set_prop_frame h t name d : frame t h (set_prop h t name d).
Proof.
  unfold set_prop, set_obj. split; [|split; [|split]]; cbn.
  - by rewrite length_insert.
  - intros l Hl Hne. by rewrite list_lookup_insert_ne.
  - intros Ht.
    assert (Hget : ∀ o, get_obj (Heap (<[t:=o]> (objs h)) (arrs h)) t = o).
    { intros o. unfold get_obj. cbn. by rewrite list_lookup_insert_eq. }
    by rewrite Hget.
  - done.
Qed.

Lemma put_frame h t name v h' : put h t name v = Ok h' -> frame t h h'.
Proof.
  unfold put. intros Hput.
  repeat (case_match; simplify_eq);
    try apply set_prop_frame; apply frame_refl.
Qed.

Lemma defineProperty_frame h t name d h' :
  defineProperty h t name d = Ok h' -> frame t h h'.
Proof.
  unfold defineProperty. intros Hdef.
  repeat (case_match; simplify_eq); apply set_prop_frame.
Qed.

Lemma bind_Ok {A B} (r : result A) (k : A -> result B) b :
  r ≫= k = Ok b -> ∃ a, r = Ok a ∧ k a = Ok b.
Proof. destruct r; cbn; [eauto|done..]. Qed.

Ltac inv_bind H :=
  let a := fresh "a" in
  let H1 := fresh H in
  apply bind_Ok in H as (a & H1 & H);
  lazymatch type of a with
  | prod _ _ => destruct a
  | _ => idtac
  end.

Section Frames.
Variable copy_rec : heap -> CopyArgs -> result (heap * loc).
Variable copyArray_rec : heap -> aloc -> CopyArgs -> result (heap * aloc).
Hypothesis copy_rec_frames : copy_frames copy_rec.
Hypothesis copyArray_rec_frames : copyArray_frames copyArray_rec.

Lemma copyItem_preserves kwArgs h item h' item' :
  copyItem copy_rec copyArray_rec kwArgs h item = Ok (h', item') ->
  preserves h h'.
Proof.
  unfold copyItem. intros H.
  destruct item; simplify_eq; try apply preserves_refl.
  - destruct (isObject h (VObj l)); simplify_eq; [|apply preserves_refl].
    inv_bind H. simplify_eq.
    apply copy_rec_frames in H0. unfold given_target in H0. cbn in H0.
    destruct (assignPrototype kwArgs); tauto.
  - inv_bind H. simplify_eq. by apply copyArray_rec_frames in H0 as [? _].
Qed.

Lemma mapItems_preserves f h items h' items' :
  (∀ h v h' v', f h v = Ok (h', v') -> preserves h h') ->
  mapItems f h items = Ok (h', items') -> preserves h h'.
Proof.
  intros Hf. revert h h' items'.
  induction items as [|item items IH]; intros h h' items' H; cbn in H.
  - simplify_eq. apply preserves_refl.
  - inv_bind H. inv_bind H. simplify_eq.
    eapply preserves_trans; eauto.
Qed.

Lemma deepValue_preserves b kwArgs h v h' v' :
  deepValue copy_rec copyArray_rec b kwArgs h v = Ok (h', v') ->
  preserves h h'.
Proof.
  unfold deepValue. intros H.
  destruct v; simplify_eq; try apply preserves_refl.
  - destruct (isObject h (VObj l)); simplify_eq; [|apply preserves_refl].
    inv_bind H. simplify_eq.
    apply copy_rec_frames in H0. unfold given_target in H0. cbn in H0.
    destruct (assignPrototype kwArgs); tauto.
  - inv_bind H. simplify_eq. by apply copyArray_rec_frames in H0 as [? _].
Qed.

Lemma defineAll_frame kwArgs t source names : ∀ h h',
  defineAll copy_rec copyArray_rec kwArgs t source h names = Ok h' ->
  frame t h h'.
Proof.
  induction names as [|name names IH]; intros h h' H; cbn in H.
  - simplify_eq. apply frame_refl.
  - destruct ((if inherited kwArgs then _ else _) h source name) as [d|];
      [|done].
    apply bind_Ok in H as ([h1 d'] & Hdeep & H).
    apply bind_Ok in H as (h2 & Hdef & H).
    apply defineProperty_frame in Hdef. apply IH in H.
    apply (frame_trans t h h1 h'); [|by apply (frame_trans t h1 h2 h')].
    destruct (deep kwArgs); simplify_eq; [|apply frame_refl].
    apply bind_Ok in Hdeep as ([h3 v] & Hdeep & ?). simplify_eq.
    by apply deepValue_preserves, (preserves_frame t) in Hdeep.
Qed.

Lemma assignAll_frame kwArgs t source names : ∀ h h',
  assignAll copy_rec copyArray_rec kwArgs t source h names = Ok h' ->
  frame t h h'.
Proof.
  induction names as [|name names IH]; intros h h' H; cbn in H.
  - simplify_eq. apply frame_refl.
  - destruct (inherited kwArgs || hasOwnProperty h source name); [|by apply IH].
    apply bind_Ok in H as ([h1 v] & Hdeep & H).
    apply bind_Ok in H as (h2 & Hput & H).
    apply put_frame in Hput. apply IH in H.
    apply (frame_trans t h h1 h'); [|by apply (frame_trans t h1 h2 h')].
    destruct (deep kwArgs); simplify_eq; [|apply frame_refl].
    by apply deepValue_preserves, (preserves_frame t) in Hdeep.
Qed.

Lemma copySource_frame kwArgs t h source h' :
  copySource copy_rec copyArray_rec kwArgs t h source = Ok h' ->
  frame t h h'.
Proof.
  unfold copySource. destruct (descriptors kwArgs).
  - apply defineAll_frame.
  - apply assignAll_frame.
Qed.

Lemma copySources_frame kwArgs t srcs : ∀ h h',
  copySources copy_rec copyArray_rec kwArgs t h srcs = Ok h' ->
  frame t h h'.
Proof.
  induction srcs as [|source srcs IH]; intros h h' H; cbn in H.
  - simplify_eq. apply frame_refl.
  - inv_bind H. apply copySource_frame in H0. apply IH in H.
    by eapply frame_trans.
Qed.

Lemma makeTarget_spec h kwArgs source0 h0 t0 :
  makeTarget h kwArgs source0 = (h0, t0) ->
  match given_target kwArgs with
  | Some t => h0 = h ∧ t0 = t
  | None =>
      t0 = length (objs h) ∧ preserves h h0 ∧
      length (objs h0) = S (length (objs h))
  end.
Proof.
  unfold makeTarget, given_target.
  destruct (assignPrototype kwArgs); [|destruct (target kwArgs)];
    intros [= <- <-]; try done.
  all: split; [done|]; split; [apply alloc_obj_preserves|];
    cbn; rewrite length_app; cbn; lia.
Qed.

Lemma copy_body_frames : copy_frames (copy_body copy_rec copyArray_rec).
Proof.
  intros h kwArgs h' t Hc. unfold copy_body in Hc.
  destruct (sources kwArgs) as [|source0 srcs]; [done|].
  destruct (makeTarget h kwArgs source0) as [h0 t0] eqn:Hmk.
  apply bind_Ok in Hc as (h1 & Hcs & Hc). simplify_eq.
  apply copySources_frame in Hcs. apply makeTarget_spec in Hmk.
  destruct (given_target kwArgs) as [t0|].
  - by destruct Hmk as [-> ->].
  - destruct Hmk as (-> & Hp & Hlen). pose proof Hcs as (Hl & _).
    split; [done|]. split; [lia|].
    by apply (preserves_then_frame (length (objs h)) h h0 h').
Qed.

Lemma copyArray_body_frames :
  copyArray_frames (copyArray_body copy_rec copyArray_rec).
Proof.
  intros h array kwArgs h' a'. unfold copyArray_body. intros H.
  inv_bind H. simplify_eq.
  apply mapItems_preserves in H0; [|apply copyItem_preserves].
  split.
  - eapply preserves_trans; [done|]. apply alloc_arr_preserves.
  - cbn. rewrite length_app. cbn.
    apply preserves_arrs_length in H0. lia.
Qed.
End Frames.

Lemma copy_copyArray_frames n :
  copy_frames (copy n) ∧ copyArray_frames (copyArray n).
Proof.
  induction n as [|n [IH1 IH2]].
  - split; intros ?; intros; done.
  - split; cbn [copy copyArray].
    + by apply copy_body_frames.
    + by apply copyArray_body_frames.
Qed.

(** C10, as stated, fails when the target is not a source but is found
    from one: with [t = {}] and [s = { child: t }], [copy({ target: t,
    sources: [s] })] gives [t] a property [child]. *)
Lemma copy_target_reachable_counterexample :
  let t := Object (Some 0) CObject true [] in
  let s := Object (Some 0) CObject true [("child", Data (VObj 1) true true true)] in
  let h := Heap [Object None CObject true []; t; s] [] in
  let kwArgs := mkCopyArgs false false false false (Some 1) [2] in
  ∃ h', copy 1 h kwArgs = Ok (h', 1) ∧
        (1 ∉ sources kwArgs) ∧
        reach h (VObj 2) (VObj 1) ∧
        get_obj h' 1 ≠ get_obj h 1.
Proof.
  eexists. split; [reflexivity|]. split; [|split].
  - cbn. set_solver.
  - apply (reach_prop _ 2 "child" (Data (VObj 1) true true true)).
    + cbn. set_solver.
    + apply reach_here.
  - vm_compute. congruence.
Qed.

(** C10 (amended): a call of [copy] that returns has changed no object and
    no array that existed before it, except the target it was given (when
    [assignPrototype] is off and a target is provided).  So when the
    target given is neither a source nor found from a source through
    property values and array elements, every source and every object
    found from one has the properties, values and attributes it had
    before, with and without [deep] and [descriptors]. *)
Theorem copy_frame n h kwArgs h' t :
  copy n h kwArgs = Ok (h', t) ->
  (∀ l, l < length (objs h) → Some l ≠ given_target kwArgs →
        objs h' !! l = objs h !! l) ∧
  (∀ a, a < length (arrs h) → arrs h' !! a = arrs h !! a) ∧
  ((∀ source, source ∈ sources kwArgs →
      ∀ t0, given_target kwArgs = Some t0 → ¬ reach h (VObj source) (VObj t0)) →
   ∀ source l, source ∈ sources kwArgs → reach h (VObj source) (VObj l) →
               l < length (objs h) → get_obj h' l = get_obj h l).
Proof.
  intros Hcopy. destruct (copy_copyArray_frames n) as [Hframes _].
  apply Hframes in Hcopy.
  assert (Hobjs : ∀ l, l < length (objs h) → Some l ≠ given_target kwArgs →
                       objs h' !! l = objs h !! l).
  { intros l Hl Hne. destruct (given_target kwArgs) as [t0|].
    - destruct Hcopy as (-> & _ & Ho & _). apply Ho; [done|].
      intros ->. by apply Hne.
    - destruct Hcopy as (_ & _ & _ & Ho & _). by apply Ho. }
  split; [done|]. split.
  - intros a Ha.
    assert (Hpre : arrs h `prefix_of` arrs h').
    { destruct (given_target kwArgs); [apply Hcopy|apply Hcopy]. }
    destruct Hpre as [k ->]. by rewrite lookup_app_l.
  - intros Hnot source l Hsrc Hreach Hl. apply get_obj_eq, Hobjs; [done|].
    intros Heq. symmetry in Heq. by eapply Hnot.
Qed.

(** The same call with a target that no source leads to. *)
Lemma copy_frame_witness :
  let h := Heap [Object None CObject true [];
                 Object (Some 0) CObject true [];
                 Object (Some 0) CObject true [("a", Data (VNum 1) true true true)]] [] in
  let kwArgs := mkCopyArgs false false false false (Some 1) [2] in
  ∃ h', copy 1 h kwArgs = Ok (h', 1) ∧ get_obj h' 2 = get_obj h 2.
Proof.
  intros h kwArgs.
  destruct (copy 1 h kwArgs) as [[h' t]| |] eqn:Hcopy; [|done..].
  assert (Ht : t = 1) by (vm_compute in Hcopy; congruence). subst t.
  exists h'. split; [done|].
  eapply (copy_frame 1 h kwArgs h' 1 Hcopy);
    [|by left|apply reach_here|cbn; lia].
  intros source Hsrc t0 [= <-] Hreach.
  apply list_elem_of_singleton in Hsrc as ->.
  inversion Hreach as [| ? ? ? ? Hin Hr |]; subst.
  cbn in Hin. apply list_elem_of_singleton in Hin as [= -> ->].
  cbn in Hr. inversion Hr.
Defined.

(** ** The one error of [copy] and [create] *)

Lemma bind_Throw {A B} (r : result A) (k : A -> result B) e :
  r ≫= k = Throw e -> r = Throw e ∨ ∃ a, r = Ok a ∧ k a = Throw e.
Proof. destruct r; cbn; intros; simplify_eq; eauto. Qed.

Lemma put_no_range_error h t name v : put h t name v ≠ Throw RangeError.
Proof. unfold put. repeat case_match; congruence. Qed.

Lemma defineProperty_no_range_error h t name d :
  defineProperty h t name d ≠ Throw RangeError.
Proof. unfold defineProperty. repeat case_match; congruence. Qed.

Section RangeError.
Variable copy_rec : heap -> CopyArgs -> result (heap * loc).
Variable copyArray_rec : heap -> aloc -> CopyArgs -> result (heap * aloc).
Hypothesis copy_rec_range : range_error_empty copy_rec.
Hypothesis copyArray_rec_range : no_range_error copyArray_rec.

Lemma copyItem_no_range_error kwArgs h item :
  copyItem copy_rec copyArray_rec kwArgs h item ≠ Throw RangeError.
Proof.
  unfold copyItem. destruct item; try done.
  - destruct (isObject h (VObj l)); [|done]. intros H.
    apply bind_Throw in H as [H|([h' l'] & _ & H)]; [|done].
    by apply copy_rec_range in H.
  - intros H. apply bind_Throw in H as [H|([h' a'] & _ & H)]; [|done].
    by apply copyArray_rec_range in H.
Qed.

Lemma mapItems_no_range_error f h items :
  (∀ h v, f h v ≠ Throw RangeError) ->
  mapItems f h items ≠ Throw RangeError.
Proof.
  intros Hf. revert h. induction items as [|item items IH]; intros h; [done|].
  cbn. intros H. apply bind_Throw in H as [H|([h1 v] & _ & H)]; [by eapply Hf|].
  apply bind_Throw in H as [H|([h2 vs] & _ & H)]; [by eapply IH|done].
Qed.

Lemma deepValue_no_range_error b kwArgs h v :
  deepValue copy_rec copyArray_rec b kwArgs h v ≠ Throw RangeError.
Proof.
  unfold deepValue. destruct v; try done.
  - destruct (isObject h (VObj l)); [|done]. intros H.
    apply bind_Throw in H as [H|([h' l'] & _ & H)]; [|done].
    by apply copy_rec_range in H.
  - intros H. apply bind_Throw in H as [H|([h' a'] & _ & H)]; [|done].
    by apply copyArray_rec_range in H.
Qed.

Lemma defineAll_no_range_error kwArgs t source names : ∀ h,
  defineAll copy_rec copyArray_rec kwArgs t source h names ≠ Throw RangeError.
Proof.
  induction names as [|name names IH]; intros h; [done|]. cbn.
  destruct ((if inherited kwArgs then _ else _) h source name) as [d|]; [|done].
  intros H. apply bind_Throw in H as [H|([h1 d'] & _ & H)].
  - destruct (deep kwArgs); [|done].
    apply bind_Throw in H as [H|([h1 v] & _ & H)]; [|done].
    by apply deepValue_no_range_error in H.
  - apply bind_Throw in H as [H|(h2 & _ & H)].
    + by apply defineProperty_no_range_error in H.
    + by apply IH in H.
Qed.

Lemma assignAll_no_range_error kwArgs t source names : ∀ h,
  assignAll copy_rec copyArray_rec kwArgs t source h names ≠ Throw RangeError.
Proof.
  induction names as [|name names IH]; intros h; [done|]. cbn.
  destruct (inherited kwArgs || hasOwnProperty h source name); [|apply IH].
  intros H. apply bind_Throw in H as [H|([h1 v] & _ & H)].
  - destruct (deep kwArgs); [|done].
    by apply deepValue_no_range_error in H.
  - apply bind_Throw in H as [H|(h2 & _ & H)].
    + by apply put_no_range_error in H.
    + by apply IH in H.
Qed.

Lemma copySources_no_range_error kwArgs t srcs : ∀ h,
  copySources copy_rec copyArray_rec kwArgs t h srcs ≠ Throw RangeError.
Proof.
  induction srcs as [|source srcs IH]; intros h; [done|]. cbn.
  intros H. apply bind_Throw in H as [H|(h1 & _ & H)]; [|by apply IH in H].
  unfold copySource in H. destruct (descriptors kwArgs).
  - by apply defineAll_no_range_error in H.
  - by apply assignAll_no_range_error in H.
Qed.

Lemma copy_body_range_error h kwArgs :
  copy_body copy_rec copyArray_rec h kwArgs = Throw RangeError ↔
  sources kwArgs = [].
Proof.
  unfold copy_body. destruct (sources kwArgs) as [|source0 srcs] eqn:Hs; [done|].
  split; [|done]. destruct (makeTarget h kwArgs source0) as [h0 t].
  intros H. apply bind_Throw in H as [H|(h1 & _ & H)]; [|done].
  by apply copySources_no_range_error in H.
Qed.

Lemma copyArray_body_no_range_error :
  no_range_error (copyArray_body copy_rec copyArray_rec).
Proof.
  intros h array kwArgs. unfold copyArray_body. intros H.
  apply bind_Throw in H as [H|([h1 items] & _ & H)]; [|done].
  apply mapItems_no_range_error in H; [done|].
  apply copyItem_no_range_error.
Qed.
End RangeError.

Lemma copy_copyArray_range_error n :
  range_error_empty (copy n) ∧ no_range_error (copyArray n).
Proof.
  induction n as [|n [IH1 IH2]]; [done|].
  split; cbn [copy copyArray].
  - intros h kwArgs. by apply copy_body_range_error.
  - by apply copyArray_body_no_range_error.
Qed.

Lemma copy_range_error n h kwArgs :
  copy (S n) h kwArgs = Throw RangeError ↔ sources kwArgs = [].
Proof.
  destruct (copy_copyArray_range_error n) as [IH1 IH2].
  cbn [copy]. by apply copy_body_range_error.
Qed.

Lemma create_range_error n h prototype mixins :
  create (S n) h prototype mixins = Throw RangeError ↔ mixins = [].
Proof.
  unfold create. destruct mixins as [|m ms]; [done|].
  split; [|done]. intros H. by apply copy_range_error in H.
Qed.

(** ** Reading a source in a store that has changed elsewhere *)

Lemma ancestors_agree n h h' : ∀ l,
  (∀ c, c ∈ ancestors n h l → get_obj h' c = get_obj h c) ->
  ancestors n h' l = ancestors n h l.
Proof.
  induction n as [|n IH]; intros l Hag; [done|]. cbn in *.
  unfold getPrototypeOf in *. rewrite (Hag l) by set_solver.
  destruct (proto (get_obj h l)) as [p|]; [|done].
  f_equal. apply IH. intros c Hc. apply Hag. set_solver.
Qed.

Lemma lookup_chain_agree n h h' name : ∀ l,
  (∀ c, c ∈ ancestors n h l → get_obj h' c = get_obj h c) ->
  lookup_chain n h' l name = lookup_chain n h l name.
Proof.
  induction n as [|n IH]; intros l Hag; [done|]. cbn in *.
  unfold getOwnPropertyDescriptor, getPrototypeOf in *.
  rewrite (Hag l) by set_solver.
  destruct (assoc name (props (get_obj h l))); [done|].
  destruct (proto (get_obj h l)) as [p|]; [|done].
  apply IH. intros c Hc. apply Hag. set_solver.
Qed.

Lemma forInKeys_agree n h h' : ∀ l visited,
  (∀ c, c ∈ ancestors n h l → get_obj h' c = get_obj h c) ->
  forInKeys n h' l visited = forInKeys n h l visited.
Proof.
  induction n as [|n IH]; intros l visited Hag; [done|]. cbn in *.
  unfold getPrototypeOf in *. rewrite (Hag l) by set_solver.
  destruct (proto (get_obj h l)) as [p|]; [|done].
  f_equal. apply IH. intros c Hc. apply Hag. set_solver.
Qed.

Lemma getPropertyNames_loop_agree n h h' : ∀ l acc,
  (∀ c, c ∈ ancestors n h l → get_obj h' c = get_obj h c) ->
  getPropertyNames_loop n h' l acc = getPropertyNames_loop n h l acc.
Proof.
  induction n as [|n IH]; intros l acc Hag; [done|].
  rewrite !getPropertyNames_loop_S. cbn in Hag.
  unfold getOwnPropertyNames, getPrototypeOf in *.
  rewrite (Hag l) by set_solver.
  destruct (proto (get_obj h l)) as [p|]; [|done].
  destruct (decide (p = ObjectPrototype)); [done|].
  apply IH. intros c Hc. apply Hag. set_solver.
Qed.

Lemma call_getter_agree h h' g :
  (∀ f, g = VObj f → cls (get_obj h' f) = cls (get_obj h f)) ->
  call_getter h' g = call_getter h g.
Proof.
  intros Hg. destruct g; try done. cbn. by rewrite (Hg l).
Qed.

Lemma isObject_agree h h' v :
  (∀ l, v = VObj l → cls (get_obj h' l) = cls (get_obj h l)) ->
  isObject h' v = isObject h v.
Proof.
  intros Hv. destruct v; try done. cbn. by rewrite (Hv l).
Qed.

(** ** Well-formed stores *)

Lemma wf_heap_object h l :
  wf_heap h -> l < length (objs h) ->
  wf_object (length (objs h)) (length (arrs h)) l (get_obj h l).
Proof. intros (_ & Ho & _). apply Ho. Qed.

Lemma wf_heap_proto h l p :
  wf_heap h -> l < length (objs h) -> getPrototypeOf h l = Some p -> p < l.
Proof.
  intros Hwf Hl Hp. destruct (wf_heap_object h l Hwf Hl) as (Hproto & _).
  unfold getPrototypeOf in Hp. by rewrite Hp in Hproto.
Qed.

Lemma wf_heap_own h l name d :
  wf_heap h -> l < length (objs h) ->
  getOwnPropertyDescriptor h l name = Some d ->
  desc_ok (length (objs h)) (length (arrs h)) d.
Proof.
  intros Hwf Hl Hd. destruct (wf_heap_object h l Hwf Hl) as (_ & _ & _ & Hall).
  unfold getOwnPropertyDescriptor in Hd.
  induction (props (get_obj h l)) as [|[k d0] ps IH]; [done|].
  apply Forall_cons in Hall as [Hd0 Hall]. cbn in Hd.
  destruct (decide (k = name)); [by simplify_eq|by apply IH].
Qed.

Lemma val_okb_correct N M v : val_okb N M v = true -> val_ok N M v.
Proof. destruct v; cbn; try done; apply bool_decide_eq_true. Qed.

Lemma desc_okb_correct N M d : desc_okb N M d = true -> desc_ok N M d.
Proof.
  destruct d; cbn; [apply val_okb_correct|].
  intros [? ?]%andb_true_iff. split; by apply val_okb_correct.
Qed.

Lemma wf_objectb_correct N M l o : wf_objectb N M l o = true -> wf_object N M l o.
Proof.
  unfold wf_objectb, wf_object.
  intros [[[Hp Hc]%andb_true_iff Hnd]%andb_true_iff Hall]%andb_true_iff.
  split; [|split; [|split]].
  - destruct (proto o); [by apply bool_decide_eq_true in Hp|done].
  - destruct (cls o); try done. by apply val_okb_correct.
  - by apply bool_decide_eq_true in Hnd.
  - apply Forall_forall. intros kd Hkd. apply desc_okb_correct.
    rewrite forallb_forall in Hall. apply Hall. by apply list_elem_of_In.
Qed.

Lemma wf_heapb_correct h : wf_heapb h = true -> wf_heap h.
Proof.
  unfold wf_heapb, wf_heap.
  intros [[H0 Ho]%andb_true_iff Ha]%andb_true_iff.
  split; [by apply bool_decide_eq_true in H0|]. split.
  - intros l Hl. apply wf_objectb_correct.
    rewrite forallb_forall in Ho. apply Ho. apply in_seq. lia.
  - intros a Hlt. apply Forall_forall. intros v Hv. apply val_okb_correct.
    rewrite forallb_forall in Ha.
    assert (Hin : In a (seq 0 (length (arrs h)))) by (apply in_seq; lia).
    apply Ha in Hin. rewrite forallb_forall in Hin. apply Hin.
    by apply list_elem_of_In.
Qed.

(** In a well-formed store a chain walk from [l] stays at or below [l]. *)
Lemma wf_ancestors_le h n : ∀ l c,
  wf_heap h -> l < length (objs h) -> c ∈ ancestors n h l -> c ≤ l.
Proof.
  induction n as [|n IH]; intros l c Hwf Hl; cbn; [set_solver|].
  rewrite elem_of_cons. intros [->|Hc]; [done|].
  destruct (getPrototypeOf h l) as [p|] eqn:Hp; [|set_solver].
  apply (wf_heap_proto h l p Hwf Hl) in Hp as Hlt.
  apply IH in Hc; [lia|done|lia].
Qed.

Lemma wf_lookup_chain h n name d : ∀ l,
  wf_heap h -> l < length (objs h) ->
  lookup_chain n h l name = Some d ->
  desc_ok (length (objs h)) (length (arrs h)) d.
Proof.
  induction n as [|n IH]; intros l Hwf Hl; cbn; [done|].
  destruct (getOwnPropertyDescriptor h l name) as [d0|] eqn:Hown.
  - intros [= <-]. by eapply wf_heap_own.
  - destruct (getPrototypeOf h l) as [p|] eqn:Hp; [|done].
    apply (wf_heap_proto h l p Hwf Hl) in Hp as Hlt.
    apply IH; [done|lia].
Qed.

Lemma val_ok_mono N M N' M' v :
  N ≤ N' -> M ≤ M' -> val_ok N M v -> val_ok N' M' v.
Proof. destruct v; cbn; lia. Qed.

Lemma desc_ok_mono N M N' M' d :
  N ≤ N' -> M ≤ M' -> desc_ok N M d -> desc_ok N' M' d.
Proof.
  intros HN HM. destruct d; cbn; [by apply val_ok_mono|].
  intros [? ?]. split; by eapply val_ok_mono.
Qed.

Lemma wf_object_mono N M N' M' l o :
  N ≤ N' -> M ≤ M' -> wf_object N M l o -> wf_object N' M' l o.
Proof.
  intros HN HM (Hp & Hc & Hnd & Hall). split; [done|]. split; [|split; [done|]].
  - destruct (cls o); try done. by eapply val_ok_mono.
  - eapply Forall_impl; [done|]. intros kd. by apply desc_ok_mono.
Qed.

Lemma assoc_set_keys name d ps :
  (assoc_set name d ps).*1 =
  if decide (name ∈ ps.*1) then ps.*1 else ps.*1 ++ [name].
Proof.
  induction ps as [|[k d0] ps IH]; cbn.
  - by rewrite decide_False by set_solver.
  - destruct (decide (k = name)) as [->|Hne]; cbn.
    + by rewrite decide_True by set_solver.
    + rewrite IH. destruct (decide (name ∈ ps.*1)).
      * by rewrite decide_True by set_solver.
      * by rewrite decide_False by set_solver.
Qed.

Lemma assoc_set_NoDup name d ps : NoDup ps.*1 -> NoDup (assoc_set name d ps).*1.
Proof.
  intros Hnd. rewrite assoc_set_keys. destruct (decide _); [done|].
  apply NoDup_app. split; [done|]. split; [set_solver|]. apply NoDup_singleton.
Qed.

Lemma assoc_set_Forall (P : string * descriptor -> Prop) name d ps :
  Forall P ps -> P (name, d) -> Forall P (assoc_set name d ps).
Proof.
  intros Hall Hd. induction Hall as [|[k d0] ps Hk Hall IH]; cbn.
  - by constructor.
  - destruct (decide (k = name)) as [->|]; constructor; done.
Qed.

Lemma assoc_assoc_set name d ps name' :
  assoc name' (assoc_set name d ps) =
  if decide (name = name') then Some d else assoc name' ps.
Proof.
  induction ps as [|[k d0] ps IH]; cbn.
  - by destruct (decide (name = name')).
  - destruct (decide (k = name)) as [->|Hne]; cbn.
    + by destruct (decide (name = name')).
    + rewrite IH. destruct (decide (k = name')) as [->|]; [|done].
      by rewrite decide_False.
Qed.

Lemma get_obj_set_prop h t name d l :
  get_obj (set_prop h t name d) l =
  if decide (l = t ∧ t < length (objs h))
  then Object (proto (get_obj h t)) (cls (get_obj h t)) (extensible (get_obj h t))
              (assoc_set name d (props (get_obj h t)))
  else get_obj h l.
Proof.
  unfold set_prop, set_obj, get_obj at 1. cbn.
  destruct (decide (l = t ∧ t < length (objs h))) as [[-> Ht]|Hn].
  - by rewrite list_lookup_insert_eq.
  - destruct (decide (l = t)) as [->|Hne].
    + rewrite list_insert_ge by lia. done.
    + by rewrite list_lookup_insert_ne.
Qed.

Lemma set_prop_wf h t name d :
  wf_heap h -> desc_ok (length (objs h)) (length (arrs h)) d ->
  wf_heap (set_prop h t name d).
Proof.
  intros (H0 & Ho & Ha) Hd.
  assert (Hlen : length (objs (set_prop h t name d)) = length (objs h)).
  { cbn. apply length_insert. }
  split; [lia|]. rewrite Hlen. split; [|done].
  intros l Hl. rewrite get_obj_set_prop.
  destruct (decide _) as [[-> _]|_]; [|by apply Ho].
  destruct (Ho t Hl) as (Hp & Hc & Hnd & Hall).
  split; [done|]. split; [done|]. split.
  - by apply assoc_set_NoDup.
  - by apply assoc_set_Forall.
Qed.

Lemma alloc_obj_wf h p :
  wf_heap h -> match p with Some q => q < length (objs h) | None => True end ->
  wf_heap (alloc_obj h (Object p CObject true [])).1.
Proof.
  intros (H0 & Ho & Ha) Hp. cbn.
  assert (Hlen : length (objs h ++ [Object p CObject true []]) = S (length (objs h))).
  { rewrite length_app. cbn. lia. }
  split; [cbn; lia|]. cbn. rewrite Hlen. split.
  - intros l Hl. unfold get_obj. cbn.
    destruct (decide (l < length (objs h))) as [Hlt|Hge].
    + rewrite lookup_app_l by done.
      eapply wf_object_mono; [| |by apply Ho]; lia.
    + assert (l = length (objs h)) as -> by lia.
      rewrite list_lookup_middle by done. cbn.
      split; [done|]. split; [done|]. split; [constructor|constructor].
  - intros a Hlt. eapply Forall_impl; [by apply Ha|].
    intros v. apply val_ok_mono; lia.
Qed.

Lemma alloc_arr_wf h items :
  wf_heap h -> Forall (val_ok (length (objs h)) (length (arrs h))) items ->
  wf_heap (alloc_arr h items).1.
Proof.
  intros (H0 & Ho & Ha) Hitems. cbn.
  assert (Hlen : length (arrs h ++ [items]) = S (length (arrs h))).
  { rewrite length_app. cbn. lia. }
  split; [done|]. cbn. rewrite Hlen. split.
  - intros l Hl. eapply wf_object_mono; [| |by apply Ho]; lia.
  - intros a Hlt. unfold get_arr. cbn.
    destruct (decide (a < length (arrs h))) as [Hlt'|Hge].
    + rewrite lookup_app_l by done.
      eapply Forall_impl; [by apply Ha|]. intros v. apply val_ok_mono; lia.
    + assert (a = length (arrs h)) as -> by lia.
      rewrite list_lookup_middle by done. cbn.
      eapply Forall_impl; [done|]. intros v. apply val_ok_mono; lia.
Qed.

Lemma put_wf h t name v h' :
  put h t name v = Ok h' -> wf_heap h ->
  val_ok (length (objs h)) (length (arrs h)) v -> wf_heap h'.
Proof.
  unfold put. intros Hput Hwf Hv.
  repeat (case_match; simplify_eq); try done; by apply set_prop_wf.
Qed.

Lemma defineProperty_wf h t name d h' :
  defineProperty h t name d = Ok h' -> wf_heap h ->
  desc_ok (length (objs h)) (length (arrs h)) d -> wf_heap h'.
Proof.
  unfold defineProperty. intros Hdef Hwf Hd.
  repeat (case_match; simplify_eq); by apply set_prop_wf.
Qed.

Lemma call_getter_wf h g :
  wf_heap h -> val_ok (length (objs h)) (length (arrs h)) g ->
  val_ok (length (objs h)) (length (arrs h)) (call_getter h g).
Proof.
  intros Hwf Hg. destruct g; try done. cbn in *.
  destruct (wf_heap_object h l Hwf Hg) as (_ & Hc & _).
  by destruct (cls (get_obj h l)).
Qed.

Lemma get_wf h l name :
  wf_heap h -> l < length (objs h) ->
  val_ok (length (objs h)) (length (arrs h)) (get h l name).
Proof.
  intros Hwf Hl. unfold get.
  destruct (lookup_chain (S l) h l name) as [d|] eqn:Hd; [|done].
  apply wf_lookup_chain in Hd; [|done..].
  destruct d; [done|]. apply call_getter_wf; [done|]. apply Hd.
Qed.

Lemma frame_length t h h' : frame t h h' -> length (objs h) ≤ length (objs h').
Proof. by intros [? _]. Qed.

Lemma frame_arrs_length t h h' : frame t h h' -> length (arrs h) ≤ length (arrs h').
Proof. intros (_ & _ & _ & [k ->]). rewrite length_app. lia. Qed.

Section KeepsWf.
Variable copy_rec : heap -> CopyArgs -> result (heap * loc).
Variable copyArray_rec : heap -> aloc -> CopyArgs -> result (heap * aloc).
Hypothesis copy_rec_frames : copy_frames copy_rec.
Hypothesis copyArray_rec_frames : copyArray_frames copyArray_rec.
Hypothesis copy_rec_wf : copy_keeps_wf copy_rec.
Hypothesis copyArray_rec_wf : copyArray_keeps_wf copyArray_rec.

(** A nested value and its copy: the store stays well formed and the copy
    exists in it. *)
Lemma deepValue_wf b kwArgs h v h' v' :
  deepValue copy_rec copyArray_rec b kwArgs h v = Ok (h', v') ->
  wf_heap h -> val_ok (length (objs h)) (length (arrs h)) v ->
  wf_heap h' ∧ val_ok (length (objs h')) (length (arrs h')) v'.
Proof.
  unfold deepValue. intros H Hwf Hv.
  destruct v; simplify_eq; try done.
  - destruct (isObject h (VObj l)); simplify_eq; [|done].
    apply bind_Ok in H as ([h1 l'] & Hrec & H). simplify_eq.
    split.
    + eapply copy_rec_wf; [done|done| |].
      * cbn. by constructor.
      * unfold given_target. cbn. by destruct (assignPrototype kwArgs).
    + apply copy_rec_frames in Hrec. unfold given_target in Hrec. cbn in Hrec.
      cbn. destruct (assignPrototype kwArgs); lia.
  - apply bind_Ok in H as ([h1 a'] & Hrec & H). simplify_eq.
    split; [by eapply copyArray_rec_wf|].
    apply copyArray_rec_frames in Hrec. cbn. lia.
Qed.

Lemma copyItem_wf kwArgs h item h' item' :
  copyItem copy_rec copyArray_rec kwArgs h item = Ok (h', item') ->
  wf_heap h -> val_ok (length (objs h)) (length (arrs h)) item ->
  wf_heap h' ∧ val_ok (length (objs h')) (length (arrs h')) item'.
Proof.
  unfold copyItem. intros H Hwf Hv.
  destruct item; simplify_eq; try done.
  - destruct (isObject h (VObj l)); simplify_eq; [|done].
    apply bind_Ok in H as ([h1 l'] & Hrec & H). simplify_eq.
    split.
    + eapply copy_rec_wf; [done|done| |].
      * cbn. by constructor.
      * unfold given_target. cbn. by destruct (assignPrototype kwArgs).
    + apply copy_rec_frames in Hrec. unfold given_target in Hrec. cbn in Hrec.
      cbn. destruct (assignPrototype kwArgs); lia.
  - apply bind_Ok in H as ([h1 a'] & Hrec & H). simplify_eq.
    split; [by eapply copyArray_rec_wf|].
    apply copyArray_rec_frames in Hrec. cbn. lia.
Qed.

Lemma mapItems_wf kwArgs items : ∀ h h' items',
  mapItems (copyItem copy_rec copyArray_rec kwArgs) h items = Ok (h', items') ->
  wf_heap h -> Forall (val_ok (length (objs h)) (length (arrs h))) items ->
  wf_heap h' ∧ Forall (val_ok (length (objs h')) (length (arrs h'))) items'.
Proof.
  induction items as [|item items IH]; intros h h' items' H Hwf Hall; cbn in H.
  - by simplify_eq.
  - apply Forall_cons in Hall as [Hitem Hall].
    apply bind_Ok in H as ([h1 item1] & Hitem1 & H).
    apply bind_Ok in H as ([h2 items2] & Hrest & H). simplify_eq.
    pose proof (copyItem_preserves _ _ copy_rec_frames copyArray_rec_frames
                  _ _ _ _ _ Hitem1) as Hp1.
    apply copyItem_wf in Hitem1 as [Hwf1 Hv1]; [|done..].
    pose proof (mapItems_preserves _ _ _ _ _
                  (copyItem_preserves _ _ copy_rec_frames copyArray_rec_frames kwArgs)
                  Hrest) as Hp2.
    apply IH in Hrest as [Hwf2 Hall2]; [|done|].
    + split; [done|]. constructor; [|done].
      eapply val_ok_mono; [| |done].
      * apply Hp2.
      * by apply preserves_arrs_length.
    + eapply Forall_impl; [done|]. intros v. apply val_ok_mono.
      * apply Hp1.
      * by apply preserves_arrs_length.
Qed.
Lemma desc_ok_set_value N M d v :
  desc_ok N M d -> val_ok N M v -> desc_ok N M (d_set_value d v).
Proof. by destruct d. Qed.

Lemma source_read_wf kwArgs h source name d :
  wf_heap h -> source < length (objs h) ->
  (if inherited kwArgs then getPropertyDescriptor else getOwnPropertyDescriptor)
    h source name = Some d ->
  desc_ok (length (objs h)) (length (arrs h)) d.
Proof.
  intros Hwf Hs. destruct (inherited kwArgs).
  - by apply wf_lookup_chain.
  - by apply wf_heap_own.
Qed.

Lemma defineAll_wf kwArgs t source names : ∀ h h',
  defineAll copy_rec copyArray_rec kwArgs t source h names = Ok h' ->
  wf_heap h -> source < length (objs h) -> wf_heap h'.
Proof.
  induction names as [|name names IH]; intros h h' H Hwf Hs; cbn in H.
  - by simplify_eq.
  - destruct ((if inherited kwArgs then _ else _) h source name) as [d|] eqn:Hd;
      [|done].
    apply source_read_wf in Hd; [|done..].
    apply bind_Ok in H as ([h1 d'] & Hdeep & H).
    apply bind_Ok in H as (h2 & Hdef & H).
    assert (wf_heap h1 ∧ desc_ok (length (objs h1)) (length (arrs h1)) d' ∧
            length (objs h) ≤ length (objs h1)) as (Hwf1 & Hd' & Hlen1).
    { destruct (deep kwArgs); simplify_eq; [|done].
      apply bind_Ok in Hdeep as ([h3 v] & Hdeep & ?). simplify_eq.
      pose proof (deepValue_preserves _ _ copy_rec_frames copyArray_rec_frames
                    _ _ _ _ _ _ Hdeep) as Hp.
      apply deepValue_wf in Hdeep as [Hwf1 Hv]; [|done|by destruct d; [|]].
      split; [done|]. split; [|apply Hp].
      apply desc_ok_set_value; [|done].
      eapply desc_ok_mono; [| |done]; [apply Hp|by apply preserves_arrs_length]. }
    pose proof (defineProperty_frame _ _ _ _ _ Hdef) as Hf.
    apply defineProperty_wf in Hdef; [|done..].
    apply (IH h2); [done..|]. apply frame_length in Hf. lia.
Qed.

Lemma assignAll_wf kwArgs t source names : ∀ h h',
  assignAll copy_rec copyArray_rec kwArgs t source h names = Ok h' ->
  wf_heap h -> source < length (objs h) -> wf_heap h'.
Proof.
  induction names as [|name names IH]; intros h h' H Hwf Hs; cbn in H.
  - by simplify_eq.
  - destruct (inherited kwArgs || hasOwnProperty h source name); [|by eapply IH].
    apply bind_Ok in H as ([h1 v] & Hdeep & H).
    apply bind_Ok in H as (h2 & Hput & H).
    pose proof (get_wf h source name Hwf Hs) as Hget.
    assert (wf_heap h1 ∧ val_ok (length (objs h1)) (length (arrs h1)) v ∧
            length (objs h) ≤ length (objs h1)) as (Hwf1 & Hv & Hlen1).
    { destruct (deep kwArgs); simplify_eq; [|done].
      pose proof (deepValue_preserves _ _ copy_rec_frames copyArray_rec_frames
                    _ _ _ _ _ _ Hdeep) as Hp.
      apply deepValue_wf in Hdeep as [Hwf1 Hv]; [|done..].
      split; [done|]. split; [done|apply Hp]. }
    pose proof (put_frame _ _ _ _ _ Hput) as Hf.
    apply put_wf in Hput; [|done..].
    apply (IH h2); [done..|]. apply frame_length in Hf. lia.
Qed.

Lemma copySources_wf kwArgs t srcs : ∀ h h',
  copySources copy_rec copyArray_rec kwArgs t h srcs = Ok h' ->
  wf_heap h -> Forall (fun s => s < length (objs h)) srcs -> wf_heap h'.
Proof.
  induction srcs as [|source srcs IH]; intros h h' H Hwf Hall; cbn in H.
  - by simplify_eq.
  - apply Forall_cons in Hall as [Hs Hall].
    apply bind_Ok in H as (h1 & Hsrc & H).
    pose proof (copySource_frame _ _ copy_rec_frames copyArray_rec_frames
                  _ _ _ _ _ Hsrc) as Hf.
    assert (wf_heap h1) as Hwf1.
    { unfold copySource in Hsrc. destruct (descriptors kwArgs).
      - by eapply defineAll_wf.
      - by eapply assignAll_wf. }
    apply (IH h1); [done..|].
    eapply Forall_impl; [done|]. cbn. intros s. apply frame_length in Hf. lia.
Qed.

Lemma makeTarget_wf h kwArgs source0 h0 t0 :
  makeTarget h kwArgs source0 = (h0, t0) ->
  wf_heap h -> source0 < length (objs h) -> wf_heap h0.
Proof.
  unfold makeTarget. intros H Hwf Hs.
  destruct (assignPrototype kwArgs); [|destruct (target kwArgs)].
  - injection H as <- <-. apply alloc_obj_wf; [done|].
    destruct (getPrototypeOf h source0) as [p|] eqn:Hp; [|done].
    apply wf_heap_proto in Hp; [lia|done..].
  - by injection H as <- <-.
  - injection H as <- <-. apply alloc_obj_wf; [done|]. apply Hwf.
Qed.

Lemma copy_body_keeps_wf : copy_keeps_wf (copy_body copy_rec copyArray_rec).
Proof.
  intros h kwArgs h' t Hc Hwf Hsrcs Ht. unfold copy_body in Hc.
  destruct (sources kwArgs) as [|source0 srcs] eqn:Hs; [done|].
  destruct (makeTarget h kwArgs source0) as [h0 t0] eqn:Hmk.
  apply bind_Ok in Hc as (h1 & Hcs & Hc). simplify_eq.
  pose proof (Forall_inv Hsrcs) as Hs0. cbn in Hs0.
  pose proof (makeTarget_wf _ _ _ _ _ Hmk Hwf Hs0) as Hwf0.
  apply makeTarget_spec in Hmk.
  eapply copySources_wf; [done..|].
  eapply Forall_impl; [done|]. cbn. intros s Hlt.
  destruct (given_target kwArgs).
  - by destruct Hmk as [-> _].
  - destruct Hmk as (_ & _ & Hlen). lia.
Qed.

Lemma copyArray_body_keeps_wf :
  copyArray_keeps_wf (copyArray_body copy_rec copyArray_rec).
Proof.
  intros h array kwArgs h' a' H Hwf Ha. unfold copyArray_body in H.
  apply bind_Ok in H as ([h1 items] & Hmap & H). simplify_eq.
  apply mapItems_wf in Hmap as [Hwf1 Hitems]; [|done|by apply Hwf].
  by apply alloc_arr_wf.
Qed.
End KeepsWf.

Lemma copy_copyArray_keep_wf n :
  copy_keeps_wf (copy n) ∧ copyArray_keeps_wf (copyArray n).
Proof.
  induction n as [|n [IH1 IH2]]; [done|].
  destruct (copy_copyArray_frames n) as [Hf1 Hf2].
  split; cbn [copy copyArray].
  - by apply copy_body_keeps_wf.
  - by apply copyArray_body_keeps_wf.
Qed.

(** ** What the target receives *)

Lemma frame_cls t h h' l :
  frame t h h' -> l < length (objs h) -> cls (get_obj h' l) = cls (get_obj h l).
Proof.
  intros (_ & Ho & Ht & _) Hl. destruct (decide (l = t)) as [->|Hne].
  - by destruct (Ht Hl) as (_ & -> & _).
  - by rewrite (get_obj_eq h h' l) by by apply Ho.
Qed.

Lemma frame_get_obj t h h' l :
  frame t h h' -> l < length (objs h) -> l ≠ t -> get_obj h' l = get_obj h l.
Proof. intros (_ & Ho & _) Hl Hne. apply get_obj_eq. by apply Ho. Qed.

Lemma d_set_value_id d : d_set_value d (d_value d) = d.
Proof. by destruct d. Qed.

Lemma own_set_prop h t name d name' :
  t < length (objs h) ->
  getOwnPropertyDescriptor (set_prop h t name d) t name' =
  if decide (name = name') then Some d else getOwnPropertyDescriptor h t name'.
Proof.
  intros Ht. unfold getOwnPropertyDescriptor. rewrite get_obj_set_prop.
  rewrite decide_True by done. cbn. apply assoc_assoc_set.
Qed.

Lemma lookup_chain_own n h l name :
  lookup_chain (S n) h l name =
  match getOwnPropertyDescriptor h l name with
  | Some d => Some d
  | None =>
      match getPrototypeOf h l with
      | Some p => lookup_chain n h p name
      | None => None
      end
  end.
Proof. reflexivity. Qed.

Lemma put_spec h t name v h' :
  put h t name v = Ok h' ->
  (intercepted h t name = true ∧ h' = h) ∨
  (intercepted h t name = false ∧
   ∃ w e c, kept_attrs (getOwnPropertyDescriptor h t name) = (w, e, c) ∧
            h' = set_prop h t name (Data v w e c)).
Proof.
  unfold put, intercepted. rewrite lookup_chain_own.
  destruct (getOwnPropertyDescriptor h t name) as [d|] eqn:Hown.
  - destruct d as [v0 w e c|g s e c]; cbn.
    + destruct w; [|done]. intros [= <-]. right. eauto 10.
    + destruct s; intros; simplify_eq; by left.
  - destruct (getPrototypeOf h t) as [p|].
    + destruct (lookup_chain t h p name) as [d|].
      * destruct d as [v0 w e c|g s e c]; cbn.
        -- destruct w; [|done]. destruct (extensible _); [|done].
           intros [= <-]. right. eauto 10.
        -- destruct s; intros; simplify_eq; by left.
      * cbn. destruct (extensible _); [|done]. intros [= <-]. right. eauto 10.
    + cbn. destruct (extensible _); [|done]. intros [= <-]. right. eauto 10.
Qed.

Lemma defineProperty_spec h t name d h' :
  defineProperty h t name d = Ok h' -> h' = set_prop h t name d.
Proof.
  unfold defineProperty. intros H. by repeat (case_match; simplify_eq).
Qed.

Section Reads.
Variable kwArgs : CopyArgs.
Variable t : loc.
Variable h0 : heap.
Variables N M : nat.
Hypothesis wf_h0 : wf_heap h0.

(** Reading a source that is neither the target nor one of the objects the
    target inherits from... *)
Lemma frame_ancestors h s c :
  frame t h0 h -> s < length (objs h0) -> t ∉ ancestors (S s) h0 s ->
  c ∈ ancestors (S s) h0 s -> get_obj h c = get_obj h0 c.
Proof.
  intros Hf Hs Hnot Hc. eapply frame_get_obj; [done| |set_solver].
  apply (wf_ancestors_le h0 (S s) s c) in Hc; [lia|done..].
Qed.

Lemma transferred_shallow h v v' : transferred false N M h v v' ↔ v' = v.
Proof. by destruct v. Qed.


(** ...gives what it gave in the store the call started from. *)
Lemma read_stable h s :
  frame t h0 h -> s < length (objs h0) -> t ∉ ancestors (S s) h0 s ->
  (∀ name, getOwnPropertyDescriptor h s name = getOwnPropertyDescriptor h0 s name) ∧
  (∀ name, getPropertyDescriptor h s name = getPropertyDescriptor h0 s name) ∧
  getOwnPropertyNames h s = getOwnPropertyNames h0 s ∧
  getPropertyNames h s = getPropertyNames h0 s ∧
  forInKeys (S s) h s [] = forInKeys (S s) h0 s [] ∧
  (∀ name, hasOwnProperty h s name = hasOwnProperty h0 s name) ∧
  (∀ name, get h s name = get h0 s name).
Proof.
  intros Hf Hs Hnot.
  assert (Hag : ∀ c, c ∈ ancestors (S s) h0 s → get_obj h c = get_obj h0 c)
    by (intros c; by apply frame_ancestors).
  assert (Hself : get_obj h s = get_obj h0 s) by (apply Hag; cbn; set_solver).
  assert (Hchain : ∀ name, lookup_chain (S s) h s name = lookup_chain (S s) h0 s name)
    by (intros name; by apply lookup_chain_agree).
  repeat split.
  - intros name. unfold getOwnPropertyDescriptor. by rewrite Hself.
  - done.
  - unfold getOwnPropertyNames. by rewrite Hself.
  - by apply getPropertyNames_loop_agree.
  - by apply forInKeys_agree.
  - intros name. unfold hasOwnProperty, getOwnPropertyDescriptor. by rewrite Hself.
  - intros name. unfold get. rewrite Hchain.
    destruct (lookup_chain (S s) h0 s name) as [[v w e c|g st e c]|] eqn:Hd; try done.
    apply call_getter_agree. intros f ->. eapply frame_cls; [done|].
    apply wf_lookup_chain in Hd; [|done..]. apply Hd.
Qed.

Lemma copied_names_stable h s :
  frame t h0 h -> s < length (objs h0) -> t ∉ ancestors (S s) h0 s ->
  copied_names kwArgs h s = copied_names kwArgs h0 s.
Proof.
  intros Hf Hs Hnot.
  destruct (read_stable h s Hf Hs Hnot) as (_ & _ & Hown & Hall & Hfor & Hhas & _).
  unfold copied_names. destruct (descriptors kwArgs).
  - by destruct (inherited kwArgs).
  - rewrite Hfor. apply list_filter_iff. intros name. by rewrite Hhas.
Qed.

Lemma source_descriptor_stable h s name :
  frame t h0 h -> s < length (objs h0) -> t ∉ ancestors (S s) h0 s ->
  source_descriptor kwArgs h s name = source_descriptor kwArgs h0 s name.
Proof.
  intros Hf Hs Hnot.
  destruct (read_stable h s Hf Hs Hnot) as (Hown & Hchain & _ & _ & _ & _ & Hget).
  unfold source_descriptor. destruct (descriptors kwArgs).
  - by destruct (inherited kwArgs).
  - by rewrite Hget.
Qed.

Lemma source_descriptor_wf s name d :
  s < length (objs h0) ->
  source_descriptor kwArgs h0 s name = Some d ->
  desc_ok (length (objs h0)) (length (arrs h0)) d.
Proof.
  intros Hs. unfold source_descriptor. destruct (descriptors kwArgs).
  - by apply source_read_wf.
  - intros [= <-]. by apply get_wf.
Qed.

Lemma ancestors_stable h n s :
  frame t h0 h -> s < length (objs h0) -> t ∉ ancestors n h0 s ->
  ancestors n h s = ancestors n h0 s.
Proof.
  intros Hf Hs Hnot. apply ancestors_agree. intros c Hc.
  eapply frame_get_obj; [done| |set_solver].
  apply (wf_ancestors_le h0 n s c) in Hc; [lia|done..].
Qed.

Lemma transferred_stable b h v v' :
  frame t h0 h -> val_ok (length (objs h0)) (length (arrs h0)) v ->
  transferred b N M h v v' ↔ transferred b N M h0 v v'.
Proof.
  intros Hf Hv. unfold transferred. destruct v; try done.
  rewrite (isObject_agree h0 h (VObj l)); [done|].
  intros l0 [= <-]. by eapply frame_cls.
Qed.
End Reads.

Section Writes.
Variable copy_rec : heap -> CopyArgs -> result (heap * loc).
Variable copyArray_rec : heap -> aloc -> CopyArgs -> result (heap * aloc).
Hypothesis copy_rec_frames : copy_frames copy_rec.
Hypothesis copyArray_rec_frames : copyArray_frames copyArray_rec.

Variable kwArgs : CopyArgs.
Variable t : loc.
Variable h0 : heap.
Variables N M : nat.
Hypothesis wf_h0 : wf_heap h0.
Hypothesis t_valid : t < length (objs h0).
Hypothesis N_le : N ≤ length (objs h0).
Hypothesis M_le : M ≤ length (arrs h0).

Lemma frame_target_chain h name :
  frame t h0 h ->
  lookup_chain (S t) h t name =
  match getOwnPropertyDescriptor h t name with
  | Some d => Some d
  | None =>
      match getPrototypeOf h0 t with
      | Some p => lookup_chain t h0 p name
      | None => None
      end
  end.
Proof.
  intros Hf. rewrite lookup_chain_own.
  destruct (getOwnPropertyDescriptor h t name); [done|].
  unfold getPrototypeOf. pose proof Hf as (_ & _ & Ht & _).
  destruct (Ht t_valid) as (-> & _).
  destruct (proto (get_obj h0 t)) as [p|] eqn:Hp; [|done].
  apply lookup_chain_agree. intros c Hc.
  assert (p < t) by (by apply (wf_heap_proto h0 t p)).
  apply (wf_ancestors_le h0 t p c) in Hc; [|done|lia].
  eapply frame_get_obj; [done|lia..].
Qed.

Lemma intercepted_inv h name :
  frame t h0 h -> own_inv h0 t h ->
  intercepted h t name = intercepted h0 t name.
Proof.
  intros Hf Hinv. unfold intercepted.
  rewrite (frame_target_chain h) by done.
  rewrite (frame_target_chain h0) by apply frame_refl.
  destruct (Hinv name) as [->|[Hint (v & Hv)]]; [done|].
  unfold intercepted in Hint.
  rewrite (frame_target_chain h0) in Hint by apply frame_refl.
  rewrite Hint. destruct (kept_attrs _) as [[w e] c]. by rewrite Hv.
Qed.

Lemma deepValue_transferred b h v h1 v' :
  deepValue copy_rec copyArray_rec b kwArgs h v = Ok (h1, v') ->
  frame t h0 h ->
  val_ok (length (objs h0)) (length (arrs h0)) v ->
  transferred true N M h0 v v'.
Proof.
  unfold deepValue, transferred. intros H Hf Hv.
  destruct v; simplify_eq; try done.
  - rewrite <- (isObject_agree h0 h (VObj l)).
    2:{ intros l0 [= <-]. by eapply frame_cls. }
    cbn [andb]. destruct (isObject h (VObj l)); simplify_eq; [|done].
    apply bind_Ok in H as ([h2 l'] & Hrec & H). simplify_eq.
    apply copy_rec_frames in Hrec. unfold given_target in Hrec. cbn in Hrec.
    exists l'. split; [done|]. apply frame_length in Hf.
    destruct (assignPrototype kwArgs); lia.
  - apply bind_Ok in H as ([h2 a'] & Hrec & H). simplify_eq.
    apply copyArray_rec_frames in Hrec.
    exists a'. split; [done|]. apply frame_arrs_length in Hf. lia.
Qed.

Lemma value_step b h v h1 v' :
  (if deep kwArgs then deepValue copy_rec copyArray_rec b kwArgs h v
   else Ok (h, v)) = Ok (h1, v') ->
  frame t h0 h ->
  val_ok (length (objs h0)) (length (arrs h0)) v ->
  transferred (deep kwArgs) N M h0 v v' ∧ preserves h h1.
Proof.
  intros H Hf Hv. destruct (deep kwArgs).
  - split; [by eapply deepValue_transferred|by eapply deepValue_preserves].
  - simplify_eq. split; [by apply transferred_shallow|apply preserves_refl].
Qed.

(** The loop of the [descriptors] branch: the names it does not visit keep
    their property on the target, the names it visits get the descriptor
    read from the source, with the value [deep] makes of it. *)
Lemma defineAll_spec s names : ∀ h h',
  defineAll copy_rec copyArray_rec kwArgs t s h names = Ok h' ->
  frame t h0 h -> s < length (objs h0) -> t ∉ ancestors (S s) h0 s ->
  (∀ name, name ∉ names →
     getOwnPropertyDescriptor h' t name = getOwnPropertyDescriptor h t name) ∧
  (∀ name, name ∈ names →
     ∃ d v', (if inherited kwArgs then getPropertyDescriptor
              else getOwnPropertyDescriptor) h0 s name = Some d ∧
             transferred (deep kwArgs) N M h0 (d_value d) v' ∧
             getOwnPropertyDescriptor h' t name = Some (d_set_value d v')).
Proof.
  induction names as [|name0 names IH]; intros h h' H Hf Hs Hnot; cbn in H.
  - simplify_eq. split; [done|]. intros name Hin. set_solver.
  - destruct (read_stable t h0 wf_h0 h s Hf Hs Hnot) as (Hown & Hget & _).
    assert (Hread : (if inherited kwArgs then getPropertyDescriptor
                     else getOwnPropertyDescriptor) h s name0 =
                    (if inherited kwArgs then getPropertyDescriptor
                     else getOwnPropertyDescriptor) h0 s name0)
      by (by destruct (inherited kwArgs)).
    rewrite Hread in H. clear Hread.
    destruct ((if inherited kwArgs then _ else _) h0 s name0) as [d|] eqn:Hd;
      [|done].
    apply bind_Ok in H as ([h1 d'] & Hdeep & H).
    apply bind_Ok in H as (h2 & Hdef & H).
    assert (∃ v', d' = d_set_value d v' ∧
                  transferred (deep kwArgs) N M h0 (d_value d) v' ∧
                  preserves h h1) as (v' & -> & Htr & Hp).
    { apply source_read_wf in Hd as Hok; [|done..].
      assert (Hvok : val_ok (length (objs h0)) (length (arrs h0)) (d_value d))
        by (by destruct d).
      destruct (deep kwArgs) eqn:Hdp.
      - apply bind_Ok in Hdeep as ([h3 v] & Hdeep & ?). simplify_eq.
        exists v. split; [done|].
        split; [by eapply deepValue_transferred|by eapply deepValue_preserves].
      - injection Hdeep as <- <-. exists (d_value d). rewrite d_set_value_id.
        split; [done|]. split; [by apply transferred_shallow|apply preserves_refl]. }
    apply defineProperty_spec in Hdef as ->.
    assert (Hf1 : frame t h0 h1)
      by (eapply frame_trans; [done|by apply preserves_frame]).
    assert (Ht1 : t < length (objs h1)) by (apply frame_length in Hf1; lia).
    assert (Hf2 : frame t h0 (set_prop h1 t name0 (d_set_value d v')))
      by (eapply frame_trans; [done|apply set_prop_frame]).
    destruct (IH _ _ H Hf2 Hs Hnot) as [IH1 IH2].
    assert (Hown1 : ∀ name, getOwnPropertyDescriptor h1 t name =
                            getOwnPropertyDescriptor h t name).
    { intros name. unfold getOwnPropertyDescriptor.
      rewrite (preserves_get_obj h h1); [done..|].
      apply frame_length in Hf. lia. }
    split.
    + intros name Hnin. rewrite IH1 by set_solver.
      rewrite own_set_prop by done. rewrite decide_False by set_solver. done.
    + intros name Hin. destruct (decide (name ∈ names)) as [Hin'|Hnin].
      * by apply IH2.
      * assert (name = name0) as -> by set_solver.
        exists d, v'. split; [done|]. split; [done|].
        rewrite IH1 by done. rewrite own_set_prop by done.
        by rewrite decide_True.
Qed.

Lemma own_inv_ext h h1 :
  (∀ name, getOwnPropertyDescriptor h1 t name = getOwnPropertyDescriptor h t name) ->
  own_inv h0 t h -> own_inv h0 t h1.
Proof. intros Heq Hinv name. rewrite Heq. apply Hinv. Qed.

Lemma kept_attrs_inv h name :
  own_inv h0 t h ->
  kept_attrs (getOwnPropertyDescriptor h t name) =
  kept_attrs (getOwnPropertyDescriptor h0 t name).
Proof.
  intros Hinv. destruct (Hinv name) as [->|[_ (v & Hv)]]; [done|].
  destruct (kept_attrs (getOwnPropertyDescriptor h0 t name)) as [[w e] c].
  by rewrite Hv.
Qed.

(** The [for...in] loop: the names it does not assign keep their property
    on the target; a name it assigns, unless a setter takes the
    assignment, is a data property of the target holding the value read
    from the source, or what [deep] makes of it. *)
Lemma assignAll_spec s names : ∀ h h',
  assignAll copy_rec copyArray_rec kwArgs t s h names = Ok h' ->
  frame t h0 h -> own_inv h0 t h ->
  s < length (objs h0) -> t ∉ ancestors (S s) h0 s ->
  own_inv h0 t h' ∧
  (∀ name,
     name ∉ filter (fun name => inherited kwArgs || hasOwnProperty h0 s name = true) names →
     getOwnPropertyDescriptor h' t name = getOwnPropertyDescriptor h t name) ∧
  (∀ name,
     name ∈ filter (fun name => inherited kwArgs || hasOwnProperty h0 s name = true) names →
     intercepted h0 t name = false →
     ∃ v' w e c, transferred (deep kwArgs) N M h0 (get h0 s name) v' ∧
                 kept_attrs (getOwnPropertyDescriptor h0 t name) = (w, e, c) ∧
                 getOwnPropertyDescriptor h' t name = Some (Data v' w e c)).
Proof.
  induction names as [|name0 names IH]; intros h h' H Hf Hinv Hs Hnot; cbn in H.
  - simplify_eq. split; [done|]. split; [done|]. intros name Hin. set_solver.
  - destruct (read_stable t h0 wf_h0 h s Hf Hs Hnot) as (_ & _ & _ & _ & _ & Hhas & Hget).
    rewrite Hhas, Hget in H. rewrite filter_cons.
    destruct (decide (inherited kwArgs || hasOwnProperty h0 s name0 = true))
      as [Hcond|Hcond].
    2:{ apply not_true_is_false in Hcond. rewrite Hcond in H. by eapply IH. }
    rewrite Hcond in H.
    apply bind_Ok in H as ([h1 v] & Hdeep & H).
    apply bind_Ok in H as (h2 & Hput & H).
    apply value_step in Hdeep as [Htr Hp]; [|done|by apply get_wf].
    assert (Hf1 : frame t h0 h1)
      by (eapply frame_trans; [done|by apply preserves_frame]).
    assert (Ht1 : t < length (objs h1)) by (apply frame_length in Hf1; lia).
    assert (Hown1 : ∀ name, getOwnPropertyDescriptor h1 t name =
                            getOwnPropertyDescriptor h t name).
    { intros name. unfold getOwnPropertyDescriptor.
      rewrite (preserves_get_obj h h1); [done..|].
      apply frame_length in Hf. lia. }
    pose proof (own_inv_ext h h1 Hown1 Hinv) as Hinv1.
    apply put_spec in Hput.
    rewrite (intercepted_inv h1 name0 Hf1 Hinv1) in Hput.
    destruct Hput as [[Hint ->]|(Hint & w & e & c & Hattrs & ->)].
    + destruct (IH _ _ H Hf1 Hinv1 Hs Hnot) as (IH0 & IH1 & IH2).
      split; [done|]. split.
      * intros name Hnin. rewrite IH1 by set_solver. apply Hown1.
      * intros name Hin Hnint. apply IH2; [|done].
        apply elem_of_cons in Hin as [->|Hin]; [congruence|done].
    + rewrite (kept_attrs_inv h1 name0 Hinv1) in Hattrs.
      assert (Hf2 : frame t h0 (set_prop h1 t name0 (Data v w e c)))
        by (eapply frame_trans; [done|apply set_prop_frame]).
      assert (Hinv2 : own_inv h0 t (set_prop h1 t name0 (Data v w e c))).
      { intros name. rewrite own_set_prop by done.
        destruct (decide (name0 = name)) as [<-|Hne]; [|apply Hinv1].
        right. split; [done|]. exists v. by rewrite Hattrs. }
      destruct (IH _ _ H Hf2 Hinv2 Hs Hnot) as (IH0 & IH1 & IH2).
      split; [done|]. split.
      * intros name Hnin. rewrite IH1 by set_solver.
        rewrite own_set_prop by done. rewrite decide_False by set_solver.
        apply Hown1.
      * intros name Hin Hnint.
        destruct (decide (name ∈ filter
                    (fun name => inherited kwArgs || hasOwnProperty h0 s name = true)
                    names)) as [Hin'|Hnin]; [by apply IH2|].
        assert (name = name0) as -> by set_solver.
        exists v, w, e, c. split; [done|]. split; [done|].
        rewrite IH1 by done. rewrite own_set_prop by done.
        by rewrite decide_True.
Qed.

Lemma copySource_spec s h h' :
  copySource copy_rec copyArray_rec kwArgs t h s = Ok h' ->
  frame t h0 h -> (descriptors kwArgs = false → own_inv h0 t h) ->
  s < length (objs h0) -> t ∉ ancestors (S s) h0 s ->
  (descriptors kwArgs = false → own_inv h0 t h') ∧
  (∀ name, name ∉ copied_names kwArgs h0 s →
     getOwnPropertyDescriptor h' t name = getOwnPropertyDescriptor h t name) ∧
  (∀ name, name ∈ copied_names kwArgs h0 s →
     (descriptors kwArgs = false → intercepted h0 t name = false) →
     ∃ d d', source_descriptor kwArgs h0 s name = Some d ∧
             received kwArgs N M h0 t name d d' ∧
             getOwnPropertyDescriptor h' t name = Some d').
Proof.
  intros H Hf Hinv Hs Hnot. unfold copySource in H.
  pose proof (copied_names_stable kwArgs t h0 wf_h0 h s Hf Hs Hnot) as Hnames.
  unfold copied_names, source_descriptor, received in *.
  destruct (descriptors kwArgs) eqn:Hdesc.
  - rewrite Hnames in H.
    destruct (defineAll_spec _ _ _ _ H Hf Hs Hnot) as [H1 H2].
    split; [done|]. split; [done|].
    intros name Hin _. destruct (H2 name Hin) as (d & v' & Hd & Htr & Hown).
    exists d, (d_set_value d v'). eauto.
  - destruct (read_stable t h0 wf_h0 h s Hf Hs Hnot) as (_ & _ & _ & _ & Hfor & _).
    rewrite Hfor in H.
    destruct (assignAll_spec _ _ _ _ H Hf (Hinv eq_refl) Hs Hnot) as (H0 & H1 & H2).
    split; [done|]. split; [done|].
    intros name Hin Hnint.
    destruct (H2 name Hin (Hnint eq_refl)) as (v' & w & e & c & Htr & Hattrs & Hown).
    exists (Data (get h0 s name) true true true), (Data v' w e c).
    split; [done|]. split; [|done].
    exists v'. split; [done|]. by rewrite Hattrs.
Qed.

(** All the sources, in array order: for every name, the last source that
    defines it decides what the target holds. *)
Lemma copySources_spec srcs : ∀ h h',
  copySources copy_rec copyArray_rec kwArgs t h srcs = Ok h' ->
  frame t h0 h -> (descriptors kwArgs = false → own_inv h0 t h) ->
  Forall (fun s => s < length (objs h0) ∧ t ∉ ancestors (S s) h0 s) srcs ->
  (descriptors kwArgs = false → own_inv h0 t h') ∧
  (∀ name, (∀ s, s ∈ srcs → name ∉ copied_names kwArgs h0 s) →
     getOwnPropertyDescriptor h' t name = getOwnPropertyDescriptor h t name) ∧
  (∀ name srcs1 s srcs2,
     srcs = srcs1 ++ s :: srcs2 →
     name ∈ copied_names kwArgs h0 s →
     (∀ s', s' ∈ srcs2 → name ∉ copied_names kwArgs h0 s') →
     (descriptors kwArgs = false → intercepted h0 t name = false) →
     ∃ d d', source_descriptor kwArgs h0 s name = Some d ∧
             received kwArgs N M h0 t name d d' ∧
             getOwnPropertyDescriptor h' t name = Some d').
Proof.
  induction srcs as [|s0 srcs IH]; intros h h' H Hf Hinv Hall; cbn in H.
  - simplify_eq. split; [done|]. split; [done|].
    intros name srcs1 s srcs2 Heq. by destruct srcs1.
  - apply Forall_cons in Hall as [[Hs0 Hnot0] Hall].
    apply bind_Ok in H as (h1 & Hsrc & H).
    pose proof (copySource_frame _ _ copy_rec_frames copyArray_rec_frames
                  _ _ _ _ _ Hsrc) as Hf01.
    assert (Hf1 : frame t h0 h1) by (by eapply frame_trans).
    destruct (copySource_spec _ _ _ Hsrc Hf Hinv Hs0 Hnot0) as (Hinv1 & S1 & S2).
    destruct (IH _ _ H Hf1 Hinv1 Hall) as (Hinv' & R1 & R2).
    split; [done|]. split.
    + intros name Hnone. rewrite R1 by (intros s Hs; apply Hnone; set_solver).
      apply S1. apply Hnone. set_solver.
    + intros name srcs1 s srcs2 Heq Hin Hlater Hnint.
      destruct srcs1 as [|s1 srcs1]; cbn in Heq; simplify_eq.
      * destruct (S2 name Hin Hnint) as (d & d' & Hd & Hrec & Hown).
        exists d, d'. split; [done|]. split; [done|].
        by rewrite R1.
      * by eapply R2.
Qed.
Lemma put_own_inv h name v h2 :
  put h t name v = Ok h2 -> frame t h0 h -> own_inv h0 t h -> own_inv h0 t h2.
Proof.
  intros Hput Hf Hinv.
  assert (Ht : t < length (objs h)) by (apply frame_length in Hf; lia).
  apply put_spec in Hput. rewrite (intercepted_inv h name Hf Hinv) in Hput.
  destruct Hput as [[Hint ->]|(Hint & w & e & c & Hattrs & ->)]; [done|].
  rewrite (kept_attrs_inv h name Hinv) in Hattrs.
  intros name'. rewrite own_set_prop by done.
  destruct (decide (name = name')) as [<-|Hne]; [|apply Hinv].
  right. split; [done|]. exists v. by rewrite Hattrs.
Qed.

Lemma put_total h name v :
  frame t h0 h -> own_inv h0 t h -> accepts_assignments h0 t ->
  ∃ h2, put h t name v = Ok h2.
Proof.
  intros Hf Hinv [Hext Hacc].
  assert (Hext' : extensible (get_obj h t) = true).
  { pose proof Hf as (_ & _ & Ht & _). by destruct (Ht t_valid) as (_ & _ & ->). }
  pose proof (Hacc name) as Hacc0.
  rewrite (frame_target_chain h0) in Hacc0 by apply frame_refl.
  unfold put. rewrite (frame_target_chain h) by done. rewrite Hext'.
  destruct (Hinv name) as [Heq|[_ (v1 & Hv1)]].
  - rewrite Heq. destruct (getOwnPropertyDescriptor h0 t name) as [d|].
    + destruct (Hacc0 d eq_refl) as (v0 & e & c & ->). eauto.
    + destruct (getPrototypeOf h0 t) as [p|]; [|eauto].
      destruct (lookup_chain t h0 p name) as [d|]; [|eauto].
      destruct (Hacc0 d eq_refl) as (v0 & e & c & ->). eauto.
  - destruct (getOwnPropertyDescriptor h0 t name) as [d|].
    + destruct (Hacc0 d eq_refl) as (v0 & e & c & ->). cbn in Hv1.
      rewrite Hv1. eauto.
    + cbn in Hv1. rewrite Hv1. eauto.
Qed.

Lemma assignAll_total s names : ∀ h,
  deep kwArgs = false -> accepts_assignments h0 t ->
  frame t h0 h -> own_inv h0 t h ->
  ∃ h', assignAll copy_rec copyArray_rec kwArgs t s h names = Ok h' ∧
        frame t h0 h' ∧ own_inv h0 t h'.
Proof.
  intros h Hdeep Hacc. revert h.
  induction names as [|name names IH]; intros h Hf Hinv; cbn; [eauto|].
  destruct (inherited kwArgs || hasOwnProperty h s name); [|by apply IH].
  rewrite Hdeep. cbn.
  destruct (put_total h name (get h s name) Hf Hinv Hacc) as [h2 Hput].
  rewrite Hput. cbn. apply IH.
  - eapply frame_trans; [done|by eapply put_frame].
  - by eapply put_own_inv.
Qed.

Lemma copySources_total srcs : ∀ h,
  deep kwArgs = false -> descriptors kwArgs = false ->
  accepts_assignments h0 t ->
  frame t h0 h -> own_inv h0 t h ->
  ∃ h', copySources copy_rec copyArray_rec kwArgs t h srcs = Ok h'.
Proof.
  intros h Hdeep Hdesc Hacc. revert h.
  induction srcs as [|s srcs IH]; intros h Hf Hinv; cbn; [eauto|].
  unfold copySource. rewrite Hdesc.
  destruct (assignAll_total s (forInKeys (S s) h s []) h Hdeep Hacc Hf Hinv)
    as (h1 & -> & Hf1 & Hinv1).
  cbn. by apply IH.
Qed.

End Writes.

(** The target as [copy] finds or makes it, and what it holds when [copy]
    returns: for every name, what the last source that defines it carries
    over, unless the name resolves on the target to an accessor property
    and the assignment is handed to its setter. *)
Lemma copy_spec n h kwArgs h' t source0 rest h0 t0 :
  wf_heap h ->
  sources kwArgs = source0 :: rest ->
  Forall (fun s => s < length (objs h)) (sources kwArgs) ->
  (∀ g, given_target kwArgs = Some g →
        g < length (objs h) ∧ ∀ s, s ∈ sources kwArgs → g ∉ ancestors (S s) h s) ->
  makeTarget h kwArgs source0 = (h0, t0) ->
  copy n h kwArgs = Ok (h', t) ->
  t = t0 ∧ wf_heap h0 ∧ t0 < length (objs h0) ∧
  (∀ name, (∀ s, s ∈ sources kwArgs → name ∉ copied_names kwArgs h s) →
     getOwnPropertyDescriptor h' t name = getOwnPropertyDescriptor h0 t name) ∧
  (∀ name srcs1 s srcs2,
     sources kwArgs = srcs1 ++ s :: srcs2 →
     name ∈ copied_names kwArgs h s →
     (∀ s', s' ∈ srcs2 → name ∉ copied_names kwArgs h s') →
     if negb (descriptors kwArgs) && intercepted h0 t name
     then getOwnPropertyDescriptor h' t name = getOwnPropertyDescriptor h0 t name
     else ∃ d d', source_descriptor kwArgs h s name = Some d ∧
                  received kwArgs (length (objs h)) (length (arrs h)) h0 t name d d' ∧
                  getOwnPropertyDescriptor h' t name = Some d').
Proof.
  intros Hwf Hsrcs Hvalid Hgiven Hmk Hcopy.
  destruct n as [|n]; [done|]. cbn [copy] in Hcopy. unfold copy_body in Hcopy.
  destruct (copy_copyArray_frames n) as [Hfr1 Hfr2].
  rewrite Hsrcs, Hmk in Hcopy. rewrite <- Hsrcs in Hcopy.
  apply bind_Ok in Hcopy as (h1 & Hcs & Hcopy). injection Hcopy as <- <-.
  assert (Hs0 : source0 < length (objs h)).
  { rewrite Hsrcs in Hvalid. by apply Forall_inv in Hvalid. }
  pose proof (makeTarget_wf _ _ _ _ _ Hmk Hwf Hs0) as Hwf0.
  apply makeTarget_spec in Hmk.
  assert (Hbase : frame t0 h h0 ∧ t0 < length (objs h0) ∧
                  length (objs h) ≤ length (objs h0) ∧
                  length (arrs h) ≤ length (arrs h0) ∧
                  ∀ s, s ∈ sources kwArgs → t0 ∉ ancestors (S s) h s).
  { destruct (given_target kwArgs) as [g|].
    - destruct Hmk as [-> ->]. destruct (Hgiven g eq_refl) as [Hg Hnot].
      split; [apply frame_refl|]. done.
    - destruct Hmk as (-> & Hp & Hlen).
      split; [by apply preserves_frame|]. split; [lia|]. split; [lia|].
      split; [by apply preserves_arrs_length|].
      intros s Hs Hin. rewrite Forall_forall in Hvalid.
      apply (wf_ancestors_le h (S s) s) in Hin; [|done|by apply Hvalid].
      apply Hvalid in Hs. lia. }
  destruct Hbase as (Hf0 & Ht0 & HN & HM & Hnot).
  assert (Hall : Forall (fun s => s < length (objs h0) ∧
                                  t0 ∉ ancestors (S s) h0 s) (sources kwArgs)).
  { rewrite Forall_forall in Hvalid. apply Forall_forall. intros s Hs.
    split; [apply Hvalid in Hs; lia|].
    rewrite (ancestors_stable t0 h Hwf h0 (S s) s); auto. }
  assert (Hnames : ∀ s, s ∈ sources kwArgs →
                        copied_names kwArgs h0 s = copied_names kwArgs h s).
  { intros s Hs. rewrite Forall_forall in Hvalid.
    apply (copied_names_stable kwArgs t0 h Hwf h0 s); auto. }
  assert (Hdescs : ∀ s name, s ∈ sources kwArgs →
             source_descriptor kwArgs h0 s name = source_descriptor kwArgs h s name).
  { intros s name Hs. rewrite Forall_forall in Hvalid.
    apply (source_descriptor_stable kwArgs t0 h Hwf h0 s); auto. }
  destruct (copySources_spec _ _ Hfr1 Hfr2 kwArgs t0 h0
              (length (objs h)) (length (arrs h)) Hwf0 Ht0 HN HM
              _ _ _ Hcs (frame_refl _ _) (fun _ name => or_introl eq_refl) Hall)
    as (Hinv & R1 & R2).
  split; [done|]. split; [done|]. split; [done|]. split.
  - intros name Hnone. apply R1. intros s Hs. rewrite Hnames by done. by apply Hnone.
  - intros name srcs1 s srcs2 Heq Hin Hlater.
    assert (Hs : s ∈ sources kwArgs) by (rewrite Heq; set_solver).
    destruct (descriptors kwArgs) eqn:Hdesc; cbn [negb andb].
    + rewrite <- Hdescs by done. eapply R2; [done| | |done].
      * by rewrite Hnames.
      * intros s' Hs'. rewrite Hnames by (rewrite Heq; set_solver). by apply Hlater.
    + destruct (intercepted h0 t0 name) eqn:Hint.
      * destruct (Hinv eq_refl name) as [Heq'|[Hn _]]; [done|congruence].
      * rewrite <- Hdescs by done. eapply R2; [done| | |done].
        -- by rewrite Hnames.
        -- intros s' Hs'. rewrite Hnames by (rewrite Heq; set_solver).
           by apply Hlater.
Qed.

(** ** The names [copy] takes from a source *)

Lemma assoc_Some_elem name ps d : assoc name ps = Some d -> (name, d) ∈ ps.
Proof.
  induction ps as [|[k d0] ps IH]; cbn; [done|].
  destruct (decide (k = name)) as [->|_].
  - intros [= ->]. set_solver.
  - intros H. apply IH in H. set_solver.
Qed.

Lemma assoc_None name ps : assoc name ps = None ↔ name ∉ ps.*1.
Proof.
  induction ps as [|[k d0] ps IH]; cbn; [set_solver|].
  destruct (decide (k = name)) as [->|Hne]; [set_solver|].
  rewrite IH. set_solver.
Qed.

Lemma own_name_elem h l name d :
  getOwnPropertyDescriptor h l name = Some d -> name ∈ getOwnPropertyNames h l.
Proof.
  unfold getOwnPropertyDescriptor, getOwnPropertyNames. intros H.
  destruct (decide (name ∈ (props (get_obj h l)).*1)) as [|Hn]; [done|].
  apply assoc_None in Hn. congruence.
Qed.

(** A [for...in] loop visits every name that resolves to an enumerable
    property. *)
Lemma forInKeys_resolved n h name d : ∀ l visited,
  lookup_chain n h l name = Some d -> d_enumerable d = true ->
  name ∉ visited -> name ∈ forInKeys n h l visited.
Proof.
  induction n as [|n IH]; intros l visited; cbn; [done|].
  unfold getOwnPropertyDescriptor.
  destruct (assoc name (props (get_obj h l))) as [d0|] eqn:Hown.
  - intros [= ->] Hen Hvis. apply elem_of_app. left.
    apply assoc_Some_elem in Hown.
    apply list_elem_of_fmap. exists (name, d). split; [done|].
    apply list_elem_of_filter. done.
  - destruct (getPrototypeOf h l) as [p|]; [|done].
    intros Hd Hen Hvis. apply elem_of_app. right.
    apply IH; [done..|]. apply assoc_None in Hown. set_solver.
Qed.

Lemma copied_names_own kwArgs h s name d :
  getOwnPropertyDescriptor h s name = Some d -> d_enumerable d = true ->
  name ∈ copied_names kwArgs h s.
Proof.
  intros Hown Hen. unfold copied_names. destruct (descriptors kwArgs).
  - destruct (inherited kwArgs); [|by eapply own_name_elem].
    unfold getPropertyNames. rewrite getPropertyNames_loop_spec.
    rewrite app_nil_l. apply elem_of_first_seen. split; [|set_solver].
    unfold names_of_levels. cbn [map concat]. apply elem_of_app. left.
    by eapply own_name_elem.
  - apply list_elem_of_filter. split.
    + unfold hasOwnProperty. rewrite Hown.
      rewrite bool_decide_eq_true_2 by eauto. by rewrite orb_true_r.
    + eapply forInKeys_resolved; [|done|set_solver].
      rewrite lookup_chain_own. by rewrite Hown.
Qed.



(** ** copy: every source property, the later source winning *)




(** ** Copies of nested values *)

Lemma lookup_chain_fuel h name : ∀ n m l,
  wf_heap h -> l < length (objs h) -> l < n -> l < m ->
  lookup_chain n h l name = lookup_chain m h l name.
Proof.
  induction n as [|n IH]; intros m l Hwf Hl Hn Hm; [lia|].
  destruct m as [|m]; [lia|]. rewrite !lookup_chain_own.
  destruct (getOwnPropertyDescriptor h l name); [done|].
  destruct (getPrototypeOf h l) as [p|] eqn:Hp; [|done].
  apply (wf_heap_proto h l p Hwf Hl) in Hp. apply IH; [done|lia..].
Qed.

Lemma forInKeys_NoDup h n : ∀ l visited,
  wf_heap h -> l < length (objs h) ->
  NoDup (forInKeys n h l visited) ∧
  ∀ name, name ∈ forInKeys n h l visited → name ∉ visited.
Proof.
  induction n as [|n IH]; intros l visited Hwf Hl; cbn.
  - split; [constructor|set_solver].
  - destruct (wf_heap_object h l Hwf Hl) as (_ & _ & Hnd & _).
    set (own := props (get_obj h l)) in *.
    set (here := (filter _ own).*1).
    assert (Hhere : NoDup here ∧ ∀ name, name ∈ here → name ∈ own.*1 ∧ name ∉ visited).
    { split.
      - apply (sublist_NoDup here own.*1); [exact Hnd|].
        apply fmap_sublist, sublist_filter.
      - intros name Hin. apply list_elem_of_fmap in Hin as ([k d] & -> & Hin).
        apply list_elem_of_filter in Hin as [[_ Hvis] Hin]. cbn in *.
        split; [|done]. apply list_elem_of_fmap. by exists (k, d). }
    destruct Hhere as [Hnd1 Hsub].
    destruct (getPrototypeOf h l) as [p|] eqn:Hp.
    + apply (wf_heap_proto h l p Hwf Hl) in Hp.
      destruct (IH p (visited ++ own.*1) Hwf ltac:(lia)) as [Hnd2 Hvis2].
      split.
      * apply NoDup_app. split; [done|]. split; [|done].
        intros name Hin1 Hin2. apply Hvis2 in Hin2. apply Hsub in Hin1.
        set_solver.
      * intros name [Hin|Hin]%elem_of_app.
        -- by apply Hsub.
        -- apply Hvis2 in Hin. set_solver.
    + rewrite app_nil_r. split; [done|]. intros name Hin. by apply Hsub.
Qed.

Lemma copied_names_NoDup kwArgs h l :
  wf_heap h -> l < length (objs h) -> NoDup (copied_names kwArgs h l).
Proof.
  intros Hwf Hl. unfold copied_names. destruct (descriptors kwArgs).
  - destruct (inherited kwArgs).
    + unfold getPropertyNames. rewrite getPropertyNames_loop_spec.
      apply NoDup_first_seen.
    + by destruct (wf_heap_object h l Hwf Hl) as (_ & _ & Hnd & _).
  - apply NoDup_filter. by apply forInKeys_NoDup.
Qed.

(** With [descriptors], every name taken from a source has a descriptor
    to read. *)
Lemma lookup_chain_levels h name : ∀ n l c,
  c ∈ l :: proto_chain n h (getPrototypeOf h l) ->
  name ∈ getOwnPropertyNames h c ->
  is_Some (lookup_chain (S n) h l name).
Proof.
  induction n as [|n IH]; intros l c Hc Hname; rewrite lookup_chain_own.
  - destruct (getOwnPropertyDescriptor h l name) as [d|] eqn:Hown; [done|].
    assert (c = l) as -> by (cbn in Hc; set_solver).
    apply assoc_None in Hown. done.
  - destruct (getOwnPropertyDescriptor h l name) as [d|] eqn:Hown; [done|].
    apply elem_of_cons in Hc as [->|Hc].
    { apply assoc_None in Hown. done. }
    destruct (getPrototypeOf h l) as [p|]; [|set_solver].
    cbn in Hc. destruct (decide (p = ObjectPrototype)); [set_solver|].
    by apply (IH p c).
Qed.

Lemma source_descriptor_is_Some kwArgs h l name :
  name ∈ copied_names kwArgs h l -> is_Some (source_descriptor kwArgs h l name).
Proof.
  unfold copied_names, source_descriptor. destruct (descriptors kwArgs); [|done].
  destruct (inherited kwArgs).
  - unfold getPropertyNames, getPropertyDescriptor.
    rewrite getPropertyNames_loop_spec, app_nil_l.
    intros [Hin _]%elem_of_first_seen.
    apply list_elem_of_In, in_concat in Hin as (ns & Hns & Hname).
    apply in_map_iff in Hns as (c & <- & Hc).
    apply (lookup_chain_levels h name l l c); by apply list_elem_of_In.
  - unfold getOwnPropertyNames, getOwnPropertyDescriptor. intros Hin.
    destruct (assoc name (props (get_obj h l))) eqn:Hown; [done|].
    by apply assoc_None in Hown.
Qed.

Section NestedReads.
Variable F : CopyArgs.
Variable h : heap.
Hypothesis wf_h : wf_heap h.

(** What [copy] reads of an object of [h] in a store that has only
    grown. *)
Lemma preserves_reads hi l :
  preserves h hi -> l < length (objs h) ->
  copied_names F hi l = copied_names F h l ∧
  (∀ name, source_descriptor F hi l name = source_descriptor F h l name) ∧
  new_proto F hi l = new_proto F h l ∧
  isObject hi (VObj l) = isObject h (VObj l).
Proof.
  intros Hp Hl.
  pose proof (preserves_frame (length (objs h)) h hi Hp) as Hf.
  assert (Hnot : length (objs h) ∉ ancestors (S l) h l).
  { intros Hin. apply (wf_ancestors_le h (S l) l) in Hin; [lia|done..]. }
  split; [by eapply copied_names_stable|].
  split; [intros name; by eapply source_descriptor_stable|].
  split.
  - unfold new_proto, getPrototypeOf. by rewrite (preserves_get_obj h hi).
  - cbn. by rewrite (preserves_get_obj h hi).
Qed.

Lemma preserves_takes hi p name :
  preserves h hi ->
  match p with Some q => q < length (objs h) | None => True end ->
  takes hi p name ↔ takes h p name.
Proof.
  intros Hp Hq. unfold takes. destruct p as [q|]; [|done].
  rewrite (lookup_chain_agree (S q) h hi name q); [done|].
  intros c Hc. apply (preserves_get_obj h hi); [done|].
  apply (wf_ancestors_le h (S q) q) in Hc; [lia|done..].
Qed.

Lemma new_proto_valid l :
  l < length (objs h) ->
  match new_proto F h l with Some q => q < length (objs h) | None => True end.
Proof.
  intros Hl. unfold new_proto. destruct (assignPrototype F).
  - destruct (getPrototypeOf h l) as [p|] eqn:Hp; [|done].
    apply wf_heap_proto in Hp; [lia|done..].
  - apply wf_h.
Qed.

Lemma copyable_preserves n : ∀ hi v,
  preserves h hi -> val_ok (length (objs h)) (length (arrs h)) v ->
  copyable n F h v -> copyable n F hi v.
Proof.
  induction n as [|n IH]; intros hi v Hp Hv.
  - destruct v; cbn; try done.
    destruct (preserves_reads hi l Hp Hv) as (_ & _ & _ & Hobj).
    cbn in Hobj. by rewrite Hobj.
  - destruct v; cbn; try done.
    + destruct (preserves_reads hi l Hp Hv) as (Hnames & Hdesc & Hproto & Hobj).
      cbn in Hobj. rewrite Hobj. intros Hc Hobj'. specialize (Hc Hobj').
      unfold props_copyable in *. rewrite Hnames.
      eapply Forall_impl; [exact Hc|]. intros name. cbn. rewrite Hdesc.
      destruct (source_descriptor F h l name) as [d|] eqn:Hd; [|done].
      intros [Htakes Hdeep]. split.
      * intros Hdescs. rewrite Hproto. apply preserves_takes; [done| |by apply Htakes].
        by apply new_proto_valid.
      * intros Hdp. apply IH; [done| |by apply Hdeep].
        apply source_descriptor_wf in Hd; [|done..]. by destruct d.
    + rewrite (preserves_get_arr h hi) by done. intros Hall.
      destruct wf_h as (_ & _ & Harr).
      specialize (Harr a Hv).
      induction Hall as [|item items Hitem Hall IHall]; [constructor|].
      apply Forall_cons in Harr as [Hok Harr].
      constructor; [by apply IH|by apply IHall].
Qed.

(** A copy described against a grown store is a copy of the value as it
    was in [h]. *)
Lemma clone_source n L LM : ∀ hi h' v v',
  preserves h hi -> val_ok (length (objs h)) (length (arrs h)) v ->
  clone n F L LM hi h' v v' -> clone n F L LM h h' v v'.
Proof.
  induction n as [|n IH]; intros hi h' v v' Hp Hv.
  - destruct v; cbn; try done; try (by intros (? & _ & _ & _ & [])).
    destruct (preserves_reads hi l Hp Hv) as (_ & _ & _ & Hobj).
    cbn in Hobj. by rewrite Hobj.
  - destruct v; cbn; try done.
    + destruct (preserves_reads hi l Hp Hv) as (Hnames & Hdesc & Hproto & Hobj).
      cbn in Hobj. rewrite Hobj.
      destruct (match cls (get_obj h l) with
                | CFunction _ | CRegExp => false | _ => true end); [|done].
      intros (l' & -> & HL & Hl' & Hpr & Hcls & Hprops).
      exists l'. split; [done|]. split; [done|]. split; [done|].
      unfold clone_props in *. rewrite <- Hproto. split; [done|]. split; [done|].
      intros name. specialize (Hprops name). rewrite Hnames, Hdesc in Hprops.
      destruct (decide (name ∈ copied_names F h l)); [|done].
      destruct (source_descriptor F h l name) as [d|] eqn:Hd; [|done].
      destruct Hprops as (v' & Hown & Hv'). exists v'. split; [done|].
      destruct (deep F); [|done]. eapply IH; [done| |done].
      apply source_descriptor_wf in Hd; [|done..]. by destruct d.
    + rewrite (preserves_get_arr h hi) by done.
      intros (a' & -> & HLM & Ha' & Hall).
      exists a'. split; [done|]. split; [done|]. split; [done|].
      destruct wf_h as (_ & _ & Harr). specialize (Harr a Hv).
      induction Hall as [|item item' items items' Hitem Hall IHall]; [constructor|].
      apply Forall_cons in Harr as [Hok Harr].
      constructor; [by eapply IH|by apply IHall].
Qed.
End NestedReads.

(** A copy stays a copy while the store changes only below the new objects
    it is made of. *)
Lemma clone_stable n F L LM h : ∀ h1 h2 v v',
  length (objs h1) ≤ length (objs h2) ->
  (∀ l', L ≤ l' → l' < length (objs h1) → get_obj h2 l' = get_obj h1 l') ->
  arrs h1 `prefix_of` arrs h2 ->
  clone n F L LM h h1 v v' -> clone n F L LM h h2 v v'.
Proof.
  induction n as [|n IH]; intros h1 h2 v v' Hlen Hsame Hpre.
  - destruct v; cbn; try done; try (by intros (? & _ & _ & _ & [])).
    destruct (match cls (get_obj h l) with
              | CFunction _ | CRegExp => false | _ => true end); [|done].
    by intros (l' & _ & _ & _ & []).
  - destruct v; cbn; try done.
    + destruct (match cls (get_obj h l) with
                | CFunction _ | CRegExp => false | _ => true end); [|done].
      intros (l' & -> & HL & Hl' & Hpr & Hcls & Hprops).
      exists l'. split; [done|]. split; [done|]. split; [lia|].
      unfold clone_props, getOwnPropertyDescriptor in *.
      rewrite (Hsame l') by done. split; [done|]. split; [done|].
      intros name. specialize (Hprops name).
      destruct (if decide (name ∈ copied_names F h l)
                then source_descriptor F h l name else None) as [d|]; [|done].
      destruct Hprops as (v' & Hown & Hv'). exists v'. split; [done|].
      destruct (deep F); [|done]. by eapply IH.
    + intros (a' & -> & HLM & Ha' & Hall).
      exists a'. split; [done|]. split; [done|].
      destruct Hpre as [k Hk]. split.
      { rewrite Hk, length_app. lia. }
      assert (Harr : get_arr h2 a' = get_arr h1 a').
      { unfold get_arr. rewrite Hk. by rewrite lookup_app_l. }
      rewrite Harr. eapply Forall2_impl; [exact Hall|].
      intros item item'. apply IH; [done..|by exists k].
Qed.

Lemma clone_bound n F L LM L0 LM0 h h' : ∀ v v',
  L0 ≤ L -> LM0 ≤ LM ->
  clone n F L LM h h' v v' -> clone n F L0 LM0 h h' v v'.
Proof.
  induction n as [|n IH]; intros v v' HL HLM.
  - destruct v; cbn; try done; try (by intros (? & _ & _ & _ & [])).
    destruct (match cls (get_obj h l) with
              | CFunction _ | CRegExp => false | _ => true end); [|done].
    by intros (l' & _ & _ & _ & []).
  - destruct v; cbn; try done.
    + destruct (match cls (get_obj h l) with
                | CFunction _ | CRegExp => false | _ => true end); [|done].
      intros (l' & -> & HL' & Hl' & Hpr & Hcls & Hprops).
      exists l'. split; [done|]. split; [lia|]. split; [done|].
      split; [done|]. split; [done|].
      intros name. specialize (Hprops name).
      destruct (if decide (name ∈ copied_names F h l)
                then source_descriptor F h l name else None) as [d|]; [|done].
      destruct Hprops as (v' & Hown & Hv'). exists v'. split; [done|].
      destruct (deep F); [|done]. by apply IH.
    + intros (a' & -> & HLM' & Ha' & Hall).
      exists a'. split; [done|]. split; [lia|]. split; [done|].
      eapply Forall2_impl; [exact Hall|]. intros item item'. by apply IH.
Qed.

Lemma clone_by_reference n F L LM h h' v :
  match v with
  | VObj l => isObject h v = false
  | VArr _ => False
  | _ => True
  end ->
  clone n F L LM h h' v v.
Proof.
  destruct n, v; cbn; try done; by intros ->.
Qed.

Lemma unchanged_clone n F hi v :
  wf_heap hi -> val_ok (length (objs hi)) (length (arrs hi)) v ->
  match v with
  | VObj l => isObject hi v = false
  | VArr _ => False
  | _ => True
  end ->
  ∃ h1 v', Ok (hi, v) = Ok (h1, v') ∧
           clone n F (length (objs hi)) (length (arrs hi)) hi h1 v v' ∧
           preserves hi h1 ∧ wf_heap h1 ∧
           val_ok (length (objs h1)) (length (arrs h1)) v'.
Proof.
  intros Hwf Hv Href. exists hi, v. split; [done|].
  split; [by apply clone_by_reference|]. split; [apply preserves_refl|done].
Qed.

Section Deep.
Variable copy_rec : heap -> CopyArgs -> result (heap * loc).
Variable copyArray_rec : heap -> aloc -> CopyArgs -> result (heap * aloc).
Variable n : nat.
Hypothesis copy_rec_frames : copy_frames copy_rec.
Hypothesis copyArray_rec_frames : copyArray_frames copyArray_rec.
Hypothesis copy_rec_wf : copy_keeps_wf copy_rec.
Hypothesis copyArray_rec_wf : copyArray_keeps_wf copyArray_rec.
Hypothesis copy_rec_clones : copy_clones n copy_rec.
Hypothesis copyArray_rec_clones : copyArray_clones n copyArray_rec.

(** The [if (kwArgs.deep)] block on a value that can be copied. *)
Lemma deepValue_clone kwArgs hi v :
  deep kwArgs = true ->
  wf_heap hi -> val_ok (length (objs hi)) (length (arrs hi)) v ->
  copyable n (flags kwArgs) hi v ->
  ∃ h1 v', deepValue copy_rec copyArray_rec (descriptors kwArgs) kwArgs hi v
             = Ok (h1, v') ∧
           clone n (flags kwArgs) (length (objs hi)) (length (arrs hi)) hi h1 v v' ∧
           preserves hi h1 ∧ wf_heap h1 ∧
           val_ok (length (objs h1)) (length (arrs h1)) v'.
Proof.
  intros Hdeep Hwf Hv Hc. unfold deepValue.
  destruct v as [| |b|z| |s|l|a];
    try (by apply unchanged_clone).
  - destruct (isObject hi (VObj l)) eqn:Hobj.
    2:{ by apply unchanged_clone. }
    set (kw1 := {| sources := [l]; deep := true;
                   descriptors := descriptors kwArgs;
                   inherited := inherited kwArgs;
                   assignPrototype := assignPrototype kwArgs;
                   target := None |}).
    assert (Hflags : flags kw1 = flags kwArgs).
    { unfold flags, kw1. cbn. by rewrite Hdeep. }
    assert (Hgiven : given_target kw1 = None).
    { unfold given_target, kw1. cbn. by destruct (assignPrototype kwArgs). }
    destruct (copy_rec_clones hi kw1 l Hwf Hv Hobj eq_refl Hgiven)
      as (h1 & l' & Hrec & Hclone); [by rewrite Hflags|].
    rewrite Hflags in Hclone.
    exists h1, (VObj l'). rewrite Hrec. cbn. split; [done|]. split; [done|].
    pose proof (copy_rec_frames _ _ _ _ Hrec) as Hfr. rewrite Hgiven in Hfr.
    destruct Hfr as (Hge & Hlt & Hp). split; [done|]. split; [|done].
    eapply copy_rec_wf; [done|done| |by rewrite Hgiven].
    cbn. by constructor.
  - destruct (copyArray_rec_clones hi kwArgs a Hwf Hv Hc)
      as (h1 & a' & Hrec & Hclone).
    exists h1, (VArr a'). rewrite Hrec. cbn. split; [done|]. split; [done|].
    pose proof (copyArray_rec_frames _ _ _ _ _ Hrec) as (Hp & Hge & Hlt).
    split; [done|]. split; [|done]. by eapply copyArray_rec_wf.
Qed.

(** The callback of [array.map] on an element that can be copied. *)
Lemma copyItem_clone kwArgs hi item :
  wf_heap hi -> val_ok (length (objs hi)) (length (arrs hi)) item ->
  copyable n (flags kwArgs) hi item ->
  ∃ h1 item', copyItem copy_rec copyArray_rec kwArgs hi item = Ok (h1, item') ∧
              clone n (flags kwArgs) (length (objs hi)) (length (arrs hi))
                    hi h1 item item' ∧
              preserves hi h1 ∧ wf_heap h1 ∧
              val_ok (length (objs h1)) (length (arrs h1)) item'.
Proof.
  intros Hwf Hv Hc. unfold copyItem.
  destruct item as [| |b|z| |s|l|a];
    try (by apply unchanged_clone).
  - destruct (isObject hi (VObj l)) eqn:Hobj.
    2:{ by apply unchanged_clone. }
    set (kw1 := {| sources := [l]; deep := deep kwArgs;
                   descriptors := descriptors kwArgs;
                   inherited := inherited kwArgs;
                   assignPrototype := assignPrototype kwArgs;
                   target := None |}).
    assert (Hgiven : given_target kw1 = None).
    { unfold given_target, kw1. cbn. by destruct (assignPrototype kwArgs). }
    destruct (copy_rec_clones hi kw1 l Hwf Hv Hobj eq_refl Hgiven Hc)
      as (h1 & l' & Hrec & Hclone).
    exists h1, (VObj l'). rewrite Hrec. cbn. split; [done|]. split; [done|].
    pose proof (copy_rec_frames _ _ _ _ Hrec) as Hfr. rewrite Hgiven in Hfr.
    destruct Hfr as (Hge & Hlt & Hp). split; [done|]. split; [|done].
    eapply copy_rec_wf; [done|done| |by rewrite Hgiven].
    cbn. by constructor.
  - destruct (copyArray_rec_clones hi kwArgs a Hwf Hv Hc)
      as (h1 & a' & Hrec & Hclone).
    exists h1, (VArr a'). rewrite Hrec. cbn. split; [done|]. split; [done|].
    pose proof (copyArray_rec_frames _ _ _ _ _ Hrec) as (Hp & Hge & Hlt).
    split; [done|]. split; [|done]. by eapply copyArray_rec_wf.
Qed.
Section Loop.
Variable kwArgs : CopyArgs.
Variable h : heap.
Variables l t : loc.
Hypothesis wf_h : wf_heap h.
Hypothesis l_valid : l < length (objs h).
Hypothesis t_new : length (objs h) ≤ t.

Lemma target_inv_step hi h1 name d :
  target_inv kwArgs h l t hi -> preserves hi h1 -> wf_heap h1 ->
  desc_ok (length (objs h1)) (length (arrs h1)) d ->
  target_inv kwArgs h l t (set_prop h1 t name d).
Proof.
  intros (Hwf & Hp & Ht & Hext & Hcls & Hproto) Hp1 Hwf1 Hd.
  pose proof (set_prop_frame h1 t name d) as Hf.
  assert (Ht1 : t < length (objs h1)) by (destruct Hp1 as [? _]; lia).
  assert (Hget : get_obj h1 t = get_obj hi t) by (by apply preserves_get_obj).
  destruct Hf as (Hlen & Ho & Hsame & Ha).
  destruct (Hsame Ht1) as (Hpr & Hc & He).
  split; [by apply set_prop_wf|]. split.
  { apply (preserves_then_frame t h h1); [by eapply preserves_trans| |done].
    apply set_prop_frame. }
  split; [lia|]. unfold getPrototypeOf in *.
  rewrite He, Hc, Hpr, Hget. done.
Qed.

Lemma target_own_preserved hi h1 name :
  target_inv kwArgs h l t hi -> preserves hi h1 ->
  getOwnPropertyDescriptor h1 t name = getOwnPropertyDescriptor hi t name.
Proof.
  intros (_ & _ & Ht & _) Hp1. unfold getOwnPropertyDescriptor.
  by rewrite (preserves_get_obj hi h1).
Qed.

(** One value of the source, and its copy when [deep] is on. *)
Lemma value_clone hi v :
  target_inv kwArgs h l t hi ->
  val_ok (length (objs h)) (length (arrs h)) v ->
  (deep kwArgs = true → copyable n (flags kwArgs) h v) ->
  ∃ h1 v',
    (if deep kwArgs
     then deepValue copy_rec copyArray_rec (descriptors kwArgs) kwArgs hi v
     else Ok (hi, v)) = Ok (h1, v') ∧
    preserves hi h1 ∧ wf_heap h1 ∧
    val_ok (length (objs h1)) (length (arrs h1)) v' ∧
    ∀ h', frame t h1 h' →
          if deep kwArgs
          then clone n (flags kwArgs) (S t) (length (arrs h)) h h' v v'
          else v' = v.
Proof.
  intros (Hwf & Hp & Ht & _) Hv Hc.
  assert (Hvi : val_ok (length (objs hi)) (length (arrs hi)) v).
  { eapply val_ok_mono; [| |done]; [apply Hp|by apply (preserves_arrs_length h hi)]. }
  destruct (deep kwArgs) eqn:Hdeep.
  - destruct (deepValue_clone kwArgs hi v Hdeep Hwf Hvi)
      as (h1 & v' & Hrun & Hclone & Hp1 & Hwf1 & Hv').
    { apply (copyable_preserves (flags kwArgs) h wf_h); auto. }
    exists h1, v'. split; [done|]. split; [done|]. split; [done|]. split; [done|].
    intros h' Hf. apply (clone_source (flags kwArgs) h wf_h) in Hclone; [|done..].
    apply (clone_bound _ _ _ _ (S t) (length (arrs h))) in Hclone;
      [|lia|by apply (preserves_arrs_length h hi)].
    eapply clone_stable; [| | |exact Hclone].
    + by apply frame_length in Hf.
    + intros l' Hl' Hlt. eapply frame_get_obj; [done|done|lia].
    + apply Hf.
  - exists hi, v. split; [done|]. split; [apply preserves_refl|]. done.
Qed.

(** The loop of the [descriptors] branch on a new target. *)
Lemma defineAll_clone names : ∀ hi,
  descriptors kwArgs = true ->
  NoDup names ->
  (∀ name, name ∈ names → getOwnPropertyDescriptor hi t name = None) ->
  Forall (fun name =>
            match source_descriptor kwArgs h l name with
            | Some d => deep kwArgs = true → copyable n (flags kwArgs) h (d_value d)
            | None => False
            end) names ->
  target_inv kwArgs h l t hi ->
  ∃ h', defineAll copy_rec copyArray_rec kwArgs t l hi names = Ok h' ∧
        target_inv kwArgs h l t h' ∧ frame t hi h' ∧
        (∀ name, name ∉ names →
           getOwnPropertyDescriptor h' t name = getOwnPropertyDescriptor hi t name) ∧
        (∀ name, name ∈ names →
           ∃ d v', source_descriptor kwArgs h l name = Some d ∧
                   getOwnPropertyDescriptor h' t name = Some (d_set_value d v') ∧
                   ∀ h'', frame t h' h'' →
                     if deep kwArgs
                     then clone n (flags kwArgs) (S t) (length (arrs h)) h h''
                                (d_value d) v'
                     else v' = d_value d).
Proof.
  intros hi Hdesc. revert hi.
  induction names as [|name0 names IH]; intros hi Hnd Hfresh Hall Hinv; cbn.
  - exists hi. split; [done|]. split; [done|]. split; [apply frame_refl|].
    split; [done|]. intros name Hin. set_solver.
  - apply NoDup_cons in Hnd as [Hnin Hnd]. apply Forall_cons in Hall as [Hd Hall].
    pose proof Hinv as (Hwfi & Hpi & Hti & Hexti & Hclsi & Hprotoi).
    destruct (preserves_reads kwArgs h wf_h hi l Hpi l_valid) as (_ & Hdescs & _).
    assert (Hread : (if inherited kwArgs then getPropertyDescriptor
                     else getOwnPropertyDescriptor) hi l name0 =
                    source_descriptor kwArgs h l name0).
    { rewrite <- Hdescs. unfold source_descriptor. by rewrite Hdesc. }
    rewrite Hread.
    destruct (source_descriptor kwArgs h l name0) as [d|] eqn:Hsd; [|done].
    apply source_descriptor_wf in Hsd as Hok; [|done..].
    assert (Hvok : val_ok (length (objs h)) (length (arrs h)) (d_value d))
      by (by destruct d).
    destruct (value_clone hi (d_value d) Hinv Hvok Hd)
      as (h1 & v' & Hrun & Hp1 & Hwf1 & Hv' & Hclone).
    assert (Hstep : (if deep kwArgs
                     then deepValue copy_rec copyArray_rec true kwArgs hi (d_value d)
                          ≫= (λ '(h1, value), Ok (h1, d_set_value d value))
                     else Ok (hi, d)) = Ok (h1, d_set_value d v')).
    { rewrite Hdesc in Hrun. destruct (deep kwArgs).
      - by rewrite Hrun.
      - injection Hrun as <- <-. by rewrite d_set_value_id. }
    rewrite Hstep. cbn.
    assert (Hown1 : getOwnPropertyDescriptor h1 t name0 = None).
    { rewrite (target_own_preserved hi h1) by done. apply Hfresh. set_solver. }
    assert (Hext1 : extensible (get_obj h1 t) = true).
    { by rewrite (preserves_get_obj hi h1). }
    unfold defineProperty. rewrite Hown1, Hext1. cbn.
    assert (Hd' : desc_ok (length (objs h1)) (length (arrs h1)) (d_set_value d v')).
    { apply desc_ok_set_value; [|done].
      eapply desc_ok_mono; [| |exact Hok].
      - destruct Hpi as [? _]. destruct Hp1 as [? _]. lia.
      - apply preserves_arrs_length in Hpi. apply preserves_arrs_length in Hp1. lia. }
    pose proof (target_inv_step hi h1 name0 _ Hinv Hp1 Hwf1 Hd') as Hinv2.
    assert (Ht1 : t < length (objs h1)) by (destruct Hp1 as [? _]; lia).
    set (h2 := set_prop h1 t name0 (d_set_value d v')) in *.
    destruct (IH h2 Hnd) as (h' & Hrest & Hinv' & Hf' & Hother & Hnames).
    { intros name Hin. unfold h2. rewrite own_set_prop by done.
      rewrite decide_False by set_solver.
      rewrite (target_own_preserved hi h1) by done. apply Hfresh. set_solver. }
    { done. }
    { done. }
    exists h'. split; [done|]. split; [done|].
    assert (Hf12 : frame t h1 h2) by apply set_prop_frame.
    split.
    { eapply frame_trans; [by apply preserves_frame|]. by eapply frame_trans. }
    split.
    + intros name Hnotin. rewrite Hother by set_solver.
      unfold h2. rewrite own_set_prop by done. rewrite decide_False by set_solver.
      by apply target_own_preserved.
    + intros name Hin. destruct (decide (name ∈ names)) as [Hin'|Hnin']; [by apply Hnames|].
      assert (name = name0) as -> by set_solver.
      exists d, v'. split; [done|]. split.
      * rewrite Hother by done. unfold h2. rewrite own_set_prop by done.
        by rewrite decide_True.
      * intros h'' Hf''. apply Hclone.
        eapply frame_trans; [exact Hf12|]. by eapply frame_trans.
Qed.

(** An assignment on the new target [t], for a name the target has not
    got and that the chain of its prototype lets through. *)
Lemma put_new hi name v :
  target_inv kwArgs h l t hi ->
  getOwnPropertyDescriptor hi t name = None ->
  takes h (new_proto kwArgs h l) name ->
  put hi t name v = Ok (set_prop hi t name (Data v true true true)).
Proof.
  intros (Hwf & Hp & Ht & Hext & Hcls & Hproto) Hown Htakes.
  unfold put. rewrite lookup_chain_own, Hown, Hproto, Hext.
  pose proof (new_proto_valid kwArgs h wf_h l l_valid) as Hvalid.
  unfold takes in Htakes.
  destruct (new_proto kwArgs h l) as [p|]; [|done].
  assert (Hchain : lookup_chain t hi p name = lookup_chain (S p) h p name).
  { rewrite (lookup_chain_agree t h hi name p).
    - apply lookup_chain_fuel; [done|done|lia|lia].
    - intros c Hc. apply (preserves_get_obj h hi); [done|].
      apply (wf_ancestors_le h t p) in Hc; [lia|done..]. }
  rewrite Hchain.
  destruct (lookup_chain (S p) h p name) as [[v0 w e c|g s e c]|]; [|done..].
  by rewrite Htakes.
Qed.

(** The [for...in] loop on a new target. *)
Lemma assignAll_clone names : ∀ hi,
  descriptors kwArgs = false ->
  NoDup names ->
  (∀ name, name ∈ names → getOwnPropertyDescriptor hi t name = None) ->
  Forall (fun name =>
            inherited kwArgs || hasOwnProperty h l name = true →
            takes h (new_proto kwArgs h l) name ∧
            (deep kwArgs = true → copyable n (flags kwArgs) h (get h l name))) names ->
  target_inv kwArgs h l t hi ->
  ∃ h', assignAll copy_rec copyArray_rec kwArgs t l hi names = Ok h' ∧
        target_inv kwArgs h l t h' ∧ frame t hi h' ∧
        (∀ name,
           name ∉ filter (fun name => inherited kwArgs || hasOwnProperty h l name = true)
                         names →
           getOwnPropertyDescriptor h' t name = getOwnPropertyDescriptor hi t name) ∧
        (∀ name,
           name ∈ filter (fun name => inherited kwArgs || hasOwnProperty h l name = true)
                         names →
           ∃ v', getOwnPropertyDescriptor h' t name = Some (Data v' true true true) ∧
                 ∀ h'', frame t h' h'' →
                   if deep kwArgs
                   then clone n (flags kwArgs) (S t) (length (arrs h)) h h''
                              (get h l name) v'
                   else v' = get h l name).
Proof.
  intros hi Hdesc. revert hi.
  induction names as [|name0 names IH]; intros hi Hnd Hfresh Hall Hinv;
    cbn [assignAll].
  - exists hi. split; [done|]. split; [done|]. split; [apply frame_refl|].
    split; [done|]. intros name Hin. cbn in Hin. set_solver.
  - apply NoDup_cons in Hnd as [Hnin Hnd]. apply Forall_cons in Hall as [Hd Hall].
    pose proof Hinv as (Hwfi & Hpi & Hti & Hexti & Hclsi & Hprotoi).
    destruct (preserves_reads kwArgs h wf_h hi l Hpi l_valid) as (_ & Hdescs & _).
    assert (Hget : get hi l name0 = get h l name0).
    { specialize (Hdescs name0). unfold source_descriptor in Hdescs.
      rewrite Hdesc in Hdescs. by injection Hdescs. }
    assert (Hhas : hasOwnProperty hi l name0 = hasOwnProperty h l name0).
    { unfold hasOwnProperty, getOwnPropertyDescriptor.
      by rewrite (preserves_get_obj h hi). }
    rewrite Hhas, Hget, filter_cons.
    destruct (decide (inherited kwArgs || hasOwnProperty h l name0 = true))
      as [Hcond|Hcond].
    2:{ apply not_true_is_false in Hcond. rewrite Hcond.
        destruct (IH hi Hnd) as (h' & Hrest & Hinv' & Hf' & Hother & Hnames);
          [intros name Hin; apply Hfresh; set_solver|done|done|].
        exists h'. done. }
    rewrite Hcond. destruct (Hd Hcond) as [Htakes Hcopyable].
    assert (Hvok : val_ok (length (objs h)) (length (arrs h)) (get h l name0))
      by (by apply get_wf).
    destruct (value_clone hi (get h l name0) Hinv Hvok Hcopyable)
      as (h1 & v' & Hrun & Hp1 & Hwf1 & Hv' & Hclone).
    rewrite Hdesc in Hrun. rewrite Hrun. cbn.
    assert (Hown1 : getOwnPropertyDescriptor h1 t name0 = None).
    { rewrite (target_own_preserved hi h1) by done. apply Hfresh. set_solver. }
    assert (Ht1 : t < length (objs h1)) by (destruct Hp1 as [? _]; lia).
    assert (Hinv1 : target_inv kwArgs h l t h1).
    { split; [done|]. split; [by eapply preserves_trans|]. split; [done|].
      unfold getPrototypeOf in *. by rewrite (preserves_get_obj hi h1). }
    rewrite (put_new h1 name0 v' Hinv1 Hown1 Htakes). cbn.
    pose proof (target_inv_step hi h1 name0 (Data v' true true true)
                  Hinv Hp1 Hwf1 Hv') as Hinv2.
    set (h2 := set_prop h1 t name0 (Data v' true true true)) in *.
    destruct (IH h2 Hnd) as (h' & Hrest & Hinv' & Hf' & Hother & Hnames).
    { intros name Hin. unfold h2. rewrite own_set_prop by done.
      rewrite decide_False by set_solver.
      rewrite (target_own_preserved hi h1) by done. apply Hfresh. set_solver. }
    { done. }
    { done. }
    exists h'. split; [done|]. split; [done|].
    assert (Hf12 : frame t h1 h2) by apply set_prop_frame.
    split.
    { eapply frame_trans; [by apply preserves_frame|]. by eapply frame_trans. }
    split.
    + intros name Hnotin. rewrite Hother by set_solver.
      unfold h2. rewrite own_set_prop by done. rewrite decide_False by set_solver.
      by apply target_own_preserved.
    + intros name Hin.
      destruct (decide (name ∈ filter
                  (fun name => inherited kwArgs || hasOwnProperty h l name = true)
                  names)) as [Hin'|Hnin']; [by apply Hnames|].
      assert (name = name0) as -> by set_solver.
      exists v'. split.
      * rewrite Hother by done. unfold h2. rewrite own_set_prop by done.
        by rewrite decide_True.
      * intros h'' Hf''. apply Hclone.
        eapply frame_trans; [exact Hf12|]. by eapply frame_trans.
Qed.

End Loop.

Lemma makeTarget_new h kwArgs l :
  given_target kwArgs = None ->
  makeTarget h kwArgs l = alloc_obj h (Object (new_proto kwArgs h l) CObject true []).
Proof.
  unfold given_target, makeTarget, new_proto.
  destruct (assignPrototype kwArgs); [done|]. by intros ->.
Qed.

Lemma new_target_inv kwArgs h l :
  wf_heap h -> l < length (objs h) ->
  let h0 := (alloc_obj h (Object (new_proto kwArgs h l) CObject true [])).1 in
  target_inv kwArgs h l (length (objs h)) h0 ∧
  ∀ name, getOwnPropertyDescriptor h0 (length (objs h)) name = None.
Proof.
  intros Hwf Hl h0.
  assert (Hget : get_obj h0 (length (objs h)) =
                 Object (new_proto kwArgs h l) CObject true []).
  { unfold h0, get_obj. cbn. by rewrite list_lookup_middle. }
  split.
  - split; [apply alloc_obj_wf; [done|by apply new_proto_valid]|].
    split; [apply alloc_obj_preserves|]. split.
    { unfold h0. cbn. rewrite length_app. cbn. lia. }
    unfold getPrototypeOf. by rewrite Hget.
  - intros name. unfold getOwnPropertyDescriptor. by rewrite Hget.
Qed.

(** [copy] on one source that can be copied, with no target given: it
    returns a new object, the copy of the source. *)
Lemma copy_body_clone kwArgs h l :
  wf_heap h -> l < length (objs h) ->
  sources kwArgs = [l] -> given_target kwArgs = None ->
  props_copyable (copyable n (flags kwArgs) h) (flags kwArgs) h l ->
  ∃ h' t, copy_body copy_rec copyArray_rec h kwArgs = Ok (h', t) ∧
          t = length (objs h) ∧ t < length (objs h') ∧
          clone_props (clone n (flags kwArgs) (length (objs h)) (length (arrs h)) h h')
                      (flags kwArgs) h h' l t.
Proof.
  intros Hwf Hl Hsrc Hgiven Hcopyable.
  unfold copy_body. rewrite Hsrc, (makeTarget_new h kwArgs l Hgiven).
  set (t := length (objs h)).
  destruct (new_target_inv kwArgs h l Hwf Hl) as [Hinv0 Hnone].
  set (h0 := (alloc_obj h (Object (new_proto kwArgs h l) CObject true [])).1) in *.
  change (alloc_obj h (Object (new_proto kwArgs h l) CObject true [])) with (h0, t).
  cbn [copySources]. unfold copySource.
  pose proof Hinv0 as (Hwf0 & Hp0 & Ht0 & _).
  pose proof (preserves_frame t h h0 Hp0) as Hf0.
  assert (Hnot : t ∉ ancestors (S l) h l).
  { intros Hin. apply (wf_ancestors_le h (S l) l) in Hin; [unfold t in *; lia|done..]. }
  destruct (read_stable t h Hwf h0 l Hf0 Hl Hnot)
    as (_ & _ & Hown & Hall & Hfor & _).
  unfold props_copyable in Hcopyable.
  assert (Hfinish : ∀ h' : heap,
            target_inv kwArgs h l t h' →
            (∀ name, name ∉ copied_names kwArgs h l →
                     getOwnPropertyDescriptor h' t name = None) →
            (∀ name, name ∈ copied_names kwArgs h l →
               ∃ d v', source_descriptor kwArgs h l name = Some d ∧
                       getOwnPropertyDescriptor h' t name = Some (written kwArgs d v') ∧
                       ∀ h'', frame t h' h'' →
                         if deep kwArgs
                         then clone n (flags kwArgs) (S t) (length (arrs h)) h h''
                                    (d_value d) v'
                         else v' = d_value d) →
            t < length (objs h') ∧
            clone_props (clone n (flags kwArgs) (length (objs h)) (length (arrs h)) h h')
                        (flags kwArgs) h h' l t).
  { intros h' (_ & _ & Ht' & _ & Hcls' & Hproto') Hother Hnames.
    split; [done|]. split; [exact Hproto'|]. split; [done|].
    intros name. change (copied_names (flags kwArgs) h l) with (copied_names kwArgs h l).
    change (source_descriptor (flags kwArgs) h l name)
      with (source_descriptor kwArgs h l name).
    destruct (decide (name ∈ copied_names kwArgs h l)) as [Hin|Hnin];
      [|by apply Hother].
    destruct (Hnames name Hin) as (d & v' & -> & Hown' & Hclone).
    exists v'. split; [done|]. specialize (Hclone h' (frame_refl _ _)).
    change (deep (flags kwArgs)) with (deep kwArgs).
    destruct (deep kwArgs); [|done].
    eapply clone_bound; [| |exact Hclone]; unfold t; lia. }
  destruct (descriptors kwArgs) eqn:Hdesc.
  - assert (Hnames0 : (if inherited kwArgs then getPropertyNames
                       else getOwnPropertyNames) h0 l = copied_names kwArgs h l).
    { unfold copied_names. rewrite Hdesc. by destruct (inherited kwArgs). }
    rewrite Hnames0.
    destruct (defineAll_clone kwArgs h l t Hwf Hl ltac:(unfold t; lia)
                (copied_names kwArgs h l) h0 Hdesc)
      as (h' & Hrun & Hinv' & Hf' & Hother & Hnames); [| | |done|].
    + by apply copied_names_NoDup.
    + intros name _. apply Hnone.
    + eapply Forall_impl; [exact Hcopyable|]. intros name. cbn.
      change (source_descriptor (flags kwArgs) h l name)
        with (source_descriptor kwArgs h l name).
      destruct (source_descriptor kwArgs h l name); [|done]. by intros [_ ?].
    + rewrite Hrun. cbn. exists h', t. split; [done|]. split; [done|].
      apply Hfinish; [done| |].
      * intros name Hnin. rewrite Hother by done. apply Hnone.
      * intros name Hin. destruct (Hnames name Hin) as (d & v' & Hd & Hown' & Hclone).
        exists d, v'. unfold written. rewrite Hdesc. done.
  - rewrite Hfor.
    assert (Hnames0 : copied_names kwArgs h l =
              filter (fun name => inherited kwArgs || hasOwnProperty h l name = true)
                     (forInKeys (S l) h l [])).
    { unfold copied_names. by rewrite Hdesc. }
    destruct (assignAll_clone kwArgs h l t Hwf Hl ltac:(unfold t; lia)
                (forInKeys (S l) h l []) h0 Hdesc)
      as (h' & Hrun & Hinv' & Hf' & Hother & Hnames); [| | |done|].
    + by apply forInKeys_NoDup.
    + intros name _. apply Hnone.
    + apply Forall_forall. intros name Hin Hcond.
      assert (Hin' : name ∈ copied_names kwArgs h l).
      { rewrite Hnames0. by apply list_elem_of_filter. }
      rewrite Forall_forall in Hcopyable. specialize (Hcopyable name Hin').
      cbn in Hcopyable.
      change (source_descriptor (flags kwArgs) h l name)
        with (source_descriptor kwArgs h l name) in Hcopyable.
      unfold source_descriptor in Hcopyable. rewrite Hdesc in Hcopyable.
      destruct Hcopyable as [Htakes Hcp]. split; [by apply Htakes|done].
    + rewrite Hrun. cbn. exists h', t. split; [done|]. split; [done|].
      apply Hfinish; [done| |].
      * intros name Hnin. rewrite Hnames0 in Hnin. rewrite Hother by done.
        apply Hnone.
      * intros name Hin. rewrite Hnames0 in Hin.
        destruct (Hnames name Hin) as (v' & Hown' & Hclone).
        exists (Data (get h l name) true true true), v'.
        unfold source_descriptor, written. rewrite Hdesc. done.
Qed.

(** [array.map] over elements that can be copied. *)
Lemma mapItems_clone kwArgs h items : ∀ hi,
  wf_heap h -> wf_heap hi -> preserves h hi ->
  Forall (val_ok (length (objs h)) (length (arrs h))) items ->
  Forall (copyable n (flags kwArgs) h) items ->
  ∃ h' items',
    mapItems (copyItem copy_rec copyArray_rec kwArgs) hi items = Ok (h', items') ∧
    preserves hi h' ∧ wf_heap h' ∧
    Forall (val_ok (length (objs h')) (length (arrs h'))) items' ∧
    Forall2 (clone n (flags kwArgs) (length (objs h)) (length (arrs h)) h h')
            items items'.
Proof.
  induction items as [|item items IH]; intros hi Hwf Hwfi Hp Hok Hc; cbn.
  - exists hi, []. split; [done|]. split; [apply preserves_refl|].
    split; [done|]. split; constructor.
  - apply Forall_cons in Hok as [Hok1 Hok]. apply Forall_cons in Hc as [Hc1 Hc].
    destruct (copyItem_clone kwArgs hi item Hwfi)
      as (h1 & item' & Hrun & Hclone & Hp1 & Hwf1 & Hv1).
    { eapply val_ok_mono; [| |exact Hok1];
        [apply Hp|by apply (preserves_arrs_length h hi)]. }
    { by apply (copyable_preserves (flags kwArgs) h Hwf). }
    rewrite Hrun. cbn.
    destruct (IH h1 Hwf Hwf1 (preserves_trans _ _ _ Hp Hp1) Hok Hc)
      as (h' & items' & Hrest & Hp' & Hwf' & Hoks & Hclones).
    rewrite Hrest. cbn. exists h', (item' :: items').
    split; [done|]. split; [by eapply preserves_trans|]. split; [done|].
    split.
    { constructor; [|done]. eapply val_ok_mono; [| |exact Hv1];
        [apply Hp'|by apply (preserves_arrs_length h1 h')]. }
    constructor; [|done].
    apply (clone_source (flags kwArgs) h Hwf) in Hclone; [|done..].
    apply (clone_bound _ _ _ _ (length (objs h)) (length (arrs h))) in Hclone;
      [|apply Hp|by apply (preserves_arrs_length h hi)].
    eapply clone_stable; [| | |exact Hclone].
    + apply Hp'.
    + intros l' _ Hl'. by apply (preserves_get_obj h1 h').
    + apply Hp'.
Qed.

Lemma copy_body_clones : copy_clones (S n) (copy_body copy_rec copyArray_rec).
Proof.
  intros hi kwArgs c Hwf Hc Hobj Hsrc Hgiven Hcopyable.
  cbn [copyable] in Hcopyable. specialize (Hcopyable Hobj).
  destruct (copy_body_clone kwArgs hi c Hwf Hc Hsrc Hgiven Hcopyable)
    as (h' & t & Hrun & -> & Hlt & Hclone).
  exists h', (length (objs hi)). split; [done|].
  cbn [clone]. rewrite Hobj. exists (length (objs hi)). done.
Qed.

Lemma copyArray_body_clones :
  copyArray_clones (S n) (copyArray_body copy_rec copyArray_rec).
Proof.
  intros hi kwArgs a Hwf Ha Hcopyable. cbn [copyable] in Hcopyable.
  unfold copyArray_body.
  destruct (mapItems_clone kwArgs hi (get_arr hi a) hi Hwf Hwf (preserves_refl _))
    as (h1 & items' & Hrun & Hp1 & Hwf1 & Hoks & Hclones); [by apply Hwf|done|].
  rewrite Hrun. cbn. eexists _, (length (arrs h1)). split; [done|].
  exists (length (arrs h1)). split; [done|].
  split; [by apply preserves_arrs_length|]. split.
  { cbn. rewrite length_app. cbn. lia. }
  assert (Hget : get_arr (alloc_arr h1 items').1 (length (arrs h1)) = items').
  { unfold get_arr. cbn. by rewrite list_lookup_middle. }
  cbn in Hget. rewrite Hget.
  eapply Forall2_impl; [exact Hclones|]. intros item item'.
  apply clone_stable; [done|done|]. cbn. by apply prefix_app_r.
Qed.

End Deep.

Lemma copy_copyArray_clone n :
  copy_clones n (copy n) ∧ copyArray_clones n (copyArray n).
Proof.
  induction n as [|n [IH1 IH2]].
  - split.
    + intros hi kwArgs c _ _ Hobj _ _ Hc. cbn in *. by rewrite Hobj in Hc.
    + intros hi kwArgs a _ _ Hc. done.
  - destruct (copy_copyArray_frames n) as [Hf1 Hf2].
    destruct (copy_copyArray_keep_wf n) as [Hw1 Hw2].
    split; cbn [copy copyArray].
    + by apply copy_body_clones.
    + by apply copyArray_body_clones.
Qed.

(** [copy] with one source and no target given, on a source that can be
    copied: with [S n] frames of call stack it returns a new object, the
    copy of the source. *)
Lemma copy_clone n h kwArgs l :
  wf_heap h -> l < length (objs h) ->
  sources kwArgs = [l] -> given_target kwArgs = None ->
  props_copyable (copyable n (flags kwArgs) h) (flags kwArgs) h l ->
  ∃ h' t, copy (S n) h kwArgs = Ok (h', t) ∧
          t = length (objs h) ∧ t < length (objs h') ∧
          clone_props (clone n (flags kwArgs) (length (objs h)) (length (arrs h)) h h')
                      (flags kwArgs) h h' l t.
Proof.
  intros Hwf Hl Hsrc Hgiven Hc.
  destruct (copy_copyArray_frames n) as [Hf1 Hf2].
  destruct (copy_copyArray_keep_wf n) as [Hw1 Hw2].
  destruct (copy_copyArray_clone n) as [Hc1 Hc2].
  cbn [copy]. by apply copy_body_clone.
Qed.

(** ** The errors of the library *)

Lemma copy_cyclic_out_of_fuel n : ∀ hi,
  1 < length (objs hi) ->
  get_obj hi 1 = Object (Some 0) CObject true
                   [("self", Data (VObj 1) true true true)] ->
  copy n hi (mkCopyArgs true true false true None [1]) = OutOfFuel.
Proof.
  induction n as [|n IH]; intros hi Hlen Hcyc; [done|].
  cbn [copy]. unfold copy_body. cbn [sources]. unfold makeTarget.
  cbn [assignPrototype].
  pose proof (alloc_obj_preserves hi
                (Object (getPrototypeOf hi 1) CObject true [])) as Hp.
  destruct (alloc_obj hi (Object (getPrototypeOf hi 1) CObject true []))
    as [h0 t] eqn:Halloc.
  cbn [fst] in Hp.
  assert (Hget0 : get_obj h0 1 = Object (Some 0) CObject true
                                   [("self", Data (VObj 1) true true true)]).
  { by rewrite (preserves_get_obj hi h0). }
  assert (Hlen0 : 1 < length (objs h0)) by (destruct Hp as [? _]; lia).
  cbn [copySources]. unfold copySource. cbn [descriptors inherited].
  unfold getOwnPropertyNames. rewrite Hget0. cbn [props fmap list_fmap fst].
  cbn [defineAll inherited]. unfold getOwnPropertyDescriptor at 1.
  rewrite Hget0. cbn [props assoc]. rewrite decide_True by done.
  cbn [deep d_value]. unfold deepValue. cbn [isObject]. rewrite Hget0.
  cbn [cls inherited assignPrototype].
  match goal with
  | |- context [copy n h0 ?k] =>
      replace (copy n h0 k) with (@OutOfFuel (heap * loc))
        by (symmetry; by apply IH)
  end.
  done.
Qed.

(** C4, as stated, fails for [duplicate] on an object that refers to
    itself: with [o.self = o], every call of [duplicate(o)] makes a nested
    call of [copy] on [o] again, however much call stack there is; the
    host ends it with a stack overflow, which JavaScript reports as a
    RangeError. *)
Lemma duplicate_cyclic_counterexample :
  let o := Object (Some 0) CObject true [("self", Data (VObj 1) true true true)] in
  let h := Heap [Object None CObject true []; o] [] in
  wf_heap h ∧ ∀ n, duplicate n h 1 = OutOfFuel.
Proof.
  split; [by apply wf_heapb_correct|].
  intros n. unfold duplicate. apply copy_cyclic_out_of_fuel; [cbn; lia|done].
Qed.

(** C4 (amended): [copy] throws the RangeError exactly when its list of
    sources is empty, and [create] exactly when it is given no mixin;
    [duplicate] never throws it and, on a source without circular
    references -- one that nests objects and arrays finitely deep --
    returns.  ([getPropertyNames], [getPropertyDescriptor], [isIdentical],
    [lateBind], [partial] and the steps of the timing wrappers are
    functions of the embedding: they are defined on every input.) *)
Theorem range_error_iff_empty n h :
  (∀ kwArgs, copy (S n) h kwArgs = Throw RangeError ↔ sources kwArgs = []) ∧
  (∀ prototype mixins,
     create (S n) h prototype mixins = Throw RangeError ↔ mixins = []) ∧
  (∀ source, duplicate (S n) h source ≠ Throw RangeError) ∧
  (∀ source,
     wf_heap h → source < length (objs h) →
     props_copyable (copyable n (mkCopyArgs true true false true None []) h)
                    (mkCopyArgs true true false true None []) h source →
     ∃ h' t, duplicate (S n) h source = Ok (h', t)).
Proof.
  split; [intros kwArgs; apply copy_range_error|].
  split; [intros prototype mixins; apply create_range_error|].
  split.
  - intros source H. unfold duplicate in H. by apply copy_range_error in H.
  - intros source Hwf Hs Hc. unfold duplicate.
    destruct (copy_clone n h (mkCopyArgs true true false true None [source]) source
                Hwf Hs eq_refl eq_refl Hc) as (h' & t & Hrun & _).
    eauto.
Qed.

(** The object of the unit test of [duplicate]: three properties that are
    neither enumerable, writable nor configurable, one of them a nested
    object. *)
Lemma range_error_iff_empty_witness :
  let hidden v := Data v false false false in
  let h := Heap [Object None CObject true [];
                 Object (Some 0) CObject true [("a", Data (VNum 1) true true true)];
                 Object (Some 0) CObject true [("e", Data (VNum 4) true true true)];
                 Object (Some 1) CObject true
                   [("b", hidden (VNum 2)); ("c", hidden (VNum 3));
                    ("d", hidden (VObj 2))]] [] in
  wf_heap h ∧
  props_copyable (copyable 1 (mkCopyArgs true true false true None []) h)
                 (mkCopyArgs true true false true None []) h 3 ∧
  ∃ h' t, duplicate 2 h 3 = Ok (h', t).
Proof.
  intros hidden h.
  assert (Hwf : wf_heap h) by (by apply wf_heapb_correct).
  assert (Hc : props_copyable (copyable 1 (mkCopyArgs true true false true None []) h)
                 (mkCopyArgs true true false true None []) h 3).
  { unfold props_copyable. cbn.
    repeat (apply Forall_cons; split); try apply Forall_nil; cbn;
      repeat split; try done.
    intros _ _. unfold props_copyable. cbn.
    repeat (apply Forall_cons; split); try apply Forall_nil; cbn; done. }
  split; [done|]. split; [done|].
  destruct (range_error_iff_empty 1 h) as (_ & _ & _ & Htotal).
  apply (Htotal 3 Hwf); [cbn; lia|done].
Defined.

(** ** duplicate, descriptors, deep copies *)


Lemma clone_transferred n F L LM h h' v v' :
  clone n F L LM h h' v v' -> transferred true L LM h v v'.
Proof.
  unfold transferred. destruct n, v; cbn; try done.
  all: try (destruct (match cls (get_obj h l) with
                      | CFunction _ | CRegExp => false | _ => true end); [|done]).
  all: intros (x & -> & Hge & _); eauto.
Qed.

Lemma assoc_NoDup_elem name d ps :
  NoDup ps.*1 -> (name, d) ∈ ps -> assoc name ps = Some d.
Proof.
  induction ps as [|[k d0] ps IH]; cbn; [set_solver|].
  intros [Hnin Hnd]%NoDup_cons [Heq|Hin]%elem_of_cons.
  - injection Heq as <- <-. by rewrite decide_True.
  - destruct (decide (k = name)) as [->|]; [|by apply IH].
    exfalso. apply Hnin. apply list_elem_of_fmap. by exists (name, d).
Qed.

(** A property that is not enumerable is left out of key enumeration. *)
Lemma forInKeys_hidden h l name d :
  wf_heap h -> l < length (objs h) ->
  getOwnPropertyDescriptor h l name = Some d -> d_enumerable d = false ->
  name ∉ forInKeys (S l) h l [].
Proof.
  intros Hwf Hl Hown Hen. cbn.
  destruct (wf_heap_object h l Hwf Hl) as (_ & _ & Hnd & _).
  intros [Hin|Hin]%elem_of_app.
  - apply list_elem_of_fmap in Hin as ([k d2] & -> & Hin).
    apply list_elem_of_filter in Hin as [[Hen2 _] Hin]. cbn in *.
    apply assoc_NoDup_elem in Hin; [|done].
    unfold getOwnPropertyDescriptor in Hown. congruence.
  - destruct (getPrototypeOf h l) as [p|] eqn:Hp; [|set_solver].
    apply (wf_heap_proto h l p Hwf Hl) in Hp.
    apply forInKeys_NoDup in Hin; [|done|lia].
    apply Hin. by eapply own_name_elem.
Qed.

Lemma get_own_data h t name v w e c :
  getOwnPropertyDescriptor h t name = Some (Data v w e c) -> get h t name = v.
Proof. intros Hown. unfold get. rewrite lookup_chain_own. by rewrite Hown. Qed.

(** C5: [duplicate(source)] is [copy({ assignPrototype: true, deep: true,
    descriptors: true, sources: [source] })]; on a source without circular
    references it returns a new object that has the prototype of the
    source and, for every own property of the source, enumerable or not,
    a property with the same attributes: the same accessor functions, or
    the copy of the value; and it has no other property. *)
Theorem duplicate_is_copy n h source :
  duplicate n h source =
    copy n h {| assignPrototype := true; deep := true; descriptors := true;
                inherited := false; target := None; sources := [source] |} ∧
  (wf_heap h → source < length (objs h) →
   props_copyable (copyable n (mkCopyArgs true true false true None []) h)
                  (mkCopyArgs true true false true None []) h source →
   ∃ h' t, duplicate (S n) h source = Ok (h', t) ∧
           length (objs h) ≤ t ∧ t < length (objs h') ∧
           getPrototypeOf h' t = getPrototypeOf h source ∧
           ∀ name,
             match getOwnPropertyDescriptor h source name with
             | Some (Accessor g s e c) =>
                 getOwnPropertyDescriptor h' t name = Some (Accessor g s e c)
             | Some (Data v w e c) =>
                 ∃ v', getOwnPropertyDescriptor h' t name = Some (Data v' w e c) ∧
                       clone n (mkCopyArgs true true false true None [])
                             (length (objs h)) (length (arrs h)) h h' v v'
             | None => getOwnPropertyDescriptor h' t name = None
             end).
Proof.
  split; [done|]. intros Hwf Hs Hc. unfold duplicate.
  destruct (copy_clone n h (mkCopyArgs true true false true None [source]) source
              Hwf Hs eq_refl eq_refl Hc)
    as (h' & t & Hrun & -> & Hlt & Hproto & Hcls & Hprops).
  exists h', (length (objs h)). split; [done|]. split; [done|]. split; [done|].
  split; [exact Hproto|]. intros name. specialize (Hprops name).
  cbn in Hprops. unfold copied_names, source_descriptor in Hprops. cbn in Hprops.
  destruct (getOwnPropertyDescriptor h source name) as [d|] eqn:Hown.
  - rewrite decide_True in Hprops by (by eapply own_name_elem).
    destruct Hprops as (v' & Hown' & Hclone).
    destruct d as [v w e c|g s e c]; cbn in Hown'; eauto.
  - by destruct (decide _).
Qed.

Lemma duplicate_fixture_copyable kwArgs :
  sources kwArgs = [] -> target kwArgs = None ->
  descriptors kwArgs = true -> inherited kwArgs = false ->
  props_copyable (copyable 1 kwArgs duplicate_fixture) kwArgs duplicate_fixture 3.
Proof.
  destruct kwArgs as [dp ds inh ap tg ss]. cbn. intros -> -> -> ->.
  unfold props_copyable. cbn.
  repeat (apply Forall_cons; split); try apply Forall_nil; cbn;
    repeat split; try done.
  intros _ _. unfold props_copyable. cbn.
  repeat (apply Forall_cons; split); try apply Forall_nil; cbn; done.
Qed.

Lemma duplicate_is_copy_witness :
  ∃ h' t, duplicate 2 duplicate_fixture 3 = Ok (h', t) ∧
          getPrototypeOf h' t = Some 1 ∧
          getOwnPropertyDescriptor h' t "c" = Some (Data (VNum 3) false false false) ∧
          ∃ l', getOwnPropertyDescriptor h' t "d" = Some (Data (VObj l') false false false) ∧
                l' ≠ 2 ∧
                getOwnPropertyDescriptor h' l' "e" = Some (Data (VNum 4) true true true).
Proof.
  destruct (duplicate_is_copy 1 duplicate_fixture 3) as [_ H].
  destruct H as (h' & t & Hrun & Hge & Hlt & Hproto & Hprops).
  - by apply wf_heapb_correct.
  - cbn. lia.
  - by apply duplicate_fixture_copyable.
  - exists h', t. split; [done|]. split; [done|].
    pose proof (Hprops "c") as Hc. pose proof (Hprops "d") as Hd.
    cbn in Hc, Hd.
    destruct Hc as (vc & Hc & ->).
    destruct Hd as (vd & Hd & l' & -> & Hl' & _ & _ & _ & He).
    split; [done|]. exists l'. split; [done|]. split; [lia|].
    specialize (He "e"). cbn in He.
    by destruct He as (ve & He & ->).
Defined.

Lemma desc_ok_value N M d : desc_ok N M d -> val_ok N M (d_value d).
Proof. by destruct d. Qed.

(** C3: with [descriptors], every property [copy] takes from a source
    reaches the target with its whole descriptor.  On every call that
    returns, for every name and the last source that has it: an accessor
    property arrives with the identical getter and setter and the same
    attributes, whether or not [deep] is set; a data property keeps its
    writable, enumerable and configurable attributes and holds the source's
    value -- under [deep] a new object or array where the value is a plain
    object or an array -- which a read of the target gives back, and a
    property that is not enumerable is left out of the target's key
    enumeration.  And the call does return for a single source without
    circular references when no target is given. *)
Theorem copy_descriptors n h kwArgs :
  wf_heap h → descriptors kwArgs = true →
  Forall (fun s => s < length (objs h)) (sources kwArgs) →
  (∀ g, given_target kwArgs = Some g →
        g < length (objs h) ∧ ∀ s, s ∈ sources kwArgs → g ∉ ancestors (S s) h s) →
  (∀ h' t, copy n h kwArgs = Ok (h', t) →
     ∀ srcs1 s srcs2 name d,
       sources kwArgs = srcs1 ++ s :: srcs2 →
       name ∈ copied_names kwArgs h s →
       (∀ s', s' ∈ srcs2 → name ∉ copied_names kwArgs h s') →
       source_descriptor kwArgs h s name = Some d →
       descriptor_transferred kwArgs h h' t name d) ∧
  (∀ s, sources kwArgs = [s] → given_target kwArgs = None →
        props_copyable (copyable n (flags kwArgs) h) (flags kwArgs) h s →
        ∃ h' t, copy (S n) h kwArgs = Ok (h', t)).
Proof.
  intros Hwf Hds Hvalid Hgiven. split.
  - intros h' t Hcopy srcs1 s srcs2 name d Hsrcs Hname Hlast Hd.
    assert (∃ source0 rest, sources kwArgs = source0 :: rest) as (source0 & rest & Hne).
    { rewrite Hsrcs. destruct srcs1; cbn; eauto. }
    destruct (makeTarget h kwArgs source0) as [h0 t0] eqn:Hmk.
    destruct (copy_spec n h kwArgs h' t source0 rest h0 t0 Hwf Hne Hvalid Hgiven Hmk Hcopy)
      as (-> & Hwf0 & Ht0 & _ & Hwin).
    specialize (Hwin name srcs1 s srcs2 Hsrcs Hname Hlast).
    rewrite Hds in Hwin. cbn in Hwin.
    destruct Hwin as (d0 & d' & Hd0 & (v' & Htr & Hd') & Hown).
    rewrite Hds in Hd'. subst d'. assert (d0 = d) as -> by congruence.
    assert (Hs : s < length (objs h)).
    { rewrite Forall_forall in Hvalid. apply Hvalid. rewrite Hsrcs. set_solver. }
    assert (Hfr : frame t0 h h0).
    { apply makeTarget_spec in Hmk. destruct (given_target kwArgs).
      - destruct Hmk as [-> _]. apply frame_refl.
      - apply preserves_frame. apply Hmk. }
    assert (Htr' : transferred (deep kwArgs) (length (objs h)) (length (arrs h)) h
                     (d_value d) v').
    { apply (transferred_stable t0 h _ _ (deep kwArgs) h0 (d_value d) v' Hfr); [|exact Htr].
      apply desc_ok_value. by eapply source_descriptor_wf. }
    assert (Hwf' : wf_heap h').
    { destruct (copy_copyArray_keep_wf n) as [Hk _].
      apply (Hk h kwArgs h' t0 Hcopy Hwf Hvalid). intros g Hg. by apply Hgiven. }
    assert (Ht' : t0 < length (objs h')).
    { destruct (copy_copyArray_frames n) as [Hf _].
      specialize (Hf h kwArgs h' t0 Hcopy).
      apply makeTarget_spec in Hmk.
      destruct (given_target kwArgs) as [g|].
      - destruct Hf as [_ Hf]. destruct Hmk as [-> _].
        apply frame_length in Hf. lia.
      - apply Hf. }
    destruct d as [v w e c|g s0 e c]; cbn in *; [|done].
    exists v'. split; [done|]. split; [done|].
    split; [by eapply get_own_data|].
    intros ->. by eapply forInKeys_hidden.
  - intros s Hsrcs Hnew Hc.
    assert (Hs : s < length (objs h)).
    { rewrite Hsrcs in Hvalid. by apply Forall_inv in Hvalid. }
    destruct (copy_clone n h kwArgs s Hwf Hs Hsrcs Hnew Hc) as (h' & t & Hrun & _).
    eauto.
Qed.

Lemma copy_descriptors_witness :
  let kwArgs := {| deep := true; descriptors := true; inherited := false;
                   assignPrototype := false; target := None; sources := [3] |} in
  ∃ h' t, copy 2 descriptors_fixture kwArgs = Ok (h', t) ∧
          getOwnPropertyDescriptor h' t "foo" = Some (Accessor (VObj 1) VUndefined true true) ∧
          getOwnPropertyDescriptor h' t "hidden" = Some (Data (VNum 2) false false false) ∧
          get h' t "hidden" = VNum 2 ∧
          ("hidden" ∉ forInKeys (S t) h' t []) ∧
          ∃ l', getOwnPropertyDescriptor h' t "d" = Some (Data (VObj l') true true true) ∧
                4 ≤ l'.
Proof.
  intros kwArgs.
  assert (Hwf : wf_heap descriptors_fixture) by (by apply wf_heapb_correct).
  assert (Hvalid : Forall (fun s => s < length (objs descriptors_fixture)) (sources kwArgs)).
  { repeat constructor. }
  assert (Hgiven : ∀ g, given_target kwArgs = Some g →
            g < length (objs descriptors_fixture) ∧
            ∀ s, s ∈ sources kwArgs → g ∉ ancestors (S s) descriptors_fixture s).
  { done. }
  destruct (copy_descriptors 1 descriptors_fixture kwArgs Hwf eq_refl Hvalid Hgiven)
    as [_ Hreturns].
  destruct (Hreturns 3 eq_refl eq_refl) as (h' & t & Hcopy).
  { unfold props_copyable. cbn.
    repeat (apply Forall_cons; split); try apply Forall_nil; cbn;
      repeat split; try done.
    intros _ _. unfold props_copyable. cbn.
    repeat (apply Forall_cons; split); try apply Forall_nil; cbn; done. }
  destruct (copy_descriptors 2 descriptors_fixture kwArgs Hwf eq_refl Hvalid Hgiven)
    as [Hprops _].
  specialize (Hprops h' t Hcopy [] 3 [] ).
  pose proof (Hprops "foo" _ eq_refl ltac:(cbn; set_solver) ltac:(set_solver) eq_refl) as Hfoo.
  pose proof (Hprops "hidden" _ eq_refl ltac:(cbn; set_solver) ltac:(set_solver) eq_refl)
    as (v1 & Hh & Htr1 & Hget & Hkeys).
  pose proof (Hprops "d" _ eq_refl ltac:(cbn; set_solver) ltac:(set_solver) eq_refl)
    as (v2 & Hd & Htr2 & _).
  cbn in Hfoo, Htr1, Htr2. subst v1. destruct Htr2 as (l' & -> & Hl').
  exists h', t. split; [done|]. split; [done|]. split; [done|]. split; [done|].
  split; [by apply Hkeys|]. by exists l'.
Defined.



(** * Further properties of src/lang.ts *)

(** ** isIdentical *)

(** [isIdentical] is identity of values with [NaN] identical to itself: it
    holds exactly of equal values, so it is reflexive, symmetric and
    transitive, and it differs from [===] on the one pair [(NaN, NaN)]. *)
Theorem isIdentical_identity :
  (∀ a b, isIdentical a b = true ↔ a = b) ∧
  (∀ a b, isIdentical a b ≠ strict_equal a b ↔ a = VNaN ∧ b = VNaN).
Proof.
  assert (Hse : ∀ a b, strict_equal a b = true ↔ a = b ∧ a ≠ VNaN).
  { intros a b. destruct a, b; cbn; rewrite ?bool_decide_eq_true; naive_solver. }
  assert (Hnan : ∀ a, strict_equal a a = false ↔ a = VNaN).
  { intros a. rewrite <- not_true_iff_false, Hse.
    destruct (decide (a = VNaN)); naive_solver. }
  split; intros a b; unfold isIdentical.
  - rewrite orb_true_iff, andb_true_iff, !negb_true_iff, !Hnan, Hse.
    destruct (decide (a = VNaN)); naive_solver.
  - destruct (strict_equal a b) eqn:E; cbn.
    + apply Hse in E. naive_solver.
    + rewrite not_false_iff_true, andb_true_iff, !negb_true_iff, !Hnan. done.
Qed.

(** ** getPropertyDescriptor *)

Lemma lookup_chain_nearest h name : ∀ n l,
  lookup_chain n h l name = nearest_owner h (ancestors n h l) name.
Proof.
  unfold nearest_owner. induction n as [|n IH]; intros l; [done|].
  rewrite lookup_chain_own. cbn [ancestors omap list_omap].
  destruct (getOwnPropertyDescriptor h l name) as [d|]; [done|].
  destruct (getPrototypeOf h l) as [p|]; [apply IH|done].
Qed.

(** In a well-formed store the walk from [l] has reached an object without
    a prototype before it runs out of steps. *)
Lemma ancestors_complete h : ∀ n l,
  wf_heap h -> l < length (objs h) -> l < n ->
  ∃ c, last (ancestors n h l) = Some c ∧ getPrototypeOf h c = None.
Proof.
  induction n as [|n IH]; intros l Hwf Hl Hn; [lia|]. cbn.
  destruct (getPrototypeOf h l) as [p|] eqn:Hp.
  - apply (wf_heap_proto h l p Hwf Hl) in Hp as Hlt.
    destruct (IH p Hwf) as (c & Hlast & Hc); [lia..|].
    exists c. split; [|done].
    destruct (ancestors n h p) as [|x xs] eqn:Hanc; [done|].
    by rewrite last_cons, Hlast.
  - exists l. by split.
Qed.

Lemma nearest_owner_None h ls name :
  nearest_owner h ls name = None ↔
  ∀ c, c ∈ ls → getOwnPropertyDescriptor h c name = None.
Proof.
  unfold nearest_owner. induction ls as [|c ls IH]; cbn; [set_solver|].
  destruct (getOwnPropertyDescriptor h c name) as [d|] eqn:Hd; cbn.
  - split; [done|]. intros H. specialize (H c). rewrite Hd in H.
    apply H. set_solver.
  - rewrite IH. split.
    + intros H c' [->|Hin]%elem_of_cons; [done|by apply H].
    + intros H c' Hin. apply H. set_solver.
Qed.

(** [getPropertyDescriptor(object, property)] is the own descriptor of the
    nearest object that has the property, on the whole chain from [object]
    to the object without prototype -- the root object prototype included,
    other than in [getPropertyNames].  So an own property of [object] hides
    the ones of its prototypes, and the result is [undefined] exactly when
    no object of the chain has the property. *)
Theorem getPropertyDescriptor_nearest h object property :
  wf_heap h → object < length (objs h) →
  let chain := ancestors (S object) h object in
  getPropertyDescriptor h object property = nearest_owner h chain property ∧
  head chain = Some object ∧
  (∃ c, last chain = Some c ∧ getPrototypeOf h c = None) ∧
  (∀ d, getOwnPropertyDescriptor h object property = Some d →
        getPropertyDescriptor h object property = Some d) ∧
  (getPropertyDescriptor h object property = None ↔
   ∀ c, c ∈ chain → getOwnPropertyDescriptor h c property = None).
Proof.
  intros Hwf Hl chain. unfold getPropertyDescriptor.
  split; [apply lookup_chain_nearest|]. split; [done|].
  split; [apply ancestors_complete; [done..|lia]|]. split.
  - intros d Hd. by rewrite lookup_chain_own, Hd.
  - rewrite lookup_chain_nearest. apply nearest_owner_None.
Qed.

Lemma getPropertyDescriptor_nearest_witness :
  getPropertyDescriptor getPropertyDescriptor_fixture 4 "foo" =
    getOwnPropertyDescriptor getPropertyDescriptor_fixture 3 "foo" ∧
  getPropertyDescriptor getPropertyDescriptor_fixture 5 "foo" =
    getOwnPropertyDescriptor getPropertyDescriptor_fixture 5 "foo" ∧
  getPropertyDescriptor getPropertyDescriptor_fixture 4 "bar" = None.
Proof.
  assert (Hwf : wf_heap getPropertyDescriptor_fixture) by (by apply wf_heapb_correct).
  destruct (getPropertyDescriptor_nearest getPropertyDescriptor_fixture 4 "foo" Hwf)
    as (H2 & _); [cbn; lia|].
  destruct (getPropertyDescriptor_nearest getPropertyDescriptor_fixture 5 "foo" Hwf)
    as (_ & _ & _ & H3 & _); [cbn; lia|].
  destruct (getPropertyDescriptor_nearest getPropertyDescriptor_fixture 4 "bar" Hwf)
    as (_ & _ & _ & _ & Hnone); [cbn; lia|].
  split; [by rewrite H2|]. split; [by apply H3|].
  apply Hnone. intros c Hc. cbn in Hc.
  repeat (apply elem_of_cons in Hc as [->|Hc]; [done|]). set_solver.
Defined.

(** ** getPropertyNames and getPropertyDescriptor *)

(** Every name [getPropertyNames(object)] returns has a descriptor for
    [getPropertyDescriptor(object, name)]; so, in each of its modes, [copy]
    finds a descriptor for every name it takes from a source, and never
    reads [value] off [undefined]. *)
Theorem getPropertyNames_described h object :
  (∀ name, name ∈ getPropertyNames h object →
           is_Some (getPropertyDescriptor h object name)) ∧
  (∀ kwArgs name, name ∈ copied_names kwArgs h object →
                  is_Some (source_descriptor kwArgs h object name)).
Proof.
  split; [|intros kwArgs name; apply source_descriptor_is_Some].
  intros name Hin.
  unfold getPropertyNames in Hin. rewrite getPropertyNames_loop_spec in Hin.
  cbn [app] in Hin. apply elem_of_first_seen in Hin as [Hin _].
  unfold names_of_levels in Hin.
  apply list_elem_of_In, in_concat in Hin as (ns & Hns & Hin).
  apply in_map_iff in Hns as (c & <- & Hc).
  apply list_elem_of_In in Hc, Hin.
  by eapply lookup_chain_levels.
Qed.

(** ** create *)

Lemma get_obj_alloc_obj h o : get_obj (alloc_obj h o).1 (length (objs h)) = o.
Proof. unfold get_obj, alloc_obj. cbn. by rewrite list_lookup_middle. Qed.

(** Without [descriptors] and [inherited], [copy] takes the enumerable own
    properties of a source. *)
Lemma copied_names_own_enumerable kwArgs h s name :
  wf_heap h -> s < length (objs h) ->
  descriptors kwArgs = false -> inherited kwArgs = false ->
  name ∈ copied_names kwArgs h s ↔ own_enumerable h s name.
Proof.
  intros Hwf Hs Hds Hinh. split.
  - unfold copied_names. rewrite Hds, Hinh. cbn.
    intros [Hown Hin]%list_elem_of_filter.
    unfold hasOwnProperty in Hown. apply bool_decide_eq_true in Hown as [d Hd].
    exists d. split; [done|].
    destruct (wf_heap_object h s Hwf Hs) as (_ & _ & Hnd & _).
    apply elem_of_app in Hin as [Hin|Hin].
    + apply list_elem_of_fmap in Hin as ([k d2] & -> & Hin).
      apply list_elem_of_filter in Hin as [[Hen _] Hin]. cbn in *.
      apply assoc_NoDup_elem in Hin; [|done].
      unfold getOwnPropertyDescriptor in Hd. congruence.
    + exfalso. destruct (getPrototypeOf h s) as [p|] eqn:Hp; [|set_solver].
      apply (wf_heap_proto h s p Hwf Hs) in Hp.
      apply forInKeys_NoDup in Hin; [|done|lia].
      apply Hin. by eapply own_name_elem.
  - intros (d & Hd & Hen). by eapply copied_names_own.
Qed.

(** [create(prototype, ...mixins)], for a prototype whose chain holds
    writable data properties only: it returns a new object made from
    [prototype]; no object that was there is changed; its own properties
    are the enumerable own properties of the mixins -- not their inherited
    nor their non-enumerable ones -- each as a writable, enumerable and
    configurable data property holding what the last mixin that has the
    name gives for it, nested objects by reference. *)
Theorem create_mixes n h prototype mixins :
  wf_heap h → prototype < length (objs h) →
  Forall (fun s => s < length (objs h)) mixins → mixins ≠ [] →
  assignable_chain h prototype →
  ∃ h' t, create (S n) h prototype mixins = Ok (h', t) ∧
          t = length (objs h) ∧ preserves h h' ∧
          getPrototypeOf h' t = Some prototype ∧
          (∀ name, (∀ s, s ∈ mixins → ¬ own_enumerable h s name) →
                   getOwnPropertyDescriptor h' t name = None) ∧
          (∀ name ms1 s ms2,
             mixins = ms1 ++ s :: ms2 → own_enumerable h s name →
             (∀ s', s' ∈ ms2 → ¬ own_enumerable h s' name) →
             getOwnPropertyDescriptor h' t name =
               Some (Data (get h s name) true true true)).
Proof.
  intros Hwf Hp Hvalid Hne Hchain.
  destruct mixins as [|m0 rest] eqn:Hmix; [done|]. rewrite <- Hmix in *.
  set (o := Object (Some prototype) CObject true []).
  set (t := length (objs h)).
  set (kwArgs := mkCopyArgs false false false false (Some t) mixins).
  assert (Hcreate : create (S n) h prototype mixins = copy (S n) (alloc_obj h o).1 kwArgs).
  { unfold create, kwArgs. by rewrite Hmix. }
  rewrite Hcreate. clear Hcreate.
  assert (Hpres : preserves h (alloc_obj h o).1) by apply alloc_obj_preserves.
  assert (Hwf0 : wf_heap (alloc_obj h o).1) by (by apply alloc_obj_wf).
  set (h0 := (alloc_obj h o).1) in *.
  assert (Hlen : length (objs h0) = S t).
  { unfold h0. cbn. rewrite length_app. cbn. unfold t. lia. }
  assert (Hobj : get_obj h0 t = o) by apply get_obj_alloc_obj.
  assert (Hown0 : ∀ name, getOwnPropertyDescriptor h0 t name = None).
  { intros name. unfold getOwnPropertyDescriptor. by rewrite Hobj. }
  assert (Hvalid0 : Forall (fun s => s < length (objs h0)) (sources kwArgs)).
  { apply Forall_forall. intros s Hs. rewrite Forall_forall in Hvalid.
    specialize (Hvalid s Hs). rewrite Hlen. unfold t. lia. }
  assert (Hanc : ∀ s, s ∈ mixins → t ∉ ancestors (S s) h0 s).
  { intros s Hs Hin. rewrite Forall_forall in Hvalid. specialize (Hvalid s Hs).
    apply wf_ancestors_le in Hin; [|done|lia]. fold t in Hvalid. lia. }
  assert (Hlook : ∀ name, lookup_chain (S t) h0 t name =
                          lookup_chain (S prototype) h prototype name).
  { intros name. rewrite lookup_chain_own, Hown0.
    unfold getPrototypeOf. rewrite Hobj.
    change (proto o) with (Some prototype). cbv beta iota.
    rewrite (lookup_chain_fuel h0 name t (S prototype) prototype); [|done|lia..].
    apply lookup_chain_agree. intros c Hc.
    apply wf_ancestors_le in Hc; [|done..].
    apply preserves_get_obj; [done|lia]. }
  assert (Hacc : accepts_assignments h0 t).
  { split; [by rewrite Hobj|]. intros name d. rewrite Hlook. apply Hchain. }
  assert (Hint : ∀ name, intercepted h0 t name = false).
  { intros name. unfold intercepted.
    destruct (lookup_chain (S t) h0 t name) as [d|] eqn:Hd; [|done].
    by destruct (proj2 Hacc name d Hd) as (v & e & c & ->). }
  destruct (copySources_total (copy n) (copyArray n) kwArgs t h0
              (length (objs h0)) (length (arrs h0)) Hwf0 ltac:(lia) ltac:(lia) ltac:(lia)
              mixins h0 eq_refl eq_refl Hacc (frame_refl t h0))
    as [h' Hrun]; [intros name; by left|].
  assert (Hcopy : copy (S n) h0 kwArgs = Ok (h', t)).
  { cbn [copy]. unfold copy_body. change (sources kwArgs) with mixins.
    rewrite Hmix at 1. cbv beta iota.
    change (makeTarget h0 kwArgs m0) with (h0, t). cbv beta iota.
    by rewrite Hrun. }
  exists h', t. split; [exact Hcopy|]. split; [done|].
  destruct (copy_copyArray_frames (S n)) as [Hfr _].
  destruct (Hfr h0 kwArgs h' t Hcopy) as [_ Hframe].
  split; [apply (preserves_then_frame t h h0 h'); [done..|unfold t; lia]|].
  split.
  { destruct Hframe as (_ & _ & Hsame & _).
    destruct Hsame as (Hproto & _); [lia|].
    unfold getPrototypeOf. by rewrite Hproto, Hobj. }
  destruct (copy_spec (S n) h0 kwArgs h' t m0 rest h0 t Hwf0) as (_ & _ & _ & Hkeep & Hwin);
    [by cbn|done| |by cbn|done|].
  { intros g [= <-]. split; [lia|]. intros s Hs. by apply Hanc. }
  assert (Hnames : ∀ s name, s ∈ mixins →
            name ∈ copied_names kwArgs h0 s ↔ own_enumerable h s name).
  { intros s name Hs. rewrite Forall_forall in Hvalid. specialize (Hvalid s Hs).
    destruct (preserves_reads kwArgs h Hwf h0 s Hpres Hvalid) as (-> & _).
    by apply copied_names_own_enumerable. }
  split.
  - intros name Hnone. rewrite Hkeep; [done|].
    intros s Hs Hin. apply (Hnone s Hs). by apply Hnames.
  - intros name ms1 s ms2 Hsplit Hs Hlast.
    assert (Hsin : s ∈ mixins) by (rewrite Hsplit; set_solver).
    specialize (Hwin name ms1 s ms2 Hsplit (proj2 (Hnames s name Hsin) Hs)).
    rewrite Hint in Hwin. cbn in Hwin.
    destruct Hwin as (d & d' & Hd & (v' & Htr & Hd') & Hown).
    { intros s' Hs' Hin. apply (Hlast s' Hs'). apply Hnames; [|done].
      rewrite Hsplit. set_solver. }
    rewrite Hown0 in Hd'. cbn in Hd'. subst d'.
    apply transferred_shallow in Htr. subst v'.
    rewrite Forall_forall in Hvalid. specialize (Hvalid s Hsin).
    destruct (preserves_reads kwArgs h Hwf h0 s Hpres Hvalid) as (_ & Hsd & _).
    change (source_descriptor kwArgs h0 s name = Some d) in Hd.
    rewrite Hsd in Hd. injection Hd as <-. by rewrite Hown.
Qed.

Lemma create_mixes_witness :
  ∃ h' t, create 1 create_fixture 1 [4] = Ok (h', t) ∧
          getPrototypeOf h' t = Some 1 ∧
          getOwnPropertyDescriptor h' t "b" = Some (Data (VObj 3) true true true) ∧
          getOwnPropertyDescriptor h' t "d" = Some (Data (VNum 3) true true true) ∧
          getOwnPropertyDescriptor h' t "e" = None ∧
          getOwnPropertyDescriptor h' t "lorem" = None.
Proof.
  destruct (create_mixes 0 create_fixture 1 [4])
    as (h' & t & Hrun & _ & _ & Hproto & Hnone & Hsome).
  - by apply wf_heapb_correct.
  - cbn. lia.
  - repeat constructor.
  - done.
  - intros name d. cbn. unfold getOwnPropertyDescriptor. cbn.
    destruct (decide ("a" = name)); [|done]. intros [= <-]. eauto.
  - exists h', t. split; [done|]. split; [done|].
    assert (Hno : ∀ name, getOwnPropertyDescriptor create_fixture 4 name = None ∨
                          (∃ d, getOwnPropertyDescriptor create_fixture 4 name = Some d ∧
                                d_enumerable d = false) →
                          getOwnPropertyDescriptor h' t name = None).
    { intros name Hname. apply Hnone. intros s ->%list_elem_of_singleton (d & Hd & Hen).
      destruct Hname as [Hname|(d' & Hname & Hen')]; congruence. }
    split; [|split; [|split]].
    + apply (Hsome "b" [] 4 [] eq_refl); [by eexists|set_solver].
    + apply (Hsome "d" [] 4 [] eq_refl); [by eexists|set_solver].
    + apply Hno. right. by eexists.
    + apply Hno. by left.
Defined.

(** ** The object copy makes *)



(** ** copyArray *)

Lemma mapItems_transferred n kwArgs h items : ∀ hi h1 items',
  wf_heap h -> preserves h hi ->
  Forall (val_ok (length (objs h)) (length (arrs h))) items ->
  mapItems (copyItem (copy n) (copyArray n) kwArgs) hi items = Ok (h1, items') ->
  preserves h h1 ∧
  Forall2 (transferred true (length (objs h)) (length (arrs h)) h) items items'.
Proof.
  destruct (copy_copyArray_frames n) as [Hf1 Hf2].
  induction items as [|item items IH]; intros hi h1 items' Hwf Hpres Hok Hrun;
    cbn in Hrun.
  - injection Hrun as <- <-. split; [done|constructor].
  - apply bind_Ok in Hrun as ([h2 item'] & Hitem & Hrun).
    apply bind_Ok in Hrun as ([h3 rest'] & Hrest & Hrun).
    injection Hrun as <- <-.
    apply Forall_cons in Hok as [Hv Hok].
    pose proof (copyItem_preserves _ _ Hf1 Hf2 _ _ _ _ _ Hitem) as Hp2.
    destruct (IH h2 h3 rest' Hwf (preserves_trans _ _ _ Hpres Hp2) Hok Hrest)
      as [Hp3 Hall].
    split; [done|]. constructor; [|done].
    pose proof Hpres as (Hlen & _). pose proof (preserves_arrs_length _ _ Hpres) as Hlen'.
    destruct item; cbn in Hitem; try (by injection Hitem as <- <-).
    + assert (His : isObject hi (VObj l) = isObject h (VObj l)).
      { apply isObject_agree. intros l0 [= <-].
        by rewrite (preserves_get_obj h hi). }
      change (match cls (get_obj hi l) with
              | CFunction _ | CRegExp => false | _ => true end)
        with (isObject hi (VObj l)) in Hitem.
      unfold transferred. cbn [andb]. rewrite <- His.
      destruct (isObject hi (VObj l)); [|by injection Hitem as <- <-].
      apply bind_Ok in Hitem as ([h4 l'] & Hcopy & Hitem). injection Hitem as <- <-.
      apply Hf1 in Hcopy. unfold given_target in Hcopy. cbn in Hcopy.
      exists l'. split; [done|]. destruct (assignPrototype kwArgs); lia.
    + apply bind_Ok in Hitem as ([h4 a'] & Hcopy & Hitem). injection Hitem as <- <-.
      apply Hf2 in Hcopy as (_ & Hge & _). cbn. exists a'. split; [done|lia].
Qed.

(** [copyArray(array, kwArgs)], when it returns, returns a new array and
    leaves every object and array that was there as it was; the new array
    has the length of [array], and its elements are, in order, those of
    [array]: a new array for an array, a new object for what [isObject]
    accepts -- whether or not [kwArgs.deep] is set --, the element itself
    for a primitive, a function or a regular expression. *)
Theorem copyArray_elements n h array kwArgs h' a' :
  wf_heap h → array < length (arrs h) →
  copyArray n h array kwArgs = Ok (h', a') →
  length (arrs h) ≤ a' ∧ preserves h h' ∧
  length (get_arr h' a') = length (get_arr h array) ∧
  Forall2 (transferred true (length (objs h)) (length (arrs h)) h)
          (get_arr h array) (get_arr h' a').
Proof.
  intros Hwf Ha Hrun. destruct n as [|n]; [done|].
  cbn [copyArray] in Hrun. unfold copyArray_body in Hrun.
  apply bind_Ok in Hrun as ([h1 items'] & Hmap & Hret).
  injection Hret as <- <-.
  destruct (mapItems_transferred n kwArgs h (get_arr h array) h h1 items' Hwf)
    as [Hpres Hall]; [apply preserves_refl| |done|].
  { destruct Hwf as (_ & _ & Harr). by apply Harr. }
  assert (Hget : get_arr (Heap (objs h1) (arrs h1 ++ [items'])) (length (arrs h1)) = items').
  { unfold get_arr. cbn. by rewrite list_lookup_middle. }
  split; [by apply preserves_arrs_length|].
  split; [apply (preserves_trans _ _ _ Hpres), alloc_arr_preserves|].
  rewrite Hget. split; [|done]. symmetry. by eapply Forall2_length.
Qed.

Lemma copyArray_elements_witness :
  let kwArgs := {| deep := false; descriptors := false; inherited := false;
                   assignPrototype := false; target := None; sources := [] |} in
  ∃ h' a' l', copyArray 2 deep_fixture 0 kwArgs = Ok (h', a') ∧
              1 ≤ a' ∧ get_arr h' a' = [VNum 1; VObj l'] ∧ 5 ≤ l' ∧
              get_arr h' 0 = [VNum 1; VObj 1].
Proof.
  intros kwArgs.
  destruct (copyArray 2 deep_fixture 0 kwArgs) as [[h' a']| |] eqn:Hrun;
    [|by vm_compute in Hrun..].
  destruct (copyArray_elements 2 deep_fixture 0 kwArgs h' a') as (Hge & Hpres & _ & Hall).
  - by apply wf_heapb_correct.
  - cbn. lia.
  - done.
  - change (get_arr deep_fixture 0) with [VNum 1; VObj 1] in Hall.
    apply Forall2_cons_inv_l in Hall as (v1 & rest & Hv1 & Hall & Heq).
    apply Forall2_cons_inv_l in Hall as (v2 & rest' & Hv2 & Hall & ->).
    apply Forall2_nil_inv_l in Hall as ->.
    cbn in Hv1, Hv2. subst v1. destruct Hv2 as (l' & -> & Hl').
    exists h', a', l'. split; [done|]. split; [done|]. split; [done|]. split; [done|].
    by rewrite (preserves_get_arr deep_fixture h' 0 Hpres) by (cbn; lia).
Defined.

(** ** lateBind and partial *)

Lemma lateBind_args_app f arguments :
  lateBind_args f arguments = lb_suppliedArgs f ++ arguments.
Proof.
  unfold lateBind_args. destruct (lb_suppliedArgs f); [done|].
  destruct arguments; [by rewrite app_nil_r|done].
Qed.

Lemma partial_args_app f arguments :
  partial_args f arguments = pa_suppliedArgs f ++ arguments.
Proof. unfold partial_args. destruct arguments; [by rewrite app_nil_r|done]. Qed.

(** The function [lateBind(instance, method, ...suppliedArgs)] returns
    calls, with [instance] as receiver and the supplied arguments followed
    by its own, whatever [instance[method]] is at the time of the call:
    after an assignment [instance[method] = g] that is stored, it calls
    [g], whether the method was there, was another one or was missing when
    the function was made. *)
Theorem lateBind_late h h' instance method suppliedArgs arguments g :
  let f := lateBind instance method suppliedArgs in
  ap_this (lateBind_call h f arguments) = VObj instance ∧
  ap_args (lateBind_call h f arguments) = suppliedArgs ++ arguments ∧
  (instance < length (objs h) →
   put h instance method g = Ok h' →
   intercepted h instance method = false →
   ap_callee (lateBind_call h' f arguments) = g).
Proof.
  intros f. split; [done|]. split; [apply lateBind_args_app|].
  intros Hi Hput Hint. cbn.
  apply put_spec in Hput as [[Hint' _]|(_ & w & e & c & _ & ->)]; [congruence|].
  eapply get_own_data. rewrite own_set_prop by done. by rewrite decide_True.
Qed.

Lemma lateBind_late_witness :
  let h := Heap [Object None CObject true [];
                 Object (Some 0) CObject true [];
                 Object (Some 0) (CFunction (VStr "fox")) true []] [] in
  let f := lateBind 1 "method" [VStr "The"; VStr "quick"] in
  ap_callee (lateBind_call h f [VStr "brown"]) = VUndefined ∧
  ∃ h', put h 1 "method" (VObj 2) = Ok h' ∧
        lateBind_call h' f [VStr "brown"] =
          Applied (VObj 2) (VObj 1) [VStr "The"; VStr "quick"; VStr "brown"].
Proof.
  intros h f. split; [done|].
  destruct (put h 1 "method" (VObj 2)) as [h'| |] eqn:Hput; [|by vm_compute in Hput..].
  exists h'. split; [done|].
  destruct (lateBind_late h h' 1 "method" [VStr "The"; VStr "quick"] [VStr "brown"] (VObj 2))
    as (Hthis & Hargs & Hcallee).
  specialize (Hcallee ltac:(cbn; lia) Hput eq_refl).
  fold f in Hcallee.
  destruct (lateBind_call h' f [VStr "brown"]) as [callee this args] eqn:Hcall.
  cbn in Hcallee. subst callee.
  unfold lateBind_call in Hcall. by injection Hcall as _ <- <-.
Defined.

(** The function [partial(targetFunction, ...suppliedArgs)] returns calls
    [targetFunction] on its own receiver with the supplied arguments
    followed by its own.  So partial applications compose: applying
    [partial] to the result of [partial(targetFunction, ...a)] with the
    arguments [b] makes a function that calls [targetFunction] as
    [partial(targetFunction, ...a, ...b)] does. *)
Theorem partial_composes targetFunction inner a b c this :
  let outer := partial_call (partial inner b) this c in
  partial_call (partial targetFunction a) this c = Applied targetFunction this (a ++ c) ∧
  ap_callee outer = inner ∧
  partial_call (partial targetFunction a) (ap_this outer) (ap_args outer) =
    partial_call (partial targetFunction (a ++ b)) this c.
Proof.
  intros outer. unfold outer, partial_call, partial. cbn.
  rewrite !partial_args_app. cbn. split; [done|]. split; [done|].
  by rewrite app_assoc.
Qed.

(** * Further properties of src/util.ts *)

Module UtilTraces.
Import Util.
Section Wrappers.
Context {C A : Type}.
Variable delay : Z.

(** ** debounce *)

Lemma debounce_trace_from evs : ∀ last (s s' : @debounced C A),
  next_id (d_host s) ≠ 0 ->
  match last with
  | None => debounce_idle s
  | Some (t0, this, args) =>
      ∃ id, debounce_waiting s (Scheduled id (t0 + delay) this args)
  end ->
  run (debounce_step delay) s evs = Some s' ->
  d_executed s' = d_executed s ++ debounce_executions last evs ∧
  debounce_timely delay last evs ∧
  pending_for delay (debounce_last last evs) (pending (d_host s')).
Proof.
  induction evs as [|e evs IH]; intros last s s' Hid Hlast; cbn [run].
  - intros [= <-]. cbn. rewrite app_nil_r. split; [done|]. split; [done|].
    destruct last as [[[t0 this] args]|].
    + destruct Hlast as (id & _ & Hp & _). by exists id.
    + apply Hlast.
  - destruct (debounce_step delay s e) as [s1|] eqn:Hstep; [|done].
    intros Hrun. destruct e as [t this args|t id].
    + apply UtilProps.debounce_step_invoke in Hstep as [_ ->].
      2:{ split; [done|]. destruct last as [[[t0 this0] args0]|]; [right|by left].
          destruct Hlast as [id Hw]. eauto. }
      apply (IH (Some (t, this, args))) in Hrun; [done|done|].
      exists (next_id (d_host s)). done.
    + destruct last as [[[t0 this] args]|].
      * destruct Hlast as [id0 Hw].
        rewrite (UtilProps.debounce_step_fire_waiting delay s _ t id Hw) in Hstep.
        destruct (decide _) as [(_ & _ & Hdue)|]; [|done]. injection Hstep as <-.
        apply (IH None) in Hrun; [|done|done].
        destruct Hrun as (Hex & Htimely & Hpend). cbn in *.
        rewrite Hex, <- app_assoc. done.
      * by rewrite UtilProps.debounce_step_fire_idle in Hstep.
Qed.

(** Whatever calls and timer runs a debounced function goes through, from
    its creation on: the callback has been executed once for each timer
    run, with the receiver and the arguments of the last call before that
    run, and in no other case; every timer run came [delay] or more after
    the last call before it, and no two of them without a call in between;
    and at the end one timer is pending if a call came after the last run
    -- due [delay] after the last call, holding its receiver and arguments
    -- and none otherwise. *)
Theorem debounce_trace evs (s : @debounced C A) :
  run (debounce_step delay) debounce evs = Some s →
  d_executed s = debounce_executions None evs ∧
  debounce_timely delay None evs ∧
  pending_for delay (debounce_last None evs) (pending (d_host s)).
Proof.
  intros Hrun. by apply (debounce_trace_from evs None debounce s) in Hrun.
Qed.

(** ** throttleAfter *)

Lemma throttleAfter_trace_from evs : ∀ first (s s' : @throttledAfter C A),
  ta_ran s = bool_decide (is_Some first) ->
  pending_for delay first (pending (ta_host s)) ->
  run (throttleAfter_step delay) s evs = Some s' ->
  ta_executed s' = ta_executed s ++ throttleAfter_executions first evs ∧
  throttleAfter_timely delay first evs ∧
  pending_for delay (throttleAfter_first first evs) (pending (ta_host s')).
Proof.
  induction evs as [|e evs IH]; intros first s s' Hran Hpend; cbn [run].
  - intros [= <-]. cbn. by rewrite app_nil_r.
  - destruct (throttleAfter_step delay s e) as [s1|] eqn:Hstep; [|done].
    intros Hrun. destruct e as [t this args|t id]; cbn in Hstep.
    + destruct (decide _); [|done].
      destruct first as [[[t0 this0] args0]|]; cbn in Hran; rewrite Hran in Hstep.
      * injection Hstep as <-. by apply (IH (Some (t0, this0, args0))) in Hrun.
      * injection Hstep as <-. cbn in Hpend.
        apply (IH (Some (t, this, args))) in Hrun; [done|done|].
        cbn. rewrite Hpend. by eexists.
    + destruct first as [[[t0 this0] args0]|]; cbn in Hpend.
      * destruct Hpend as [id0 Hp].
        rewrite (UtilProps.find_timer_single _ _ id Hp) in Hstep. cbn in Hstep.
        destruct (decide (id0 = id)) as [<-|]; [|done].
        destruct (decide _) as [[_ Hdue]|]; [|done]. injection Hstep as <-.
        apply (IH None) in Hrun; [|done|].
        -- destruct Hrun as (Hex & Htimely & Hpend'). cbn in *.
           rewrite Hex, <- app_assoc. done.
        -- cbn. rewrite Hp. cbn. by rewrite decide_False by (intros H; by apply H).
      * unfold find_timer in Hstep. by rewrite Hpend in Hstep.
Qed.

(** Whatever calls and timer runs a throttled-after function goes through,
    from its creation on: the callback has been executed once for each
    timer run, with the receiver and the arguments of the first call after
    the run before -- the calls between that one and the timer run are
    dropped; every timer run came [delay] or more after that first call;
    and at the end one timer is pending if a call came after the last run,
    due [delay] after the first such call, and none otherwise. *)
Theorem throttleAfter_trace evs (s : @throttledAfter C A) :
  run (throttleAfter_step delay) throttleAfter evs = Some s →
  ta_executed s = throttleAfter_executions None evs ∧
  throttleAfter_timely delay None evs ∧
  pending_for delay (throttleAfter_first None evs) (pending (ta_host s)).
Proof.
  intros Hrun. by apply (throttleAfter_trace_from evs None throttleAfter s) in Hrun.
Qed.

(** ** throttle *)

Lemma throttle_no_delay_from cs : ∀ (s : @throttled C A),
  (delay ≤ 0)%Z -> clock_ordered cs ->
  match cs with
  | c :: _ => lastRunTick s = 0%Z ∨ (lastRunTick s ≤ c_now c)%Z
  | [] => True
  end ->
  th_executed (foldl (throttle_call delay) s cs) =
  th_executed s ++ map (fun c => (c_this c, c_args c)) cs.
Proof.
  induction cs as [|c cs IH]; intros s Hd Hord Hfirst; cbn [foldl map].
  - by rewrite app_nil_r.
  - assert (Hstep : throttle_call delay s c =
                    Throttled (c_after c) (th_executed s ++ [(c_this c, c_args c)])).
    { unfold throttle_call. destruct Hfirst as [H0|Hle].
      - by rewrite (bool_decide_eq_true_2 _ H0).
      - rewrite (bool_decide_eq_true_2 (delay ≤ c_now c - lastRunTick s)%Z) by lia.
        by rewrite orb_true_r. }
    rewrite Hstep, IH; [|done| |].
    + cbn. by rewrite <- app_assoc.
    + destruct cs; [done|]. apply Hord.
    + destruct cs as [|c' cs]; [done|]. right. cbn. apply Hord.
Qed.

(** With a [delay] of zero or less, on a clock that never runs backwards,
    a throttled function drops nothing: every call runs the callback. *)
Theorem throttle_no_delay (cs : list (@call C A)) :
  (delay ≤ 0)%Z → clock_ordered cs →
  th_executed (foldl (throttle_call delay) throttle cs) =
  map (fun c => (c_this c, c_args c)) cs.
Proof.
  intros Hd Hord. rewrite throttle_no_delay_from; [done..|].
  destruct cs; [done|]. by left.
Qed.
End Wrappers.
End UtilTraces.

(** Calls at 0 and 50 ms, the timer run of the second call at 150 ms, a
    call at 200 ms; the delay is 100 ms. *)
Lemma debounce_trace_witness :
  let evs := [Util.Invoke 0 "a" [1%Z]; Util.Invoke 50 "b" [2%Z]; Util.Fire 150 2;
              Util.Invoke 200 "c" [3%Z]] in
  ∃ s, Util.run (Util.debounce_step 100) Util.debounce evs = Some s ∧
       Util.d_executed s = [(150%Z, "b", [2%Z])] ∧
       ∃ id, Util.pending (Util.d_host s) = [Util.Scheduled id 300 "c" [3%Z]].
Proof.
  intros evs.
  destruct (Util.run (Util.debounce_step 100) Util.debounce evs) as [s|] eqn:Hrun;
    [|by vm_compute in Hrun].
  exists s. split; [done|].
  destruct (UtilTraces.debounce_trace 100 evs s Hrun) as (Hex & _ & Hpend).
  split; [exact Hex|exact Hpend].
Defined.

(** Calls at 0 and 50 ms, the timer run of the first call at 100 ms, a
    call at 120 ms; the delay is 100 ms. *)
Lemma throttleAfter_trace_witness :
  let evs := [Util.Invoke 0 "a" [1%Z]; Util.Invoke 50 "b" [2%Z]; Util.Fire 100 1;
              Util.Invoke 120 "c" [3%Z]] in
  ∃ s, Util.run (Util.throttleAfter_step 100) Util.throttleAfter evs = Some s ∧
       Util.ta_executed s = [(100%Z, "a", [1%Z])] ∧
       ∃ id, Util.pending (Util.ta_host s) = [Util.Scheduled id 220 "c" [3%Z]].
Proof.
  intros evs.
  destruct (Util.run (Util.throttleAfter_step 100) Util.throttleAfter evs) as [s|] eqn:Hrun;
    [|by vm_compute in Hrun].
  exists s. split; [done|].
  destruct (UtilTraces.throttleAfter_trace 100 evs s Hrun) as (Hex & _ & Hpend).
  split; [exact Hex|exact Hpend].
Defined.

Lemma throttle_no_delay_witness :
  let cs := [Util.Call 1000 1000 "foo" [5%Z]; Util.Call 1000 1001 "bar" [6%Z];
             Util.Call 1001 1001 "baz" [7%Z]] in
  Util.th_executed (foldl (Util.throttle_call 0) Util.throttle cs) =
    [("foo", [5%Z]); ("bar", [6%Z]); ("baz", [7%Z])].
Proof.
  intros cs. apply (UtilTraces.throttle_no_delay 0 cs); [done|]. cbn. lia.
Defined.

(** * Further properties of copy *)

(** ** What copy leaves of the target it is given *)



(** ** What deep copies make of objects that are not plain *)

(** A deep copy keeps no object's kind: for every property whose value is
    an object that is neither a function nor a regular expression -- a
    [Date], say --, the target receives a new ordinary object, made from
    the root object prototype or, with [assignPrototype], from the
    prototype of the value. *)
Theorem copy_deep_ordinary n h kwArgs source name d l :
  wf_heap h → source < length (objs h) →
  sources kwArgs = [source] → given_target kwArgs = None → deep kwArgs = true →
  props_copyable (copyable n (flags kwArgs) h) (flags kwArgs) h source →
  name ∈ copied_names (flags kwArgs) h source →
  source_descriptor (flags kwArgs) h source name = Some d →
  d_value d = VObj l → isObject h (VObj l) = true →
  ∃ h' t l',
    copy (S n) h kwArgs = Ok (h', t) ∧
    getOwnPropertyDescriptor h' t name = Some (written (flags kwArgs) d (VObj l')) ∧
    length (objs h) ≤ l' ∧
    cls (get_obj h' l') = CObject ∧
    getPrototypeOf h' l' = new_proto kwArgs h l.
Proof.
  intros Hwf Hs Hsrcs Hnew Hdeep Hc Hname Hd Hv Hobj.
  destruct (copy_clone n h kwArgs source Hwf Hs Hsrcs Hnew Hc)
    as (h' & t & Hrun & -> & Hlt & _ & _ & Hprops).
  specialize (Hprops name). rewrite decide_True, Hd in Hprops by done.
  destruct Hprops as (v' & Hown & Hclone). cbn [deep flags] in Hclone.
  rewrite Hdeep, Hv in Hclone.
  destruct n as [|n]; cbn [clone] in Hclone; rewrite Hobj in Hclone;
    destruct Hclone as (l' & -> & Hge & Hl' & Hcp); [done|].
  destruct Hcp as (Hp & Hcls & _).
  exists h', (length (objs h)), l'. by repeat split.
Qed.

Lemma copy_deep_ordinary_witness :
  let kwArgs := {| deep := true; descriptors := false; inherited := false;
                   assignPrototype := false; target := None; sources := [3] |} in
  cls (get_obj date_fixture 2) = CDate ∧
  ∃ h' t l', copy 2 date_fixture kwArgs = Ok (h', t) ∧
             getOwnPropertyDescriptor h' t "when" = Some (Data (VObj l') true true true) ∧
             l' ≠ 2 ∧ cls (get_obj h' l') = CObject ∧
             getPrototypeOf h' l' = Some ObjectPrototype.
Proof.
  intros kwArgs. split; [done|].
  destruct (copy_deep_ordinary 1 date_fixture kwArgs 3 "when"
              (Data (VObj 2) true true true) 2)
    as (h' & t & l' & Hrun & Hown & Hge & Hcls & Hproto); try done.
  - by apply wf_heapb_correct.
  - cbn. lia.
  - unfold props_copyable. cbn.
    repeat (apply Forall_cons; split); try apply Forall_nil; cbn;
      repeat split; try done.
    change (get date_fixture 3 "when") with (VObj 2).
    intros _ _. unfold props_copyable. cbn. by try apply Forall_nil.
  - cbn. set_solver.
  - exists h', t, l'. split; [done|]. split; [done|].
    split; [cbn in Hge; lia|]. by split.
Defined.

(** ** The definitions a target rejects *)

Lemma defineProperty_throws h t name d e :
  defineProperty h t name d = Throw e -> e = TypeError.
Proof. unfold defineProperty. repeat case_match; congruence. Qed.

Lemma defineProperty_no_fuel h t name d : defineProperty h t name d ≠ OutOfFuel.
Proof. unfold defineProperty. repeat case_match; congruence. Qed.

Lemma defineAll_rejected copy_rec copyArray_rec kwArgs h0 t s name d names : ∀ hi,
  wf_heap h0 -> deep kwArgs = false ->
  s < length (objs h0) -> t < length (objs h0) -> t ∉ ancestors (S s) h0 s ->
  frame t h0 hi -> NoDup names -> name ∈ names ->
  (∀ name', name' ∈ names →
     getOwnPropertyDescriptor hi t name' = getOwnPropertyDescriptor h0 t name') ->
  (if inherited kwArgs then getPropertyDescriptor else getOwnPropertyDescriptor)
    h0 s name = Some d ->
  defineProperty h0 t name d = Throw TypeError ->
  defineAll copy_rec copyArray_rec kwArgs t s hi names = Throw TypeError.
Proof.
  intros hi Hwf Hdeep Hs Ht Hnot. revert hi.
  induction names as [|name0 names IH]; intros hi Hf Hnd Hin Hown Hd Hrej;
    [set_solver|].
  cbn [defineAll]. rewrite Hdeep.
  destruct (read_stable t h0 Hwf hi s Hf Hs Hnot) as (Hrown & Hrget & _).
  assert (Hread : (if inherited kwArgs then getPropertyDescriptor
                   else getOwnPropertyDescriptor) hi s name0 =
                  (if inherited kwArgs then getPropertyDescriptor
                   else getOwnPropertyDescriptor) h0 s name0).
  { destruct (inherited kwArgs); [apply Hrget|apply Hrown]. }
  rewrite Hread.
  destruct ((if inherited kwArgs then getPropertyDescriptor
             else getOwnPropertyDescriptor) h0 s name0) as [d0|] eqn:Hd0; [|done].
  cbn. apply NoDup_cons in Hnd as [Hnin Hnd].
  assert (Hext : extensible (get_obj hi t) = extensible (get_obj h0 t)).
  { destruct Hf as (_ & _ & Hsame & _). by destruct (Hsame Ht) as (_ & _ & ->). }
  destruct (decide (name0 = name)) as [->|Hne].
  - assert (d0 = d) as -> by congruence.
    assert (Hsame : defineProperty hi t name d = Throw TypeError).
    { unfold defineProperty in *. rewrite Hown by set_solver. rewrite Hext.
      destruct (getOwnPropertyDescriptor h0 t name) as [cur|].
      - by destruct (d_configurable cur || compatible cur d).
      - by destruct (extensible (get_obj h0 t)). }
    by rewrite Hsame.
  - destruct (defineProperty hi t name0 d0) as [h2|e|] eqn:Hdef; cbn.
    + apply IH; [|done|set_solver| |done..].
      * apply (frame_trans t h0 hi h2); [done|by eapply defineProperty_frame].
      * intros name' Hin'. apply defineProperty_spec in Hdef as ->.
        rewrite own_set_prop by (apply frame_length in Hf; lia).
        rewrite decide_False by (intros ->; done). apply Hown. set_solver.
    + by apply defineProperty_throws in Hdef as ->.
    + by apply defineProperty_no_fuel in Hdef.
Qed.

(** With [descriptors] and without [deep], [copy] throws a TypeError when
    the target it is given rejects the definition of one of the properties
    of the source: the target is not extensible and has no such property,
    or has one that is not configurable and that the descriptor of the
    source does not match -- as on a frozen target. *)
Theorem copy_descriptors_rejected n h kwArgs g s name d :
  wf_heap h → s < length (objs h) → g < length (objs h) →
  g ∉ ancestors (S s) h s →
  given_target kwArgs = Some g → sources kwArgs = [s] →
  descriptors kwArgs = true → deep kwArgs = false →
  name ∈ copied_names kwArgs h s →
  source_descriptor kwArgs h s name = Some d →
  defineProperty h g name d = Throw TypeError →
  copy (S n) h kwArgs = Throw TypeError.
Proof.
  intros Hwf Hs Hg Hnot Hgiven Hsrcs Hds Hdeep Hname Hd Hrej.
  cbn [copy]. unfold copy_body. rewrite Hsrcs.
  assert (Hmk : makeTarget h kwArgs s = (h, g)).
  { unfold given_target in Hgiven. unfold makeTarget.
    destruct (assignPrototype kwArgs); [done|]. by rewrite Hgiven. }
  rewrite Hmk. cbn [copySources]. unfold copySource. rewrite Hds.
  pose proof (copied_names_NoDup kwArgs h s Hwf Hs) as Hnd.
  unfold copied_names in Hname, Hnd. unfold source_descriptor in Hd.
  rewrite Hds in Hname, Hnd, Hd.
  rewrite (defineAll_rejected (copy n) (copyArray n) kwArgs h g s name d _ h); try done.
Qed.

Lemma copy_descriptors_rejected_witness :
  let kwArgs := {| deep := false; descriptors := true; inherited := false;
                   assignPrototype := false; target := Some 1; sources := [2] |} in
  copy 1 frozen_fixture kwArgs = Throw TypeError.
Proof.
  intros kwArgs.
  apply (copy_descriptors_rejected 0 frozen_fixture kwArgs 1 2 "a"
           (Data (VNum 2) true true true)); try done.
  - by apply wf_heapb_correct.
  - cbn. lia.
  - cbn. lia.
  - cbn. set_solver.
  - cbn. set_solver.
Defined.

(** ** Several sources, one call or many *)

Lemma flags_fields kwArgs kwArgs' :
  flags kwArgs = flags kwArgs' ->
  deep kwArgs = deep kwArgs' ∧ descriptors kwArgs = descriptors kwArgs' ∧
  inherited kwArgs = inherited kwArgs' ∧
  assignPrototype kwArgs = assignPrototype kwArgs'.
Proof. unfold flags. intros [= -> -> -> ->]. done. Qed.

Lemma mapItems_ext f g items : ∀ h,
  (∀ h v, f h v = g h v) -> mapItems f h items = mapItems g h items.
Proof.
  induction items as [|item items IH]; intros h Hfg; cbn; [done|].
  rewrite Hfg. destruct (g h item) as [[h1 item']| |]; cbn; [|done..].
  by rewrite IH.
Qed.

Section Flags.
Variable copy_rec : heap -> CopyArgs -> result (heap * loc).
Variable copyArray_rec : heap -> aloc -> CopyArgs -> result (heap * aloc).
Hypothesis copyArray_rec_flags : ∀ h a kwArgs kwArgs',
  flags kwArgs = flags kwArgs' ->
  copyArray_rec h a kwArgs = copyArray_rec h a kwArgs'.
Variables kwArgs kwArgs' : CopyArgs.
Hypothesis same_flags : flags kwArgs = flags kwArgs'.

Lemma copyItem_flags h item :
  copyItem copy_rec copyArray_rec kwArgs h item =
  copyItem copy_rec copyArray_rec kwArgs' h item.
Proof.
  destruct (flags_fields _ _ same_flags) as (Hd & Hds & Hi & Ha).
  unfold copyItem. destruct item; try done.
  - by rewrite Hd, Hds, Hi, Ha.
  - by rewrite (copyArray_rec_flags h a kwArgs kwArgs').
Qed.

Lemma copyArray_body_flags h array :
  copyArray_body copy_rec copyArray_rec h array kwArgs =
  copyArray_body copy_rec copyArray_rec h array kwArgs'.
Proof.
  unfold copyArray_body.
  by rewrite (mapItems_ext _ (copyItem copy_rec copyArray_rec kwArgs'))
    by apply copyItem_flags.
Qed.

Lemma deepValue_flags b h v :
  deepValue copy_rec copyArray_rec b kwArgs h v =
  deepValue copy_rec copyArray_rec b kwArgs' h v.
Proof.
  destruct (flags_fields _ _ same_flags) as (Hd & Hds & Hi & Ha).
  unfold deepValue. destruct v; try done.
  - by rewrite Hi, Ha.
  - by rewrite (copyArray_rec_flags h a kwArgs kwArgs').
Qed.

Lemma defineAll_flags t s names : ∀ h,
  defineAll copy_rec copyArray_rec kwArgs t s h names =
  defineAll copy_rec copyArray_rec kwArgs' t s h names.
Proof.
  destruct (flags_fields _ _ same_flags) as (Hd & Hds & Hi & Ha).
  induction names as [|name names IH]; intros h; cbn [defineAll]; [done|].
  rewrite Hi, Hd.
  destruct ((if inherited kwArgs' then _ else _) h s name) as [d|]; [|done].
  rewrite deepValue_flags.
  destruct (if deep kwArgs' then _ else _) as [[h1 d']| |]; cbn; [|done..].
  destruct (defineProperty h1 t name d'); cbn; [apply IH|done..].
Qed.

Lemma assignAll_flags t s names : ∀ h,
  assignAll copy_rec copyArray_rec kwArgs t s h names =
  assignAll copy_rec copyArray_rec kwArgs' t s h names.
Proof.
  destruct (flags_fields _ _ same_flags) as (Hd & Hds & Hi & Ha).
  induction names as [|name names IH]; intros h; cbn [assignAll]; [done|].
  rewrite Hi, Hd, deepValue_flags.
  destruct (inherited kwArgs' || hasOwnProperty h s name); [|apply IH].
  destruct (if deep kwArgs' then _ else _) as [[h1 v']| |]; cbn; [|done..].
  destruct (put h1 t name v'); cbn; [apply IH|done..].
Qed.

Lemma copySources_flags t srcs : ∀ h,
  copySources copy_rec copyArray_rec kwArgs t h srcs =
  copySources copy_rec copyArray_rec kwArgs' t h srcs.
Proof.
  destruct (flags_fields _ _ same_flags) as (Hd & Hds & Hi & Ha).
  induction srcs as [|s srcs IH]; intros h; cbn [copySources]; [done|].
  unfold copySource. rewrite Hds, Hi, defineAll_flags, assignAll_flags.
  destruct (if descriptors kwArgs' then _ else _); cbn; [apply IH|done..].
Qed.
End Flags.

Lemma copyArray_flags n : ∀ h a kwArgs kwArgs',
  flags kwArgs = flags kwArgs' -> copyArray n h a kwArgs = copyArray n h a kwArgs'.
Proof.
  induction n as [|n IH]; intros h a kwArgs kwArgs' Hfl; [done|].
  cbn [copyArray]. by apply copyArray_body_flags.
Qed.

Lemma copySources_app copy_rec copyArray_rec kwArgs t srcs1 srcs2 : ∀ h,
  copySources copy_rec copyArray_rec kwArgs t h (srcs1 ++ srcs2) =
  h1 ← copySources copy_rec copyArray_rec kwArgs t h srcs1;
  copySources copy_rec copyArray_rec kwArgs t h1 srcs2.
Proof.
  induction srcs1 as [|s srcs1 IH]; intros h; cbn; [done|].
  destruct (copySource copy_rec copyArray_rec kwArgs t h s); cbn; [apply IH|done..].
Qed.

(** Copying several sources onto a target in one call of [copy] is
    copying them one call after the other onto that target, in every mode:
    the same result -- the same store, the same error -- comes of
    [copy({ target, sources: [...a, ...b] })] and of
    [copy({ target, sources: a })] followed by
    [copy({ target, sources: b })]. *)
Theorem copy_one_after_another n h kwArgs g srcs1 srcs2 :
  given_target kwArgs = Some g → sources kwArgs = srcs1 ++ srcs2 →
  srcs1 ≠ [] → srcs2 ≠ [] →
  copy n h kwArgs =
    r ← copy n h (with_sources kwArgs srcs1);
    copy n r.1 (with_sources kwArgs srcs2).
Proof.
  intros Hg Hsrcs H1 H2. destruct n as [|n]; [done|].
  cbn [copy]. unfold copy_body. rewrite Hsrcs. cbn [sources with_sources].
  destruct srcs1 as [|s1 srcs1]; [done|]. destruct srcs2 as [|s2 srcs2]; [done|].
  cbn [app].
  assert (Hmk : ∀ s (k : CopyArgs), assignPrototype k = assignPrototype kwArgs →
            target k = target kwArgs → ∀ hi, makeTarget hi k s = (hi, g)).
  { intros s k Ha Ht hi. unfold given_target in Hg. unfold makeTarget.
    rewrite Ha, Ht. destruct (assignPrototype kwArgs); [done|]. by rewrite Hg. }
  rewrite !Hmk by done.
  change (s1 :: srcs1 ++ s2 :: srcs2) with ((s1 :: srcs1) ++ s2 :: srcs2).
  rewrite copySources_app.
  rewrite (copySources_flags _ _ (copyArray_flags n) (with_sources kwArgs (s1 :: srcs1))
             kwArgs eq_refl g (s1 :: srcs1)).
  destruct (copySources (copy n) (copyArray n) kwArgs g h (s1 :: srcs1)) as [h1| |];
    cbn -[copySources makeTarget]; [|done..].
  rewrite Hmk by done.
  by rewrite (copySources_flags _ _ (copyArray_flags n) (with_sources kwArgs (s2 :: srcs2))
               kwArgs eq_refl g (s2 :: srcs2)).
Qed.

Lemma copy_one_after_another_witness :
  let kwArgs := {| deep := true; descriptors := false; inherited := false;
                   assignPrototype := false; target := Some 1; sources := [3; 4] |} in
  copy 2 create_fixture kwArgs =
    r ← copy 2 create_fixture (with_sources kwArgs [3]);
    copy 2 r.1 (with_sources kwArgs [4]).
Proof.
  intros kwArgs. by apply (copy_one_after_another 2 create_fixture kwArgs 1 [3] [4]).
Defined.
